(** * task-glitch: the derived-metrics module and the task store

    A shallow embedding of [src/hooks/useTasks.ts] (the [useTasks] store)
    and of the pure functions of [@/utils/logic] (ROI, sorting and
    analytics), with the properties the specification states about them.

    Representation of the JavaScript data:
    - a [number] that holds revenue, time or ROI is an IEEE-754 binary64
      value: Rocq's primitive [float], whose operations are the
      processor's and hence JavaScript's;
    - array lengths, status counts, priority weights, time values (epoch
      milliseconds, at most 8.64e15 in magnitude) and whole-day counts
      are integers below 2^53, on which binary64 arithmetic is exact:
      they are [nat] or [Z], and a NaN among them is [None];
    - a quotient of two such integers is an exact rational ([Q]); the
      binary64 value JavaScript holds is that rational rounded to
      nearest, which keeps it between any two integers the rational lies
      between;
    - strings are [string]; [undefined] and [null] are [None];
    - the built-ins the code calls ([Array.prototype.sort], [Date],
      [toFixed]) are modelled after ECMA-262; [localeCompare] and the
      parsing of date strings are parameters. *)

From Stdlib Require Import ZArith List String Ascii Bool Lia QArith.
From Stdlib Require Import Floats.
From Stdlib Require Import DecimalString DecimalZ.
From Stdlib Require Import Sorting.Permutation Sorting.Sorted.
Import ListNotations.

Set Warnings "-inexact-float".
Local Open Scope string_scope.
Local Open Scope list_scope.
Local Open Scope Z_scope.

(** ** JavaScript numbers *)

Module Num.

(** [Number.isFinite]. *)
Definition isFinite (x : float) : bool :=
  negb (is_nan x || is_infinity x).

(** The integer [n] for which [n / 100 - num / den] is as close to zero
    as possible, the larger [n] on a tie (step 10.a of
    [Number.prototype.toFixed]). *)
Definition nearest_hundredth (m : positive) (e : Z) : Z :=
  let num := 100 * Z.pos m * 2 ^ Z.max e 0 in
  let den := 2 ^ Z.max (- e) 0 in
  (2 * num + den) / (2 * den).

(** The binary64 value nearest to [n / 100], ties to even: what
    [Number] reads back from the decimal digits of [n / 100]. *)
Definition hundredths (n : Z) : float :=
  match n with
  | Zpos p =>
      SF2Prim (SF64div (S754_finite false p 0) (S754_finite false 100 0))
  | _ => zero
  end.

(** [Number(x.toFixed(2))].  [toFixed] prints a non-finite [x] and an
    [x] of magnitude at least 1e21 with [ToString], which [Number]
    reads back as [x]; otherwise it prints the sign and the digits of
    the nearest hundredth of [|x|]. *)
Definition toFixed2 (x : float) : float :=
  match Prim2SF x with
  | S754_nan | S754_infinity _ => x
  | S754_zero _ => zero
  | S754_finite s m e =>
      if (1e21 <=? abs x)%float then x
      else
        let r := hundredths (nearest_hundredth m e) in
        if s then (- r)%float else r
  end.

(** The sign of a number, as [sort] reads a comparator's result: NaN
    counts as zero. *)
Definition sgn (v : float) : Z :=
  if (v <? 0)%float then -1 else if (0 <? v)%float then 1 else 0.

(** The number that the integer [z] is, for an integer of magnitude below
    2^63; the conversion is exact below 2^53. *)
Definition ofZ (z : Z) : float :=
  if z <? 0 then (- of_uint63 (Uint63.of_Z (- z)))%float
  else of_uint63 (Uint63.of_Z z).

(** The integer that a number is; [None] for NaN, and for the numbers
    that are not integers. *)
Definition toZ (x : float) : option Z :=
  match Prim2SF x with
  | S754_zero _ => Some 0
  | S754_finite s m e =>
      if 0 <=? e then Some (cond_Zopp s (Zpos m * 2 ^ e))
      else if Zpos m mod 2 ^ (- e) =? 0
           then Some (cond_Zopp s (Zpos m / 2 ^ (- e)))
           else None
  | _ => None
  end.

End Num.

(** ** [Math] *)

(** [Math.max(a, b)]: NaN when an argument is NaN; of two zeros, the
    positive one. *)
Definition Math_max (a b : float) : float :=
  if is_nan a || is_nan b then nan
  else if (a <? b)%float then b
  else if (b <? a)%float then a
  else if get_sign a then b else a.

(** [Math.round(x)]: the integer nearest to [x], the larger one on a tie;
    [x] itself when it is an integer, an infinity or NaN; a zero of the
    sign of [x] when the result is zero. *)
Definition Math_round (x : float) : float :=
  match Prim2SF x with
  | S754_finite s m e =>
      if 0 <=? e then x
      else
        let n := (2 * cond_Zopp s (Zpos m) + 2 ^ (- e)) / 2 ^ (1 - e) in
        if n =? 0 then (if s then neg_zero else zero) else Num.ofZ n
  | _ => x
  end.

(** ** [Array.prototype.sort] *)

(** ECMAScript requires [sort] to be stable and, for a consistent
    comparator, to return the elements in the comparator's order; that
    fixes the result.  The model is the stable insertion sort.  [cmp] is
    the comparator seen the way [sort] sees it: through the sign of its
    result (negative, positive, or zero; a NaN result counts as zero). *)
Section ArraySort.
Context {A : Type}.
Variable cmp : A -> A -> Z.

Fixpoint insert (x : A) (l : list A) : list A :=
  match l with
  | [] => [x]
  | y :: l' => if 0 <? cmp x y then y :: insert x l' else x :: l
  end.

Definition Array_sort (l : list A) : list A := fold_right insert [] l.
End ArraySort.

(** ** Arrays as heap objects

    Enough of the heap to tell a copy from an alias: array objects are
    addressed by their position in the heap. *)
Module Heap.
Section Arrays.
Context {A : Type}.

Definition heap := list (list A).

Definition read (h : heap) (r : nat) : list A := nth r h [].

Definition alloc (h : heap) (v : list A) : heap * nat :=
  (h ++ [v], List.length h).

Fixpoint write (h : heap) (r : nat) (v : list A) : heap :=
  match h, r with
  | [], _ => []
  | _ :: h', O => v :: h'
  | x :: h', S r' => x :: write h' r' v
  end.
End Arrays.
End Heap.

(** ** [Date]

    The abstract operations of ECMAScript's Date objects (ECMA-262,
    section 21.4.1), on time values: integral milliseconds since the
    epoch, in UTC.  A Date object holds such a time value of magnitude
    at most 8.64e15, or NaN ([None]): [TimeClip] turns every other
    number into NaN. *)
Module JSDate.

Definition msPerDay : Z := 86400000.

Definition Day (t : Z) : Z := t / msPerDay.
Definition TimeWithinDay (t : Z) : Z := t mod msPerDay.

Definition DaysInYear (y : Z) : Z :=
  if negb (y mod 4 =? 0) then 365
  else if negb (y mod 100 =? 0) then 366
  else if negb (y mod 400 =? 0) then 365
  else 366.

Definition DayFromYear (y : Z) : Z :=
  365 * (y - 1970) + (y - 1969) / 4 - (y - 1901) / 100 + (y - 1601) / 400.

Definition TimeFromYear (y : Z) : Z := msPerDay * DayFromYear y.

(** The largest [y] with [DayFromYear y <= d]: the mean year has
    146097 / 400 days, and the estimate is at most one year off. *)
Definition YearFromDay (d : Z) : Z :=
  let y := 1970 + (400 * d) / 146097 in
  if DayFromYear (y + 1) <=? d then y + 1
  else if d <? DayFromYear y then y - 1
  else y.

Definition YearFromTime (t : Z) : Z := YearFromDay (Day t).

Definition DayWithinYear (t : Z) : Z :=
  Day t - DayFromYear (YearFromTime t).

Definition leapDays (y : Z) : Z := if DaysInYear y =? 366 then 1 else 0.

Definition InLeapYear (t : Z) : Z := leapDays (YearFromTime t).

(** The day within the year on which month [m] (0 to 11) starts. *)
Definition monthStart (leap m : Z) : Z :=
  match m with
  | 0 => 0
  | 1 => 31
  | 2 => 59 + leap
  | 3 => 90 + leap
  | 4 => 120 + leap
  | 5 => 151 + leap
  | 6 => 181 + leap
  | 7 => 212 + leap
  | 8 => 243 + leap
  | 9 => 273 + leap
  | 10 => 304 + leap
  | 11 => 334 + leap
  | _ => 365 + leap
  end.

Definition MonthFromTime (t : Z) : Z :=
  let d := DayWithinYear t in
  let l := InLeapYear t in
  if d <? 31 then 0
  else if d <? 59 + l then 1
  else if d <? 90 + l then 2
  else if d <? 120 + l then 3
  else if d <? 151 + l then 4
  else if d <? 181 + l then 5
  else if d <? 212 + l then 6
  else if d <? 243 + l then 7
  else if d <? 273 + l then 8
  else if d <? 304 + l then 9
  else if d <? 334 + l then 10
  else 11.

Definition DateFromTime (t : Z) : Z :=
  DayWithinYear t - monthStart (InLeapYear t) (MonthFromTime t) + 1.

Definition WeekDay (t : Z) : Z := (Day t + 4) mod 7.

Definition MakeTime (hour min sec ms : Z) : Z :=
  hour * 3600000 + min * 60000 + sec * 1000 + ms.

Definition MakeDay (year month date : Z) : Z :=
  let ym := year + month / 12 in
  let mn := month mod 12 in
  DayFromYear ym + monthStart (leapDays ym) mn + date - 1.

Definition MakeDate (day time : Z) : Z := day * msPerDay + time.

Definition maxTime : Z := 8640000000000000.

Definition TimeClip (time : option Z) : option Z :=
  match time with
  | Some t => if Z.abs t <=? maxTime then Some t else None
  | None => None
  end.

(** [new Date(s)] for a string [s]: the time value that [parse] reads
    from [s], clipped. *)
Definition newDate (parse : string -> option Z) (s : string) : option Z :=
  TimeClip (parse s).

(** The getters of a Date object with the time value [d]; each is NaN
    when [d] is. *)
Definition getUTCFullYear (d : option Z) : option Z :=
  option_map YearFromTime d.
Definition getUTCMonth (d : option Z) : option Z :=
  option_map MonthFromTime d.
Definition getUTCDate (d : option Z) : option Z :=
  option_map DateFromTime d.
Definition getUTCDay (d : option Z) : option Z :=
  option_map WeekDay d.

(** [d.getTime()]: the time value as a number.  A time value is below
    2^53 in magnitude, so the conversion is exact. *)
Definition getTime (d : option Z) : float :=
  match d with
  | Some t => Num.ofZ t
  | None => nan
  end.

(** An arithmetic operation on two numbers that are integers or NaN. *)
Definition lift2 (f : Z -> Z -> Z) (a b : option Z) : option Z :=
  match a, b with
  | Some x, Some y => Some (f x y)
  | _, _ => None
  end.

(** [Date.UTC(year, month, date)]; a year from 0 to 99 means 1900 to
    1999. *)
Definition UTC (year month date : option Z) : option Z :=
  match year, month, date with
  | Some y, Some m, Some dt =>
      let yr := if (0 <=? y) && (y <=? 99) then 1900 + y else y in
      TimeClip (Some (MakeDate (MakeDay yr m dt) (MakeTime 0 0 0 0)))
  | _, _, _ => None
  end.

(** [setUTCDate(dt)] on the Date object with the time value [t]: the
    new time value of the object. *)
Definition setUTCDate (t dt : option Z) : option Z :=
  match t, dt with
  | Some t, Some dt =>
      TimeClip
        (Some (MakeDate (MakeDay (YearFromTime t) (MonthFromTime t) dt)
                 (TimeWithinDay t)))
  | _, _ => None
  end.

(** [Math.round(a / b)] for integers [a] and [b > 0]: the nearest
    integer, the larger one on a tie. *)
Definition round_div (a b : Z) : Z := (2 * a + b) / (2 * b).

(** How a template literal prints an integral number. *)
Definition show (z : Z) : string := NilZero.string_of_int (Z.to_int z).

(** How it prints a number that is an integer or NaN. *)
Definition showNumber (n : option Z) : string :=
  match n with
  | Some z => show z
  | None => "NaN"
  end.

(** A parser for the one format [toISOString] writes,
    [YYYY-MM-DDTHH:mm:ss.sssZ]; [None] is the time value NaN. *)
Definition digit (c : ascii) : option Z :=
  let n := Z.of_nat (nat_of_ascii c) in
  if (48 <=? n) && (n <=? 57) then Some (n - 48) else None.

Fixpoint number (cs : list ascii) (acc : Z) : option Z :=
  match cs with
  | [] => Some acc
  | c :: cs' =>
      match digit c with
      | Some v => number cs' (10 * acc + v)
      | None => None
      end
  end.

Definition daysInMonth (y m : Z) : Z :=
  monthStart (leapDays y) (m + 1) - monthStart (leapDays y) m.

Definition parseISO (s : string) : option Z :=
  match list_ascii_of_string s with
  | [y1; y2; y3; y4; "-"; m1; m2; "-"; d1; d2; "T";
     h1; h2; ":"; n1; n2; ":"; s1; s2; "."; f1; f2; f3; "Z"]%char =>
      match number [y1; y2; y3; y4] 0, number [m1; m2] 0,
            number [d1; d2] 0, number [h1; h2] 0, number [n1; n2] 0,
            number [s1; s2] 0, number [f1; f2; f3] 0 with
      | Some y, Some m, Some d, Some h, Some n, Some sec, Some ms =>
          if (1 <=? m) && (m <=? 12) && (1 <=? d)
             && (d <=? daysInMonth y (m - 1))
             && (h <=? 23) && (n <=? 59) && (sec <=? 59)
          then Some (MakeDate (MakeDay y (m - 1) d) (MakeTime h n sec ms))
          else None
      | _, _, _, _, _, _, _ => None
      end
  | _ => None
  end.

End JSDate.

(** The comparison of strings by code units.  On strings made of digits,
    [-] and upper-case letters it is the order [localeCompare] gives. *)
Definition codeUnitCompare (a b : string) : Z :=
  match String.compare a b with
  | Lt => -1
  | Eq => 0
  | Gt => 1
  end.

(** ** Data model ([@/types]) *)

Inductive Priority := High | Medium | Low.
Inductive Status := Todo | InProgress | Done.

Definition Status_eqb (a b : Status) : bool :=
  match a, b with
  | Todo, Todo | InProgress, InProgress | Done, Done => true
  | _, _ => false
  end.

Definition Priority_eqb (a b : Priority) : bool :=
  match a, b with
  | High, High | Medium, Medium | Low, Low => true
  | _, _ => false
  end.

Record Task := mkTask {
  id : string;
  title : string;
  revenue : float;
  timeTaken : float;
  priority : Priority;
  status : Status;
  notes : option string;
  createdAt : string;
  completedAt : option string
}.

(** [DerivedTask]: a task with its [roi] ([null] is [None]) and its
    [priorityWeight] (of type [3 | 2 | 1]). *)
Record DerivedTask := mkDerived {
  task : Task;
  roi : option float;
  priorityWeight : Z
}.

(** ** ROI *)

Definition computeROI (revenue timeTaken : float) : option float :=
  if negb (Num.isFinite revenue) then None
  else if negb (Num.isFinite timeTaken) || (timeTaken <=? 0)%float then None
  else Some (Num.toFixed2 (revenue / timeTaken)%float).

Definition computePriorityWeight (p : Priority) : Z :=
  match p with
  | High => 3
  | Medium => 2
  | _ => 1
  end.

Definition withDerived (t : Task) : DerivedTask :=
  {| task := t;
     roi := computeROI (revenue t) (timeTaken t);
     priorityWeight := computePriorityWeight (priority t) |}.

(** ** The task store ([useTasks]) *)

(** The two pieces of React state the mutations touch.  Every setter
    call of one event is applied before the next event is handled, so a
    mutation is a function from state to state. *)
Record State := mkState {
  tasks : list Task;
  lastDeleted : option Task
}.

Record TaskFormPayload := mkPayload {
  payload_id : option string;
  payload_title : string;
  payload_revenue : float;
  payload_timeTaken : float;
  payload_priority : Priority;
  payload_status : Status;
  payload_notes : option string
}.

(** [Partial<Task>]: a key that is absent is [None].  The optional
    fields [notes] and [completedAt] may be present and [undefined]. *)
Record TaskPatch := mkPatch {
  patch_id : option string;
  patch_title : option string;
  patch_revenue : option float;
  patch_timeTaken : option float;
  patch_priority : option Priority;
  patch_status : option Status;
  patch_notes : option (option string);
  patch_createdAt : option string;
  patch_completedAt : option (option string)
}.

Definition orElse {A} (o : option A) (d : A) : A :=
  match o with
  | Some a => a
  | None => d
  end.

Definition isDone (st : Status) : bool := Status_eqb st Done.

(** [addTask].  [now] is [new Date().toISOString()] and [uuid] is
    [crypto.randomUUID()], both read when the call is made. *)
Definition addTask (now uuid : string) (payload : TaskFormPayload)
    (s : State) : State :=
  let task :=
    {| id := orElse (payload_id payload) uuid;
       title := payload_title payload;
       revenue := payload_revenue payload;
       timeTaken :=
         if (0 <? payload_timeTaken payload)%float
         then payload_timeTaken payload else 1%float;
       priority := payload_priority payload;
       status := payload_status payload;
       notes := payload_notes payload;
       createdAt := now;
       completedAt :=
         if isDone (payload_status payload) then Some now else None |} in
  {| tasks := tasks s ++ [task]; lastDeleted := lastDeleted s |}.

(** The object literal [{ ...t, ...patch, completedAt: ... }]. *)
Definition applyPatch (now : string) (patch : TaskPatch) (t : Task) : Task :=
  {| id := orElse (patch_id patch) (id t);
     title := orElse (patch_title patch) (title t);
     revenue := orElse (patch_revenue patch) (revenue t);
     timeTaken := orElse (patch_timeTaken patch) (timeTaken t);
     priority := orElse (patch_priority patch) (priority t);
     status := orElse (patch_status patch) (status t);
     notes := orElse (patch_notes patch) (notes t);
     createdAt := orElse (patch_createdAt patch) (createdAt t);
     completedAt :=
       if negb (isDone (status t))
          && match patch_status patch with
             | Some st => isDone st
             | None => false
             end
       then Some now
       else completedAt t |}.

(** [updateTask].  [now] is [new Date().toISOString()], read when a
    task matches. *)
Definition updateTask (now : string) (i : string) (patch : TaskPatch)
    (s : State) : State :=
  {| tasks :=
       map (fun t => if (id t =? i)%string then applyPatch now patch t else t)
           (tasks s);
     lastDeleted := lastDeleted s |}.

(** [deleteTask]: the updater of [setTasks] finds the target, hands it
    (or null) to [setLastDeleted], and returns the other tasks. *)
Definition deleteTask (i : string) (s : State) : State :=
  let target := find (fun t => (id t =? i)%string) (tasks s) in
  {| tasks := filter (fun t => negb (id t =? i)%string) (tasks s);
     lastDeleted := target |}.

Definition undoDelete (s : State) : State :=
  match lastDeleted s with
  | None => s
  | Some t => {| tasks := tasks s ++ [t]; lastDeleted := None |}
  end.

Definition clearLastDeleted (s : State) : State :=
  {| tasks := tasks s; lastDeleted := None |}.

(** ** Sorting and analytics ([@/utils/logic])

    Two built-ins stay parameters: [String.prototype.localeCompare], of
    which only the sign of the result matters, and the parsing of a date
    string by [new Date(s)], which yields a time value or NaN ([None]). *)
Section Logic.
Variable localeCompare : string -> string -> Z.
Variable Date_parse : string -> option Z.

(** *** [sortTasks] *)

(** The comparator of [sortTasks], as the sign of what it returns. *)
Definition compareTasks (a b : DerivedTask) : Z :=
  let aROI := orElse (roi a) (-1)%float in
  let bROI := orElse (roi b) (-1)%float in
  if negb (bROI =? aROI)%float then Num.sgn (bROI - aROI)%float
  else if negb (priorityWeight b =? priorityWeight a)
       then priorityWeight b - priorityWeight a
       else localeCompare (title (task a)) (title (task b)).

Definition sortTasks (tasks : list DerivedTask) : list DerivedTask :=
  Array_sort compareTasks tasks.

(** [sortTasks] on the heap: [[...tasks]] allocates a copy of the array
    at [r]; [sort] sorts the copy in place and returns it. *)
Definition sortTasks_heap (h : Heap.heap) (r : nat)
    : Heap.heap * nat :=
  let (h1, r1) := Heap.alloc h (Heap.read h r) in
  (Heap.write h1 r1 (Array_sort compareTasks (Heap.read h1 r1)), r1).

(** *** [computeFunnel] *)

Record FunnelCounts := mkFunnel {
  todo : nat;
  inProgress : nat;
  done : nat;
  conversionTodoToInProgress : Q;
  conversionInProgressToDone : Q
}.

Definition countStatus (st : Status) (tasks : list Task) : nat :=
  List.length (filter (fun t => Status_eqb (status t) st) tasks).

Definition ratio (a b : nat) : Q :=
  (inject_Z (Z.of_nat a) / inject_Z (Z.of_nat b))%Q.

Definition computeFunnel (tasks : list Task) : FunnelCounts :=
  let todo := countStatus Todo tasks in
  let inProgress := countStatus InProgress tasks in
  let done := countStatus Done tasks in
  let base := (todo + inProgress + done)%nat in
  {| todo := todo;
     inProgress := inProgress;
     done := done;
     conversionTodoToInProgress :=
       if (base =? 0)%nat then 0%Q else ratio (inProgress + done) base;
     conversionInProgressToDone :=
       if (inProgress =? 0)%nat then 0%Q else ratio done inProgress |}.

(** *** [computeVelocityByPriority] *)

(** An optional string is truthy when it is present and not empty. *)
Definition truthy (o : option string) : bool :=
  match o with
  | Some s => negb (s =? "")%string
  | None => false
  end.

(** [daysBetween], in binary64 as the code computes it: the difference
    of the time values is rounded when it is not below 2^53, and the
    quotient is rounded before [Math.round] sees it. *)
Definition daysBetween (aISO bISO : string) : float :=
  let a := JSDate.getTime (JSDate.newDate Date_parse aISO) in
  let b := JSDate.getTime (JSDate.newDate Date_parse bISO) in
  Math_max 0 (Math_round ((b - a) / (24 * 3600 * 1000))).

(** The arrays of day counts.  A day count is NaN or an integer that is
    not negative; it is kept as the integer it is, [None] for NaN. *)
Definition Groups := Priority -> list (option Z).

Definition push (g : Groups) (p : Priority) (v : option Z) : Groups :=
  fun q => if Priority_eqb q p then g q ++ [v] else g q.

(** The comparator [(a, b) => a - b], as a sign. *)
Definition compareNumbers (a b : option Z) : Z :=
  match a, b with
  | Some x, Some y => Z.sgn (x - y)
  | _, _ => 0
  end.

(** [arr.reduce((s, v) => s + v, 0)]. *)
Definition sumNumbers (arr : list (option Z)) : option Z :=
  fold_left
    (fun s v =>
       match s, v with
       | Some x, Some y => Some (x + y)
       | _, _ => None
       end)
    arr (Some 0).

Record Velocity := mkVelocity {
  avgDays : option Q;
  medianDays : option Z
}.

Definition groupTasks (tasks : list Task) : Groups :=
  fold_left
    (fun g t =>
       match completedAt t with
       | Some c =>
           if truthy (completedAt t)
           then push g (priority t)
                  (Num.toZ (daysBetween (createdAt t) c))
           else g
       | None => g
       end)
    tasks (fun _ => []).

Definition velocityOf (group : list (option Z)) : Velocity :=
  let arr := Array_sort compareNumbers group in
  let n := List.length arr in
  {| avgDays :=
       if (n =? 0)%nat then Some 0%Q
       else option_map
              (fun s => (inject_Z s / inject_Z (Z.of_nat n))%Q)
              (sumNumbers arr);
     medianDays :=
       if (n =? 0)%nat then Some 0
       else nth (Nat.div n 2) arr None |}.

Definition computeVelocityByPriority (tasks : list Task)
    : Priority -> Velocity :=
  fun p => velocityOf (groupTasks tasks p).

(** *** [computeThroughputByWeek] *)

(** [getWeekNumber(d)] for the Date object with the time value [d].  A
    date that [Date.UTC] or [setUTCDate] computes outside the range of
    time values is invalid, and the week number is then NaN. *)
Definition getWeekNumber (d : option Z) : option Z :=
  let target :=
    JSDate.TimeClip
      (JSDate.UTC (JSDate.getUTCFullYear d) (JSDate.getUTCMonth d)
         (JSDate.getUTCDate d)) in
  let dayNr :=
    option_map (fun w => (w + 6) mod 7) (JSDate.getUTCDay target) in
  let target :=
    JSDate.setUTCDate target
      (JSDate.lift2 (fun dt n => dt - n + 3)
         (JSDate.getUTCDate target) dayNr) in
  let firstThursday :=
    JSDate.TimeClip
      (JSDate.UTC (JSDate.getUTCFullYear target) (Some 0) (Some 4)) in
  let diff := JSDate.lift2 Z.sub target firstThursday in
  option_map
    (fun x => 1 + JSDate.round_div x (7 * 24 * 3600 * 1000)) diff.

(** The template [`${d.getUTCFullYear()}-W${getWeekNumber(d)}`] for the
    Date object with the time value [d]. *)
Definition weekKey (d : option Z) : string :=
  (JSDate.showNumber (JSDate.getUTCFullYear d) ++ "-W"
     ++ JSDate.showNumber (getWeekNumber d))%string.

(** A [Map] with string keys, its entries in insertion order. *)
Definition MapOf (V : Type) := list (string * V).

Fixpoint Map_get {V} (k : string) (m : MapOf V) : option V :=
  match m with
  | [] => None
  | (k', v) :: m' => if (k' =? k)%string then Some v else Map_get k m'
  end.

Fixpoint Map_set {V} (k : string) (v : V) (m : MapOf V) : MapOf V :=
  match m with
  | [] => [(k, v)]
  | (k', v') :: m' =>
      if (k' =? k)%string then (k, v) :: m' else (k', v') :: Map_set k v m'
  end.

Record WeekEntry := mkWeek {
  week : string;
  count : nat;
  week_revenue : float
}.

Definition addToWeek (m : MapOf (nat * float)) (t : Task)
    : MapOf (nat * float) :=
  match completedAt t with
  | Some c =>
      if truthy (completedAt t) then
        let week := weekKey (JSDate.newDate Date_parse c) in
        let current := orElse (Map_get week m) (0%nat, 0%float) in
        Map_set week (S (fst current), (snd current + revenue t)%float) m
      else m
  | None => m
  end.

Definition computeThroughputByWeek (tasks : list Task) : list WeekEntry :=
  let map := fold_left addToWeek tasks [] in
  List.map
    (fun e => {| week := fst e; count := fst (snd e);
                 week_revenue := snd (snd e) |})
    (Array_sort (fun a b => localeCompare (fst a) (fst b)) map).

End Logic.

(** The invariant the specification states for a stored task. *)
Definition positiveTime (t : Task) : bool := (0 <? timeTaken t)%float.

(** ** Sample data *)

Module Sample.

Definition t0 : string := "2024-01-01T09:00:00.000Z".
Definition t1 : string := "2024-01-02T09:00:00.000Z".
Definition t2 : string := "2024-01-05T09:00:00.000Z".

(** Task A of the specification's scenario: revenue 100, time 2. *)
Definition payloadA : TaskFormPayload :=
  mkPayload None "Alpha" 100 2 High Todo None.

Definition payloadDone : TaskFormPayload :=
  mkPayload (Some "d") "Delta" 40 4 Medium Done None.

Definition A : Task :=
  mkTask "a" "Alpha" 100 2 High Todo None t0 None.

Definition B : Task :=
  mkTask "b" "Beta" 30 3 Low InProgress None t0 None.

Definition empty : State := mkState [] None.

(** One task in the list, another one pending in the slot. *)
Definition pending : State := mkState [A] (Some B).

Definition setStatus (st : Status) : TaskPatch :=
  mkPatch None None None None None (Some st) None None None.

Definition setTimeTaken (x : float) : TaskPatch :=
  mkPatch None None None (Some x) None None None None None.

End Sample.

Module SampleFunnel.
Definition ip : Task :=
  mkTask "1" "Call" 10 1 High InProgress None Sample.t0 None.
Definition d1 : Task :=
  mkTask "2" "Demo" 20 1 High Done None Sample.t0 (Some Sample.t1).
Definition d2 : Task :=
  mkTask "3" "Quote" 30 1 Low Done None Sample.t0 (Some Sample.t2).
Definition board : list Task := [ip; d1; d2].
End SampleFunnel.

(** ** The order of binary64 values

    What the proofs about comparisons need from IEEE-754: the integer a
    finite value stands for at a common exponent, the sign a rounded
    result carries, and an embedding of the values other than NaN into
    Z^3, ordered lexicographically. *)

(** The integer that the finite value [(-1)^s * m * 2^e] stands for in
    units of [2^ez]. *)
Definition scaled (s : bool) (m : positive) (e ez : Z) : Z :=
  cond_Zopp s (Zpos m * 2 ^ (e - ez)).

(** [r] is finite or infinite, with sign bit [s]. *)
Definition signed (s : bool) (r : spec_float) : Prop :=
  match r with
  | S754_finite s' _ _ | S754_infinity s' => s' = s
  | _ => False
  end.

Definition not_nan (x : spec_float) : bool :=
  match x with S754_nan => false | _ => true end.

(** Values other than NaN compare as their images under [ord] do. *)
Definition ord (x : spec_float) : Z * Z * Z :=
  match x with
  | S754_infinity true => (-2, 0, 0)
  | S754_finite true m e => (-1, - e, - Zpos m)
  | S754_zero _ | S754_nan => (0, 0, 0)
  | S754_finite false m e => (1, e, Zpos m)
  | S754_infinity false => (2, 0, 0)
  end.

Definition lexlt (a b : Z * Z * Z) : Prop :=
  let '(a1, a2, a3) := a in
  let '(b1, b2, b3) := b in
  a1 < b1 \/ (a1 = b1 /\ (a2 < b2 \/ (a2 = b2 /\ a3 < b3))).

Definition ford (x : float) : Z * Z * Z := ord (Prim2SF x).

(** ** The order [sortTasks] is specified to produce *)

Section SortOrder.
Variable localeCompare : string -> string -> Z.

(** The primary key: the ROI, a null ROI counting as -1. *)
Definition roiKey (d : DerivedTask) : float := orElse (roi d) (-1)%float.

(** A derived task's ROI is a number or null, never NaN. *)
Definition validROI (d : DerivedTask) : bool := negb (is_nan (roiKey d)).

(** [a] may stand before [b]: descending by ROI, then descending by
    priority weight, then ascending by title. *)
Definition before (a b : DerivedTask) : Prop :=
  (roiKey b <? roiKey a)%float = true
  \/ ((roiKey a =? roiKey b)%float = true
      /\ (priorityWeight b < priorityWeight a
          \/ (priorityWeight a = priorityWeight b
              /\ localeCompare (title (task a)) (title (task b)) <= 0))).

End SortOrder.

Module SampleSort.
(** The specification's scenario: equal ROI, equal priority, titles
    "Beta" and "Alpha"; and a task without a valid ROI. *)
Definition beta : Task :=
  mkTask "1" "Beta" 100 2 High Todo None Sample.t0 None.
Definition alpha : Task :=
  mkTask "2" "Alpha" 100 2 High Todo None Sample.t0 None.
Definition gamma : Task :=
  mkTask "3" "Gamma" 900 3 Low Todo None Sample.t0 None.
Definition broken : Task :=
  mkTask "4" "Delta" 10 0 High Todo None Sample.t0 None.
Definition derived : list DerivedTask :=
  map withDerived [beta; broken; alpha; gamma].
End SampleSort.

(** ** Velocity, as the specification words it *)

(** The tasks that count for priority [p]: those with a [completedAt]. *)
Definition completedIn (p : Priority) (t : Task) : bool :=
  truthy (completedAt t) && Priority_eqb (priority t) p.

(** Whole days from [a] to [b]: rounded, and 0 when negative. *)
Definition wholeDays (a b : Z) : Z :=
  Z.max 0 (JSDate.round_div (b - a) (24 * 3600 * 1000)).

(** The day count of task [t] under the date parser [parse] is the
    number [d], and not NaN. *)
Definition daysOf (parse : string -> option Z) (t : Task) (d : Z) : Prop :=
  exists c,
    completedAt t = Some c
    /\ Num.toZ (daysBetween parse (createdAt t) c) = Some d.

Definition sumZ (l : list Z) : Z := fold_right Z.add 0 l.

Definition mean (l : list Z) : Q :=
  (inject_Z (sumZ l) / inject_Z (Z.of_nat (List.length l)))%Q.

(** The median of an ascending list: the middle element, or the mean of
    the two middle elements when the length is even. *)
Definition median (sorted : list Z) : Q :=
  let n := List.length sorted in
  if (n =? 0)%nat then 0%Q
  else if Nat.even n
       then ((inject_Z (nth (Nat.div n 2 - 1) sorted 0%Z)
              + inject_Z (nth (Nat.div n 2) sorted 0%Z)) / 2)%Q
       else inject_Z (nth (Nat.div n 2) sorted 0).

(** The element at index [floor(n / 2)]: the median of a list of odd
    length, the upper of the two middle elements of one of even length. *)
Definition upperMedian (sorted : list Z) : Z :=
  nth (Nat.div (List.length sorted) 2) sorted 0.

Definition countLe (m : Z) (l : list Z) : nat :=
  List.length (filter (fun x => x <=? m) l).

Definition countGe (m : Z) (l : list Z) : nat :=
  List.length (filter (fun x => m <=? x) l).

(** [m] is a median of [l] in the wide sense: at least half of the
    elements are at most [m], and at least half are at least [m]. *)
Definition splitsInHalves (m : Z) (l : list Z) : Prop :=
  (List.length l <= 2 * countLe m l)%nat
  /\ (List.length l <= 2 * countGe m l)%nat.

Module SampleVelocity.
Definition oneDay : Task :=
  mkTask "1" "Call" 10 1 High Done None
    "2024-01-01T09:00:00.000Z" (Some "2024-01-02T09:00:00.000Z").
Definition threeDays : Task :=
  mkTask "2" "Demo" 20 1 High Done None
    "2024-01-01T09:00:00.000Z" (Some "2024-01-04T08:00:00.000Z").
Definition open : Task :=
  mkTask "3" "Quote" 30 1 High Todo None "2024-01-01T09:00:00.000Z" None.
Definition board : list Task := [oneDay; open; threeDays].
End SampleVelocity.

(** ** Throughput, as the specification words it *)

(** The Thursday (at midnight) of the week, Monday to Sunday, that holds
    the time value [d]. *)
Definition thursdayOf (d : Z) : Z :=
  (JSDate.Day d - (JSDate.WeekDay d + 6) mod 7 + 3) * JSDate.msPerDay.

(** The ISO-8601 week number: the week of a date is numbered by its
    Thursday, the n-th Thursday of a year being in week n. *)
Definition isoWeekNumber (d : Z) : Z :=
  JSDate.DayWithinYear (thursdayOf d) / 7 + 1.

(** The bucket a completed task is counted in. *)
Definition weekOf (parse : string -> option Z) (t : Task) : string :=
  match completedAt t with
  | Some c => weekKey (JSDate.newDate parse c)
  | None => ""
  end.

(** [t] has a [completedAt] and falls into the bucket [k]. *)
Definition inWeek (parse : string -> option Z) (k : string) (t : Task)
    : bool :=
  truthy (completedAt t) && (weekOf parse t =? k)%string.

(** The revenues of [ts], added up in the order of the list. *)
Definition sumRevenue (ts : list Task) : float :=
  fold_left (fun s t => (s + revenue t)%float) ts 0%float.

(** One more task in a bucket that may not exist yet. *)
Definition bump (acc : option (nat * float)) (t : Task)
    : option (nat * float) :=
  let current := orElse acc (0%nat, 0%float) in
  Some (S (fst current), (snd current + revenue t)%float).

Module SampleWeeks.
Definition january : Task :=
  mkTask "1" "Call" 10 1 High Done None
    "2024-01-01T09:00:00.000Z" (Some "2024-01-10T09:30:00.000Z").
Definition march : Task :=
  mkTask "2" "Demo" 20 1 High Done None
    "2024-01-01T09:00:00.000Z" (Some "2024-03-06T09:30:00.000Z").
Definition board : list Task := [january; march].
(** Two days of one ISO week (2020-W01), on either side of New Year. *)
Definition monday : Task :=
  mkTask "3" "Quote" 30 1 Low Done None
    "2019-12-01T09:00:00.000Z" (Some "2019-12-30T09:30:00.000Z").
Definition thursday : Task :=
  mkTask "4" "Visit" 40 1 Low Done None
    "2019-12-01T09:00:00.000Z" (Some "2020-01-02T09:30:00.000Z").
End SampleWeeks.

(** ** The store's invariants and views *)

(** The task in the last-deleted slot, as a list. *)
Definition pendingTasks (s : State) : list Task :=
  match lastDeleted s with
  | Some t => [t]
  | None => []
  end.

(** Every task the store holds, in the list or in the slot. *)
Definition heldTasks (s : State) : list Task := tasks s ++ pendingTasks s.

(** No two tasks the store holds share an id. *)
Definition uniqueIds (s : State) : Prop := NoDup (map id (heldTasks s)).

(** Every task the store holds has a positive [timeTaken]. *)
Definition positiveTimes (s : State) : bool :=
  forallb positiveTime (heldTasks s).

(** The ranked view [derivedSorted] of [useTasks]. *)
Definition derivedSorted (localeCompare : string -> string -> Z)
    (s : State) : list DerivedTask :=
  sortTasks localeCompare (map withDerived (tasks s)).


(** ** Metrics ([@/utils/logic]) *)

(** The number a length is: exact below 2^53, and array lengths are
    below 2^32. *)
Definition Number_ofNat (n : nat) : float :=
  of_uint63 (Uint63.of_Z (Z.of_nat n)).

Definition computeTotalRevenue (tasks : list Task) : float :=
  fold_left (fun sum t => (sum + revenue t)%float)
    (filter (fun t => isDone (status t)) tasks) 0%float.

Definition computeTotalTimeTaken (tasks : list Task) : float :=
  fold_left (fun sum t => (sum + timeTaken t)%float) tasks 0%float.

Definition computeTimeEfficiency (tasks : list Task) : float :=
  if (List.length tasks =? 0)%nat then 0%float
  else
    let done := countStatus Done tasks in
    (Number_ofNat done / Number_ofNat (List.length tasks) * 100)%float.

Definition computeRevenuePerHour (tasks : list Task) : float :=
  let time := computeTotalTimeTaken tasks in
  if (time <=? 0)%float then 0%float
  else (computeTotalRevenue tasks / time)%float.

(** The filter [typeof v === 'number' && Number.isFinite(v)], which
    narrows the array to numbers. *)
Fixpoint finiteNumbers (l : list (option float)) : list float :=
  match l with
  | [] => []
  | Some x :: l' =>
      if Num.isFinite x then x :: finiteNumbers l' else finiteNumbers l'
  | None :: l' => finiteNumbers l'
  end.

Definition taskROI (t : Task) : option float :=
  computeROI (revenue t) (timeTaken t).

Definition computeAverageROI (tasks : list Task) : float :=
  let rois := finiteNumbers (map taskROI tasks) in
  if (List.length rois =? 0)%nat then 0%float
  else (fold_left (fun s r => (s + r)%float) rois 0%float
        / Number_ofNat (List.length rois))%float.

Inductive Grade := Excellent | Good | NeedsImprovement.

Definition computePerformanceGrade (avgROI : float) : Grade :=
  if (500 <? avgROI)%float then Excellent
  else if (200 <=? avgROI)%float then Good
  else NeedsImprovement.


(** The grades, from worst to best. *)
Definition gradeRank (g : Grade) : Z :=
  match g with
  | NeedsImprovement => 0
  | Good => 1
  | Excellent => 2
  end.


(** ** Forecast ([@/utils/logic]) *)

(** [d || 1] for a number [d]: 1 when [d] is zero or NaN. *)
Definition orOne (d : float) : float :=
  if is_nan d || is_zero d then 1%float else d.

Record WeekPoint := mkPoint {
  point_week : string;
  point_revenue : float
}.

Definition sumFloats (l : list float) : float :=
  fold_left (fun s v => (s + v)%float) l 0%float.

Definition computeForecast (weekly : list WeekPoint) (horizonWeeks : nat)
    : list WeekPoint :=
  if (List.length weekly <? 2)%nat then []
  else
    let y := map point_revenue weekly in
    let x := map Number_ofNat (seq 0 (List.length weekly)) in
    let n := Number_ofNat (List.length x) in
    let sumX := sumFloats x in
    let sumY := sumFloats y in
    let sumXY :=
      fold_left (fun s vy => (s + fst vy * snd vy)%float)
        (combine x y) 0%float in
    let sumXX := fold_left (fun s v => (s + v * v)%float) x 0%float in
    let slope :=
      ((n * sumXY - sumX * sumY)
       / orOne (n * sumXX - sumX * sumX))%float in
    let intercept := ((sumY - slope * sumX) / n)%float in
    let lastIndex := nth (List.length x - 1) x nan in
    map (fun i =>
           let idx := (lastIndex + Number_ofNat i)%float in
           {| point_week := "+" ++ JSDate.show (Z.of_nat i);
              point_revenue := Math_max 0 (slope * idx + intercept)%float |})
        (seq 1 horizonWeeks).

Module SampleForecast.
(** The specification's series: 100, 200, 300, 400. *)
Definition linear : list WeekPoint :=
  [mkPoint "2024-W1" 100; mkPoint "2024-W2" 200;
   mkPoint "2024-W3" 300; mkPoint "2024-W4" 400].
End SampleForecast.


(** ** CSV export ([utils/csv.ts]) *)

(** The strings the values of [Priority] and [Status] are. *)
Definition Priority_name (p : Priority) : string :=
  match p with
  | High => "High"
  | Medium => "Medium"
  | Low => "Low"
  end.

Definition Status_name (st : Status) : string :=
  match st with
  | Todo => "Todo"
  | InProgress => "In Progress"
  | Done => "Done"
  end.

Module Csv.

Definition quote : ascii := "034"%char.
Definition comma : ascii := ","%char.
Definition newline : ascii := "010"%char.

Definition CSV_HEADERS : list string :=
  ["id"; "title"; "revenue"; "timeTaken"; "priority"; "status"; "notes"].

(** [value.replace] of every double quote by two of them. *)
Fixpoint doubleQuotes (s : string) : string :=
  match s with
  | EmptyString => EmptyString
  | String c s' =>
      if Ascii.eqb c quote
      then String quote (String quote (doubleQuotes s'))
      else String c (doubleQuotes s')
  end.

Definition special (c : ascii) : bool :=
  Ascii.eqb c quote || Ascii.eqb c comma || Ascii.eqb c newline.

(** The test of [escapeCsv]: a double quote, a comma or a line feed
    occurs in [s]. *)
Fixpoint hasSpecial (s : string) : bool :=
  match s with
  | EmptyString => false
  | String c s' => special c || hasSpecial s'
  end.

Definition escapeCsv (value : string) : string :=
  let escaped := doubleQuotes value in
  if hasSpecial escaped
  then String quote (escaped ++ String quote EmptyString)%string
  else escaped.

(** [l.join(sep)]. *)
Fixpoint join (sep : string) (l : list string) : string :=
  match l with
  | [] => EmptyString
  | [s] => s
  | s :: l' => (s ++ sep ++ join sep l')%string
  end.

Section ToCSV.
(** [String(x)] for a number [x]. *)
Variable Number_toString : float -> string.

Definition row (t : Task) : list string :=
  [id t; escapeCsv (title t); Number_toString (revenue t);
   Number_toString (timeTaken t); Priority_name (priority t);
   Status_name (status t); escapeCsv (orElse (notes t) "")].

Definition toCSV (tasks : list Task) : string :=
  join (String newline EmptyString)
    (join "," CSV_HEADERS :: map (fun r => join "," r) (map row tasks)).

(** The fields of a task, before escaping. *)
Definition fields (t : Task) : list string :=
  [id t; title t; Number_toString (revenue t);
   Number_toString (timeTaken t); Priority_name (priority t);
   Status_name (status t); orElse (notes t) ""].
End ToCSV.

(** A reader of CSV documents with the quoting of RFC 4180: fields are
    separated by commas, records by line feeds (the separator [toCSV]
    writes); a field in quotes may hold commas, line feeds and, doubled,
    quotes.  [field] and [record] are built in reverse. *)
Fixpoint parse (cs : list ascii) (quoted : bool) (field : list ascii)
    (record : list string) (records : list (list string))
    : list (list string) :=
  let close_field := string_of_list_ascii (rev field) :: record in
  match cs with
  | [] => rev (rev close_field :: records)
  | c :: cs' =>
      if quoted then
        if Ascii.eqb c quote then
          match cs' with
          | c' :: cs'' =>
              if Ascii.eqb c' quote
              then parse cs'' true (quote :: field) record records
              else parse cs' false field record records
          | [] => parse cs' false field record records
          end
        else parse cs' true (c :: field) record records
      else if Ascii.eqb c quote then parse cs' true field record records
      else if Ascii.eqb c comma then parse cs' false [] close_field records
      else if Ascii.eqb c newline
           then parse cs' false [] [] (rev close_field :: records)
           else parse cs' false (c :: field) record records
  end.

Definition parseCSV (doc : string) : list (list string) :=
  parse (list_ascii_of_string doc) false [] [] [].

(** The next character does not open or continue a quoted field. *)
Definition noQuoteAhead (rest : list ascii) : Prop :=
  match rest with
  | c :: _ => Ascii.eqb c quote = false
  | [] => True
  end.

(** The input ends, or a record does. *)
Definition separatorAhead (rest : list ascii) : Prop :=
  match rest with
  | c :: _ => c = newline
  | [] => True
  end.

(** A record as [toCSV] writes it when it escapes every field. *)
Definition encode (r : list string) : string := join "," (map escapeCsv r).

End Csv.

Module SampleCsv.
(** [String(x)] where [x] is an integer of magnitude below 10^21, a zero,
    NaN or an infinity. *)
Definition showInteger (x : float) : string :=
  match Prim2SF x with
  | S754_zero _ => "0"
  | S754_infinity s => if s then "-Infinity" else "Infinity"
  | S754_nan => "NaN"
  | S754_finite s m e => JSDate.show (cond_Zopp s (Z.shiftl (Z.pos m) e))
  end.

(** A title with a comma and double quotes, a note of two lines. *)
Definition quoted : Task :=
  mkTask "q" ("Plan, " ++ String Csv.quote ("v2" ++ String Csv.quote EmptyString))%string
    250 5 Medium InProgress
    (Some ("line one" ++ String Csv.newline "line two")%string)
    Sample.t0 None.

Definition board : list Task := [Sample.A; quoted].
End SampleCsv.

(** ** The task form ([components/TaskForm]) *)

(** The six pieces of state of the dialog. *)
Record FormState := mkForm {
  form_title : string;
  form_revenue : float;
  form_timeTaken : float;
  form_priority : Priority;
  form_status : Status;
  form_notes : string
}.

(** The effect that runs when the dialog opens: the fields of the task
    that is edited, or the defaults. *)
Definition openForm (initial : option Task) : FormState :=
  match initial with
  | Some t =>
      {| form_title := title t;
         form_revenue := revenue t;
         form_timeTaken := timeTaken t;
         form_priority := priority t;
         form_status := status t;
         form_notes := orElse (notes t) EmptyString |}
  | None =>
      {| form_title := EmptyString;
         form_revenue := 0;
         form_timeTaken := 1;
         form_priority := Medium;
         form_status := Todo;
         form_notes := EmptyString |}
  end.

Section TaskForm.
(** [String.prototype.trim] and [String.prototype.toLowerCase]. *)
Variable trim : string -> string.
Variable toLowerCase : string -> string.

Definition duplicateTitle (f : FormState) (existingTitles : list string)
    (initial : option Task) : bool :=
  let current := toLowerCase (trim (form_title f)) in
  if (current =? EmptyString)%string then false
  else
    let others :=
      match initial with
      | Some t0 =>
          filter
            (fun t => negb (toLowerCase t =? toLowerCase (title t0))%string)
            existingTitles
      | None => existingTitles
      end in
    existsb (fun t => (t =? current)%string) (map toLowerCase others).

Definition canSubmit (f : FormState) (existingTitles : list string)
    (initial : option Task) : bool :=
  negb (trim (form_title f) =? EmptyString)%string
  && negb (duplicateTitle f existingTitles initial)
  && (0 <=? form_revenue f)%float
  && (0 <? form_timeTaken f)%float.

(** The payload [handleSubmit] hands to [onSubmit]. *)
Definition handleSubmit (f : FormState) (initial : option Task)
    : TaskFormPayload :=
  {| payload_id := option_map id initial;
     payload_title := trim (form_title f);
     payload_revenue := form_revenue f;
     payload_timeTaken := form_timeTaken f;
     payload_priority := form_priority f;
     payload_status := form_status f;
     payload_notes :=
       if (trim (form_notes f) =? EmptyString)%string then None
       else Some (trim (form_notes f)) |}.

(** The titles of the store, compared the way the form compares them. *)
Definition titleKeys (l : list Task) : list string :=
  map (fun t => toLowerCase (title t)) l.
End TaskForm.

Module SampleForm.
(** [trim] and [toLowerCase] on strings of ASCII characters. *)
Definition isSpace (c : ascii) : bool :=
  let n := nat_of_ascii c in
  (n =? 32)%nat || ((9 <=? n)%nat && (n <=? 13)%nat).

Fixpoint trimStart (s : string) : string :=
  match s with
  | EmptyString => EmptyString
  | String c s' => if isSpace c then trimStart s' else s
  end.

Fixpoint trimEnd (s : string) : string :=
  match s with
  | EmptyString => EmptyString
  | String c s' =>
      let r := trimEnd s' in
      if isSpace c && (r =? EmptyString)%string then EmptyString
      else String c r
  end.

Definition trim (s : string) : string := trimEnd (trimStart s).

Definition lowerChar (c : ascii) : ascii :=
  let n := nat_of_ascii c in
  if (65 <=? n)%nat && (n <=? 90)%nat then ascii_of_nat (n + 32) else c.

Fixpoint toLowerCase (s : string) : string :=
  match s with
  | EmptyString => EmptyString
  | String c s' => String (lowerChar c) (toLowerCase s')
  end.

Definition entered : FormState :=
  mkForm "  Gamma " 90 3 Low Todo " ".
End SampleForm.

(** ** Cohort revenue ([@/utils/logic]) *)

Definition bar : ascii := "|"%char.

(** [s.split('|')]: the pieces of [s] between the bars. *)
Fixpoint split_bar (s : string) : list string :=
  match s with
  | EmptyString => [EmptyString]
  | String c s' =>
      if Ascii.eqb c bar then EmptyString :: split_bar s'
      else match split_bar s' with
           | p :: ps => String c p :: ps
           | [] => [String c EmptyString]
           end
  end.

(** An entry of the result.  The priority is the second piece of the key,
    [undefined] ([None]) if the key has no bar. *)
Record CohortEntry := mkCohort {
  cohort_week : string;
  cohort_priority : option string;
  cohort_revenue : float
}.

Section Cohort.
Variable localeCompare : string -> string -> Z.
Variable Date_parse : string -> option Z.

(** The template
    [`${d.getUTCFullYear()}-W${getWeekNumber(d)}|${t.priority}`]. *)
Definition cohortKey (t : Task) : string :=
  (weekKey (JSDate.newDate Date_parse (createdAt t)) ++ "|"
     ++ Priority_name (priority t))%string.

Definition addToCohort (m : MapOf float) (t : Task) : MapOf float :=
  let key := cohortKey t in
  Map_set key (orElse (Map_get key m) 0 + revenue t)%float m.

Definition computeCohortRevenue (tasks : list Task) : list CohortEntry :=
  let map := fold_left addToCohort tasks [] in
  Array_sort
    (fun a b => localeCompare (cohort_week a) (cohort_week b))
    (List.map
       (fun e =>
          let parts := split_bar (fst e) in
          {| cohort_week := nth 0 parts EmptyString;
             cohort_priority := nth_error parts 1;
             cohort_revenue := snd e |})
       map).

(** [t] was created in the week labelled [w] and has the priority [p]. *)
Definition inCohort (w : string) (p : Priority) (t : Task) : bool :=
  (weekKey (JSDate.newDate Date_parse (createdAt t)) =? w)%string
  && Priority_eqb (priority t) p.
End Cohort.

(** One more revenue in a cohort that may not exist yet. *)
Definition credit (acc : option float) (t : Task) : option float :=
  Some (orElse acc 0 + revenue t)%float.

Fixpoint hasBar (s : string) : bool :=
  match s with
  | EmptyString => false
  | String c s' => Ascii.eqb c bar || hasBar s'
  end.

Module SampleCohort.
Definition late : Task :=
  mkTask "5" "Audit" 5 1 High Todo None "2024-03-06T09:30:00.000Z" None.
(** Two tasks of one cohort, and one created weeks later. *)
Definition board : list Task := [SampleFunnel.ip; late; SampleFunnel.d1].
End SampleCohort.

(** ** The sign of a binary64 value *)

(** [x] is a zero, or a number or an infinity with the sign bit [s]. *)
Definition zero_or_signed (s : bool) (x : spec_float) : bool :=
  match x with
  | S754_zero _ => true
  | S754_infinity s' | S754_finite s' _ _ => Bool.eqb s' s
  | S754_nan => false
  end.


(** ** Weighted pipeline ([@/utils/logic]) *)

(** The table [weights] of [computeWeightedPipeline]. *)
Definition weights (st : Status) : float :=
  match st with
  | Todo => 0.1
  | InProgress => 0.5
  | Done => 1
  end.

Definition computeWeightedPipeline (tasks : list Task) : float :=
  fold_left (fun s t => (s + revenue t * weights (status t))%float)
    tasks 0%float.

(** ** Rounding to nearest *)

(** The mantissa and the exponent of the number that a positive integer
    below 2^53 is. *)
Definition mant (z : Z) : Z := z * 2 ^ (53 - Zdigits2 z).
Definition expo (z : Z) : Z := Zdigits2 z - 53.

(** Where the fraction [num / den] lies between its integer part [m] and
    [m + 1]: on [m], below the middle, on it, or above it. *)
Definition location_of (num den : Z) : location :=
  if num mod den =? 0 then loc_Exact
  else loc_Inexact (2 * (num mod den) ?= den).

(** The record [mrs] holds the integer part of [num / den] and the
    location of the fraction. *)
Definition located (num den : Z) (mrs : shr_record) : Prop :=
  0 < den /\ 0 <= num /\ shr_m mrs = num / den
  /\ loc_of_shr_record mrs = location_of num den.

(** * Properties *)

(** ** Binary64 comparisons and subtraction *)

Lemma digits2_size p : digits2_pos p = Pos.size p.
Proof. induction p; simpl; congruence. Qed.

Lemma digits2_bounds p :
  2 ^ (Zpos (digits2_pos p) - 1) <= Zpos p < 2 ^ Zpos (digits2_pos p).
Proof.
  rewrite digits2_size.
  pose proof (Pos.size_gt p) as Hgt.
  pose proof (Pos.size_le p) as Hle.
  apply Pos2Z.pos_lt_pos in Hgt. apply Pos2Z.pos_le_pos in Hle.
  rewrite Pos2Z.inj_pow in Hgt, Hle.
  split; [|exact Hgt].
  replace (Z.pos (Pos.size p)) with (Z.succ (Z.pos (Pos.size p) - 1)) in Hle
    by lia.
  rewrite Z.pow_succ_r in Hle by lia.
  change (Z.pos p~0) with (2 * Z.pos p) in Hle. lia.
Qed.

Lemma iter_xO m d : Zpos (Pos.iter xO m d) = Zpos m * 2 ^ Zpos d.
Proof.
  induction d as [|d IH] using Pos.peano_ind.
  - simpl. lia.
  - rewrite Pos.iter_succ, Pos2Z.inj_succ, Z.pow_succ_r by lia.
    change (Z.pos (Pos.iter xO m d)~0) with (2 * Z.pos (Pos.iter xO m d)).
    rewrite IH. lia.
Qed.

Lemma shl_align_fst mx ex ez :
  ez <= ex -> Zpos (fst (shl_align mx ex ez)) = Zpos mx * 2 ^ (ex - ez).
Proof.
  intros H. unfold shl_align.
  destruct (ez - ex) as [|d|d] eqn:E.
  - replace (ex - ez) with 0 by lia. simpl. lia.
  - lia.
  - cbn [fst]. rewrite iter_xO.
    replace (ex - ez) with (Zpos d) by lia. reflexivity.
Qed.

Lemma bounded_facts m e :
  bounded prec emax m e = true ->
  -1074 <= e /\ Zpos (digits2_pos m) <= 53
  /\ (-1074 < e -> Zpos (digits2_pos m) = 53).
Proof.
  unfold bounded, canonical_mantissa, fexp, SpecFloat.emin, prec, emax.
  intros H. apply andb_prop in H. destruct H as [H _].
  apply Z.eqb_eq in H. lia.
Qed.

Lemma mant_lt_of_exp_lt m1 e1 m2 e2 :
  bounded prec emax m1 e1 = true -> bounded prec emax m2 e2 = true ->
  e1 < e2 -> Zpos m1 < Zpos m2 * 2 ^ (e2 - e1).
Proof.
  intros B1 B2 H.
  destruct (bounded_facts _ _ B1) as (L1 & D1 & _).
  destruct (bounded_facts _ _ B2) as (L2 & _ & N2).
  specialize (N2 ltac:(lia)).
  pose proof (digits2_bounds m1) as [_ U1].
  pose proof (digits2_bounds m2) as [Lo2 _].
  rewrite N2 in Lo2.
  assert (U : Zpos m1 < 2 ^ 53).
  { eapply Z.lt_le_trans; [exact U1|]. apply Z.pow_le_mono_r; lia. }
  assert (G : 2 ^ 1 <= 2 ^ (e2 - e1)) by (apply Z.pow_le_mono_r; lia).
  change (2 ^ 53) with (2 * 2 ^ (53 - 1)) in U.
  change (2 ^ 1) with 2 in G.
  nia.
Qed.

Lemma SFcompare_finite s1 m1 e1 s2 m2 e2 :
  bounded prec emax m1 e1 = true -> bounded prec emax m2 e2 = true ->
  let ez := Z.min e1 e2 in
  SFcompare (S754_finite s1 m1 e1) (S754_finite s2 m2 e2) =
  Some (scaled s1 m1 e1 ez ?= scaled s2 m2 e2 ez).
Proof.
  intros B1 B2 ez. unfold scaled, SFcompare.
  assert (P1 : 0 < Zpos m1 * 2 ^ (e1 - ez)).
  { apply Z.mul_pos_pos; [lia|]. apply Z.pow_pos_nonneg; lia. }
  assert (P2 : 0 < Zpos m2 * 2 ^ (e2 - ez)).
  { apply Z.mul_pos_pos; [lia|]. apply Z.pow_pos_nonneg; lia. }
  assert (C : (Zpos m1 * 2 ^ (e1 - ez) ?= Zpos m2 * 2 ^ (e2 - ez)) =
              match e1 ?= e2 with
              | Lt => Lt | Gt => Gt | Eq => Pos.compare_cont Eq m1 m2 end).
  { destruct (Z.compare_spec e1 e2) as [E|E|E].
    - subst e2. unfold ez. rewrite Z.min_id, Z.sub_diag. simpl.
      rewrite !Pos.mul_1_r. reflexivity.
    - unfold ez. rewrite Z.min_l by lia. rewrite Z.sub_diag, Z.mul_1_r.
      apply Z.compare_lt_iff. now apply mant_lt_of_exp_lt.
    - unfold ez. rewrite Z.min_r by lia. rewrite Z.sub_diag, Z.mul_1_r.
      apply Z.compare_gt_iff. now apply mant_lt_of_exp_lt. }
  f_equal. destruct s1, s2; cbn [cond_Zopp].
  - rewrite Z.compare_opp, (Z.compare_antisym (Zpos m1 * 2 ^ (e1 - ez))), C.
    destruct (e1 ?= e2); reflexivity.
  - symmetry. apply Z.compare_lt_iff. lia.
  - symmetry. apply Z.compare_gt_iff. lia.
  - rewrite C. reflexivity.
Qed.

(** Rounding keeps the sign: a nonzero integer at an exponent of at
    least [emin] does not round to zero. *)

Lemma shr_1_m mrs : 0 <= shr_m mrs -> shr_m (shr_1 mrs) = shr_m mrs / 2.
Proof.
  destruct mrs as [m r s]. simpl. intros H.
  destruct m as [|p|p]; [reflexivity| |lia].
  destruct p as [p|p|]; simpl.
  - rewrite Pos2Z.inj_xI.
    apply (Z.div_unique_pos _ _ _ 1); lia.
  - rewrite Pos2Z.inj_xO.
    apply (Z.div_unique_pos _ _ _ 0); lia.
  - reflexivity.
Qed.

Lemma pow2_xO n : 2 ^ Zpos n~0 = 2 ^ Zpos n * 2 ^ Zpos n.
Proof.
  replace (Zpos n~0) with (Zpos n + Zpos n) by lia.
  apply Z.pow_add_r; lia.
Qed.

Lemma pow2_xI n : 2 ^ Zpos n~1 = 2 * (2 ^ Zpos n * 2 ^ Zpos n).
Proof.
  replace (Zpos n~1) with (1 + (Zpos n + Zpos n)) by lia.
  rewrite Z.pow_add_r by lia. rewrite (Z.pow_add_r 2 (Zpos n)) by lia.
  reflexivity.
Qed.

Lemma iter_shr_1_m n mrs :
  0 <= shr_m mrs ->
  shr_m (iter_pos shr_1 n mrs) = shr_m mrs / 2 ^ Zpos n.
Proof.
  revert mrs. induction n as [n IH|n IH|]; intros mrs H; simpl iter_pos.
  - assert (H1 : 0 <= shr_m (shr_1 mrs)).
    { rewrite shr_1_m by exact H. apply Z.div_pos; lia. }
    assert (H2 : 0 <= shr_m (iter_pos shr_1 n (shr_1 mrs))).
    { rewrite IH by exact H1. apply Z.div_pos; [exact H1|].
      apply Z.pow_pos_nonneg; lia. }
    rewrite IH by exact H2. rewrite IH by exact H1.
    rewrite shr_1_m by exact H.
    rewrite !Z.div_div by (try apply Z.pow_pos_nonneg; lia).
    f_equal. rewrite pow2_xI. lia.
  - assert (H2 : 0 <= shr_m (iter_pos shr_1 n mrs)).
    { rewrite IH by exact H. apply Z.div_pos; [exact H|].
      apply Z.pow_pos_nonneg; lia. }
    rewrite IH by exact H2. rewrite IH by exact H.
    rewrite !Z.div_div by (try apply Z.pow_pos_nonneg; lia).
    f_equal. rewrite pow2_xO. lia.
  - rewrite shr_1_m by exact H. reflexivity.
Qed.

Lemma shr_m_of_loc m l : shr_m (shr_record_of_loc m l) = m.
Proof. destruct l as [|[]]; reflexivity. Qed.

Lemma shr_fexp_pos m e l :
  0 < m -> -1074 <= e ->
  0 < shr_m (fst (shr_fexp prec emax m e l))
  /\ -1074 <= snd (shr_fexp prec emax m e l).
Proof.
  intros Hm He. unfold shr_fexp, shr.
  destruct m as [|p|p]; try lia.
  cbn [Zdigits2].
  pose proof (digits2_bounds p) as [Lo _].
  set (d := Zpos (digits2_pos p)) in *.
  assert (Hd : 0 < d) by (unfold d; lia).
  destruct (fexp prec emax (d + e) - e) as [|n|n] eqn:E; cbn [fst snd].
  - rewrite shr_m_of_loc. lia.
  - rewrite iter_shr_1_m by (rewrite shr_m_of_loc; lia).
    rewrite shr_m_of_loc.
    unfold fexp, SpecFloat.emin, prec, emax in E.
    split; [|lia].
    apply Z.div_str_pos. split; [apply Z.pow_pos_nonneg; lia|].
    eapply Z.le_trans; [|exact Lo].
    apply Z.pow_le_mono_r; lia.
  - rewrite shr_m_of_loc. lia.
Qed.

Lemma round_nearest_even_pos m l : 0 < m -> 0 < round_nearest_even m l.
Proof.
  intros H. unfold round_nearest_even.
  destruct l as [|[]]; try lia. destruct (Z.even m); lia.
Qed.

Lemma binary_round_aux_signed s m e l :
  0 < m -> -1074 <= e -> signed s (binary_round_aux prec emax s m e l).
Proof.
  intros Hm He. unfold binary_round_aux.
  pose proof (shr_fexp_pos m e l Hm He) as [P1 E1].
  destruct (shr_fexp prec emax m e l) as [mrs' e']. cbn [fst snd] in P1, E1.
  pose proof (round_nearest_even_pos _ (loc_of_shr_record mrs') P1) as P2.
  pose proof (shr_fexp_pos _ e' loc_Exact P2 E1) as [P3 _].
  destruct (shr_fexp prec emax _ e' loc_Exact) as [mrs'' e''].
  cbn [fst] in P3.
  destruct (shr_m mrs'') as [|q|q]; try lia.
  destruct (e'' <=? emax - prec); reflexivity.
Qed.

Lemma binary_round_signed s m e :
  -1074 <= e -> signed s (binary_round prec emax s m e).
Proof.
  intros He. unfold binary_round.
  destruct (shl_align m e _) as [mz ez] eqn:E.
  apply binary_round_aux_signed; [lia|].
  unfold shl_align in E.
  destruct (fexp prec emax (Z.pos (digits2_pos m) + e) - e) eqn:E2;
    injection E as <- <-; try lia.
  unfold fexp, SpecFloat.emin, prec, emax. lia.
Qed.

Lemma signed_ltb_zero s r :
  signed s r ->
  SFltb r (S754_zero false) = s /\ SFltb (S754_zero false) r = negb s.
Proof.
  destruct r as [| s' | | s' m e]; simpl; try contradiction;
    intros ->; destruct s; split; reflexivity.
Qed.

(** The sign of a difference is the order of its operands. *)
Lemma SFsub_sign x y :
  valid_binary x = true -> valid_binary y = true ->
  not_nan x = true -> not_nan y = true ->
  SFltb (SF64sub x y) (S754_zero false) = SFltb x y
  /\ SFltb (S754_zero false) (SF64sub x y) = SFltb y x.
Proof.
  intros Vx Vy Nx Ny.
  destruct x as [sx|sx| |sx mx ex]; try discriminate;
  destruct y as [sy|sy| |sy my ey]; try discriminate;
  try (destruct sx, sy; split; reflexivity);
  try (destruct sx; split; reflexivity);
  try (destruct sy; split; reflexivity).
  unfold SF64sub, SFsub. simpl in Vx, Vy.
  destruct (bounded_facts _ _ Vx) as (Lx & _ & _).
  destruct (bounded_facts _ _ Vy) as (Ly & _ & _).
  set (ez := Z.min ex ey).
  rewrite !shl_align_fst by (unfold ez; lia).
  unfold SFltb at 2 4.
  rewrite (SFcompare_finite sx mx ex sy my ey Vx Vy).
  rewrite (SFcompare_finite sy my ey sx mx ex Vy Vx).
  rewrite (Z.min_comm ey ex). fold ez. unfold scaled.
  set (vx := cond_Zopp sx (Z.pos mx * 2 ^ (ex - ez))).
  set (vy := cond_Zopp sy (Z.pos my * 2 ^ (ey - ez))).
  unfold binary_normalize.
  destruct (Z.compare_spec vx vy) as [E|E|E].
  - replace (vx - vy) with 0 by lia.
    rewrite (proj2 (Z.compare_eq_iff vy vx)) by lia. split; reflexivity.
  - destruct (vx - vy) as [|p|p] eqn:D; try lia.
    rewrite (proj2 (Z.compare_gt_iff vy vx)) by lia.
    apply (signed_ltb_zero true). apply binary_round_signed.
    unfold ez; lia.
  - destruct (vx - vy) as [|p|p] eqn:D; try lia.
    rewrite (proj2 (Z.compare_lt_iff vy vx)) by lia.
    apply (signed_ltb_zero false). apply binary_round_signed.
    unfold ez; lia.
Qed.


Lemma SFcompare_ord x y :
  not_nan x = true -> not_nan y = true ->
  (SFcompare x y = Some Lt <-> lexlt (ord x) (ord y))
  /\ (SFcompare x y = Some Eq <-> ord x = ord y)
  /\ (SFcompare x y = Some Gt <-> lexlt (ord y) (ord x)).
Proof.
  intros Nx Ny.
  destruct x as [sx|sx| |sx mx ex]; try discriminate;
  destruct y as [sy|sy| |sy my ey]; try discriminate;
  try destruct sx; try destruct sy; cbn [SFcompare ord lexlt];
  try (repeat split; intros H; try discriminate; try reflexivity;
       try (injection H; intros; lia); lia).
  - destruct (Z.compare_spec ex ey) as [E|E|E];
    [change (Pos.compare_cont Eq mx my) with (Pos.compare mx my);
     destruct (Pos.compare_spec mx my) as [F|F|F]; cbn [CompOpp] | |];
    repeat split; intros H; try discriminate; try reflexivity;
      try (injection H; intros; lia); try lia;
      try (f_equal; [f_equal|]; lia).
  - destruct (Z.compare_spec ex ey) as [E|E|E];
    [change (Pos.compare_cont Eq mx my) with (Pos.compare mx my);
     destruct (Pos.compare_spec mx my) as [F|F|F] | |];
    repeat split; intros H; try discriminate; try reflexivity;
      try (injection H; intros; lia); try lia;
      try (f_equal; [f_equal|]; lia).
Qed.

(** The same facts on primitive floats. *)

Lemma SFcompare_refl x : not_nan x = true -> SFcompare x x = Some Eq.
Proof. intros N. now apply (SFcompare_ord x x N N). Qed.

Lemma is_nan_false x : is_nan x = false -> not_nan (Prim2SF x) = true.
Proof.
  unfold is_nan. rewrite eqb_spec. unfold SFeqb.
  destruct (Prim2SF x); try reflexivity. simpl. discriminate.
Qed.

Lemma ltb_ford x y :
  is_nan x = false -> is_nan y = false ->
  ((x <? y)%float = true <-> lexlt (ford x) (ford y)).
Proof.
  intros Nx Ny. apply is_nan_false in Nx, Ny.
  rewrite ltb_spec. unfold SFltb, ford.
  destruct (SFcompare_ord _ _ Nx Ny) as (L & E & G).
  rewrite <- L.
  destruct (SFcompare (Prim2SF x) (Prim2SF y)) as [[]|];
    split; intros H; try discriminate; reflexivity.
Qed.

Lemma eqb_ford x y :
  is_nan x = false -> is_nan y = false ->
  ((x =? y)%float = true <-> ford x = ford y).
Proof.
  intros Nx Ny. apply is_nan_false in Nx, Ny.
  rewrite eqb_spec. unfold SFeqb, ford.
  destruct (SFcompare_ord _ _ Nx Ny) as (L & E & G).
  rewrite <- E.
  destruct (SFcompare (Prim2SF x) (Prim2SF y)) as [[]|];
    split; intros H; try discriminate; reflexivity.
Qed.

Lemma sub_sign x y :
  is_nan x = false -> is_nan y = false ->
  ((x - y <? 0) = (x <? y))%float /\ ((0 <? x - y) = (y <? x))%float.
Proof.
  intros Nx Ny. apply is_nan_false in Nx, Ny.
  rewrite !ltb_spec, sub_spec.
  change (Prim2SF 0) with (S754_zero false).
  apply SFsub_sign; auto using Prim2SF_valid.
Qed.

(** ** [computeROI] never returns NaN *)

(** Rounding a non-negative integer never yields NaN. *)
Lemma shr_fexp_nonneg m e l :
  0 <= m -> 0 <= shr_m (fst (shr_fexp prec emax m e l)).
Proof.
  intros Hm. unfold shr_fexp, shr.
  destruct (fexp prec emax (Zdigits2 m + e) - e) as [|n|n]; cbn [fst];
    try (rewrite shr_m_of_loc; exact Hm).
  rewrite iter_shr_1_m by (rewrite shr_m_of_loc; exact Hm).
  rewrite shr_m_of_loc. apply Z.div_pos; [exact Hm|].
  apply Z.pow_pos_nonneg; lia.
Qed.

Lemma round_nearest_even_nonneg m l : 0 <= m -> 0 <= round_nearest_even m l.
Proof.
  intros H. unfold round_nearest_even.
  destruct l as [|[]]; try lia. destruct (Z.even m); lia.
Qed.

Lemma binary_round_aux_not_nan s m e l :
  0 <= m -> not_nan (binary_round_aux prec emax s m e l) = true.
Proof.
  intros Hm. unfold binary_round_aux.
  pose proof (shr_fexp_nonneg m e l Hm) as P1.
  destruct (shr_fexp prec emax m e l) as [mrs' e']. cbn [fst] in P1.
  pose proof (round_nearest_even_nonneg _ (loc_of_shr_record mrs') P1) as P2.
  pose proof (shr_fexp_nonneg _ e' loc_Exact P2) as P3.
  destruct (shr_fexp prec emax _ e' loc_Exact) as [mrs'' e''].
  cbn [fst] in P3.
  destruct (shr_m mrs'') as [|q|q]; try lia; try reflexivity.
  destruct (e'' <=? emax - prec); reflexivity.
Qed.

Lemma binary_round_not_nan s m e :
  not_nan (binary_round prec emax s m e) = true.
Proof.
  unfold binary_round. destruct (shl_align m e _) as [mz ez].
  apply binary_round_aux_not_nan. lia.
Qed.

Lemma binary_normalize_not_nan m e s :
  not_nan (binary_normalize prec emax m e s) = true.
Proof.
  destruct m; simpl; auto using binary_round_not_nan.
Qed.

Lemma SFdiv_finite_not_nan sx mx ex sy my ey :
  not_nan (SF64div (S754_finite sx mx ex) (S754_finite sy my ey)) = true.
Proof.
  unfold SF64div, SFdiv.
  destruct (SFdiv_core_binary prec emax (Z.pos mx) ex (Z.pos my) ey)
    as [[mz ez] lz] eqn:E.
  apply binary_round_aux_not_nan.
  unfold SFdiv_core_binary in E.
  set (m' := match _ - _ - _ with Z0 => _ | Zpos _ => _ | Zneg _ => _ end) in E.
  assert (Hm' : 0 <= m').
  { unfold m'. destruct (_ - _ - _); try lia.
    apply Z.shiftl_nonneg. lia. }
  pose proof (Z_div_mod m' (Zpos my) ltac:(lia)) as D.
  destruct (Z.div_eucl m' (Z.pos my)) as [q r].
  injection E as <- _ _. nia.
Qed.

Lemma not_nan_is_nan x : not_nan (Prim2SF x) = true -> is_nan x = false.
Proof.
  intros N. unfold is_nan. rewrite eqb_spec. unfold SFeqb.
  now rewrite (SFcompare_refl _ N).
Qed.

Lemma is_nan_opp x : is_nan x = false -> is_nan (- x) = false.
Proof.
  intros N. apply is_nan_false in N. apply not_nan_is_nan.
  rewrite opp_spec. destruct (Prim2SF x); try discriminate; reflexivity.
Qed.

Lemma is_nan_SF2Prim v : not_nan v = true -> is_nan (SF2Prim v) = false.
Proof.
  destruct v as [[]|[]| |s m e]; try discriminate; intros _;
    try reflexivity.
  unfold SF2Prim.
  assert (N : is_nan (Z.ldexp (of_uint63 (Uint63.of_Z (Z.pos m))) e) = false).
  { apply not_nan_is_nan. rewrite Z_ldexp_spec, of_uint63_spec.
    destruct (binary_normalize prec emax _ 0 false) eqn:B;
      try reflexivity.
    - pose proof (binary_normalize_not_nan
                    (Uint63.to_Z (Uint63.of_Z (Z.pos m))) 0 false) as H.
      rewrite B in H. discriminate.
    - simpl. apply binary_round_not_nan. }
  destruct s; [now apply is_nan_opp | exact N].
Qed.

Lemma isFinite_spec x :
  Num.isFinite x = true ->
  match Prim2SF x with
  | S754_zero _ | S754_finite _ _ _ => True
  | _ => False
  end.
Proof.
  unfold Num.isFinite. rewrite negb_true_iff, orb_false_iff.
  intros [N I]. apply is_nan_false in N.
  unfold is_infinity in I. rewrite eqb_spec, abs_spec in I.
  change (Prim2SF infinity) with (S754_infinity false) in I.
  destruct (Prim2SF x); try discriminate; exact Logic.I.
Qed.

Lemma div_not_nan r t :
  Num.isFinite r = true -> Num.isFinite t = true ->
  (t <=? 0)%float = false -> is_nan (r / t) = false.
Proof.
  intros Fr Ft Pt. apply isFinite_spec in Fr, Ft.
  rewrite leb_spec in Pt. change (Prim2SF 0) with (S754_zero false) in Pt.
  apply not_nan_is_nan. rewrite div_spec.
  destruct (Prim2SF t) as [| | |st mt et]; try contradiction;
    try discriminate.
  destruct (Prim2SF r) as [| | |sr mr er]; try contradiction.
  - reflexivity.
  - apply SFdiv_finite_not_nan.
Qed.

Lemma hundredths_not_nan n : is_nan (Num.hundredths n) = false.
Proof.
  destruct n; try reflexivity.
  apply is_nan_SF2Prim, SFdiv_finite_not_nan.
Qed.

Lemma toFixed2_not_nan x : is_nan x = false -> is_nan (Num.toFixed2 x) = false.
Proof.
  intros N. unfold Num.toFixed2.
  pose proof (is_nan_false x N) as N'.
  destruct (Prim2SF x) as [| | |s m e]; try discriminate; auto.
  destruct (1e21 <=? abs x)%float; [exact N|].
  destruct s; [apply is_nan_opp|]; apply hundredths_not_nan.
Qed.

(** [computeROI] never returns NaN. *)
Lemma computeROI_not_nan r t x :
  computeROI r t = Some x -> is_nan x = false.
Proof.
  unfold computeROI.
  destruct (Num.isFinite r) eqn:Fr; [|discriminate].
  destruct (Num.isFinite t) eqn:Ft; [|discriminate].
  destruct (t <=? 0)%float eqn:Pt; [discriminate|].
  cbn [negb orb]. intros [= <-].
  now apply toFixed2_not_nan, div_not_nan.
Qed.

Lemma withDerived_valid t : validROI (withDerived t) = true.
Proof.
  unfold validROI, roiKey, withDerived. cbn [roi].
  destruct (computeROI (revenue t) (timeTaken t)) as [x|] eqn:E.
  - cbn [orElse]. now rewrite (computeROI_not_nan _ _ _ E).
  - reflexivity.
Qed.

(** ** ROI *)

Lemma computeROI_null_iff (r t : float) :
  computeROI r t = None <->
  Num.isFinite r = false \/ Num.isFinite t = false \/ (t <=? 0)%float = true.
Proof.
  unfold computeROI.
  destruct (Num.isFinite r), (Num.isFinite t), (t <=? 0)%float; simpl;
    split; intros H; try discriminate; auto;
    destruct H as [H | [H | H]]; discriminate.
Qed.

Lemma computeROI_value (r t : float) :
  Num.isFinite r = true -> Num.isFinite t = true -> (t <=? 0)%float = false ->
  computeROI r t = Some (Num.toFixed2 (r / t)%float).
Proof.
  unfold computeROI. intros -> -> ->. reflexivity.
Qed.

Example computeROI_100_2 : computeROI 100 2 = Some 50%float.
Proof. vm_compute. reflexivity. Qed.

(** C1 (the code departs from the claim): both arguments are finite and
    the time is positive, yet the quotient overflows binary64 and
    [computeROI] returns Infinity, which the claim says it never does. *)
Theorem computeROI_returns_Infinity :
  Num.isFinite 1e308 = true /\ Num.isFinite 0.5 = true
  /\ (0.5 <=? 0)%float = false
  /\ computeROI 1e308 0.5 = Some infinity.
Proof. vm_compute. repeat split. Qed.

(** ** [Array.prototype.sort] *)

Section ArraySortFacts.
Context {A : Type}.
Variable cmp : A -> A -> Z.

Lemma insert_perm x l : Permutation (x :: l) (insert cmp x l).
Proof.
  induction l as [|y l IH]; simpl.
  - apply Permutation_refl.
  - destruct (0 <? cmp x y).
    + eapply perm_trans; [apply perm_swap | apply perm_skip, IH].
    + apply Permutation_refl.
Qed.

Lemma Array_sort_perm l : Permutation l (Array_sort cmp l).
Proof.
  induction l as [|x l IH]; simpl.
  - apply perm_nil.
  - eapply perm_trans; [apply perm_skip, IH | apply insert_perm].
Qed.

Lemma Array_sort_length l : List.length (Array_sort cmp l) = List.length l.
Proof. symmetry. apply Permutation_length, Array_sort_perm. Qed.

(** For a comparator that decides a total preorder [R] on the elements
    that satisfy [P]. *)
Variable P : A -> Prop.
Variable R : A -> A -> Prop.
Hypothesis cmp_R : forall a b, P a -> P b -> (cmp a b <= 0 <-> R a b).
Hypothesis R_total : forall a b, P a -> P b -> R a b \/ R b a.
Hypothesis R_trans :
  forall a b c, P a -> P b -> P c -> R a b -> R b c -> R a c.

Lemma insert_sorted x l :
  P x -> Forall P l -> StronglySorted R l ->
  StronglySorted R (insert cmp x l).
Proof.
  intros Px Pl Sl. induction l as [|y l IH]; simpl.
  - repeat constructor.
  - inversion Pl as [|? ? Py Pl']; subst.
    inversion Sl as [|? ? Sl' Hy]; subst.
    destruct (0 <? cmp x y) eqn:E.
    + apply Z.ltb_lt in E. constructor; [now apply IH|].
      eapply Permutation_Forall; [apply insert_perm|].
      constructor; [|exact Hy].
      destruct (R_total x y Px Py) as [H|H]; [|exact H].
      apply cmp_R in H; [lia | exact Px | exact Py].
    + apply Z.ltb_ge in E. apply cmp_R in E; [|exact Px|exact Py].
      constructor; [exact Sl|].
      constructor; [exact E|].
      rewrite Forall_forall in *. intros z Hz.
      apply (R_trans x y z); auto.
Qed.

Lemma Array_sort_Forall l : Forall P l -> Forall P (Array_sort cmp l).
Proof. apply Permutation_Forall, Array_sort_perm. Qed.

Lemma Array_sort_sorted l :
  Forall P l -> StronglySorted R (Array_sort cmp l).
Proof.
  induction l as [|x l IH]; simpl; intros Pl.
  - constructor.
  - inversion Pl; subst.
    apply insert_sorted; auto using Array_sort_Forall.
Qed.

Lemma Array_sort_fixed l :
  Forall P l -> StronglySorted R l -> Array_sort cmp l = l.
Proof.
  induction l as [|x l IH]; simpl; intros Pl Sl; [reflexivity|].
  inversion Pl as [|? ? Px Pl']; subst.
  inversion Sl as [|? ? Sl' Hx]; subst.
  rewrite IH by assumption.
  destruct l as [|y l]; simpl; [reflexivity|].
  inversion Hx as [|? ? Rxy _]; subst.
  inversion Pl' as [|? ? Py _]; subst.
  apply cmp_R in Rxy; [|exact Px|exact Py].
  now rewrite (proj2 (Z.ltb_ge 0 (cmp x y)) Rxy).
Qed.

Lemma Array_sort_idempotent l :
  Forall P l -> Array_sort cmp (Array_sort cmp l) = Array_sort cmp l.
Proof.
  intros Pl. apply Array_sort_fixed.
  - now apply Array_sort_Forall.
  - now apply Array_sort_sorted.
Qed.

End ArraySortFacts.

(** ** [sortTasks] *)

Lemma lexlt_trichotomy (a b : Z * Z * Z) : lexlt a b \/ a = b \/ lexlt b a.
Proof.
  destruct a as [[a1 a2] a3], b as [[b1 b2] b3]. unfold lexlt.
  destruct (Z.lt_trichotomy a1 b1) as [H|[H|H]]; [lia| |lia].
  destruct (Z.lt_trichotomy a2 b2) as [H2|[H2|H2]]; [lia| |lia].
  destruct (Z.lt_trichotomy a3 b3) as [H3|[H3|H3]]; [lia| |lia].
  right; left. congruence.
Qed.

Lemma lexlt_trans (a b c : Z * Z * Z) : lexlt a b -> lexlt b c -> lexlt a c.
Proof.
  destruct a as [[a1 a2] a3], b as [[b1 b2] b3], c as [[c1 c2] c3].
  unfold lexlt. lia.
Qed.

Lemma lexlt_irrefl (a : Z * Z * Z) : ~ lexlt a a.
Proof. destruct a as [[a1 a2] a3]. unfold lexlt. lia. Qed.

Section SortTasksFacts.
Variable localeCompare : string -> string -> Z.
Hypothesis localeCompare_antisym :
  forall a b, 0 < localeCompare a b -> localeCompare b a <= 0.
Hypothesis localeCompare_trans :
  forall a b c,
    localeCompare a b <= 0 -> localeCompare b c <= 0 ->
    localeCompare a c <= 0.

Let valid (d : DerivedTask) : Prop := validROI d = true.

(** The order of the specification, read on the images of the keys. *)
Let beforeK (a b : DerivedTask) : Prop :=
  lexlt (ford (roiKey b)) (ford (roiKey a))
  \/ (ford (roiKey a) = ford (roiKey b)
      /\ (priorityWeight b < priorityWeight a
          \/ (priorityWeight a = priorityWeight b
              /\ localeCompare (title (task a)) (title (task b)) <= 0))).

Lemma valid_not_nan d : valid d -> is_nan (roiKey d) = false.
Proof. unfold valid, validROI. now rewrite negb_true_iff. Qed.

Lemma before_beforeK a b :
  valid a -> valid b -> (before localeCompare a b <-> beforeK a b).
Proof.
  intros Va Vb. apply valid_not_nan in Va, Vb.
  unfold before, beforeK.
  rewrite (ltb_ford _ _ Vb Va), (eqb_ford _ _ Va Vb). reflexivity.
Qed.

(** The comparator of [sortTasks] decides the specified order. *)
Lemma compareTasks_before a b :
  valid a -> valid b ->
  (compareTasks localeCompare a b <= 0 <-> before localeCompare a b).
Proof.
  intros Va Vb. rewrite (before_beforeK a b Va Vb).
  apply valid_not_nan in Va, Vb.
  unfold compareTasks, beforeK. fold (roiKey a) (roiKey b).
  pose proof (eqb_ford _ _ Vb Va) as HE.
  pose proof (ltb_ford _ _ Vb Va) as HL.
  pose proof (ltb_ford _ _ Va Vb) as HG.
  destruct (sub_sign _ _ Vb Va) as [S1 S2].
  pose proof (lexlt_irrefl (ford (roiKey a))) as Irr.
  destruct (roiKey b =? roiKey a)%float eqn:E; cbn [negb].
  - assert (K : ford (roiKey b) = ford (roiKey a)) by now apply HE.
    rewrite K.
    destruct (Z.eqb_spec (priorityWeight b) (priorityWeight a)) as [W|W];
      cbn [negb].
    + split.
      * intros H. right. split; [reflexivity|]. right. split; [lia|exact H].
      * intros [H|[_ [H|[_ H]]]]; [contradiction | lia | exact H].
    + split.
      * intros H. right. split; [reflexivity|]. left. lia.
      * intros [H|[_ [H|[H _]]]]; [contradiction | lia | congruence].
  - assert (K : ford (roiKey b) <> ford (roiKey a)).
    { intros K. apply HE in K. congruence. }
    unfold Num.sgn. rewrite S1, S2.
    destruct (roiKey b <? roiKey a)%float eqn:L.
    + split; [intros _; left; now apply HL | lia].
    + destruct (roiKey a <? roiKey b)%float eqn:G.
      * split; [lia|].
        assert (G' : lexlt (ford (roiKey a)) (ford (roiKey b)))
          by now apply HG.
        intros [H|[H _]]; [|congruence].
        exfalso. apply Irr. eapply lexlt_trans; eassumption.
      * exfalso.
        destruct (lexlt_trichotomy (ford (roiKey b)) (ford (roiKey a)))
          as [H|[H|H]].
        -- apply HL in H. congruence.
        -- contradiction.
        -- apply HG in H. congruence.
Qed.

Lemma before_total a b :
  valid a -> valid b ->
  before localeCompare a b \/ before localeCompare b a.
Proof.
  intros Va Vb.
  rewrite (before_beforeK a b Va Vb), (before_beforeK b a Vb Va).
  unfold beforeK.
  destruct (lexlt_trichotomy (ford (roiKey a)) (ford (roiKey b)))
    as [H|[H|H]]; [right; left; exact H | | left; left; exact H].
  destruct (Z.lt_trichotomy (priorityWeight a) (priorityWeight b))
    as [W|[W|W]].
  - right. right. split; [congruence|]. left. exact W.
  - destruct (Z.le_gt_cases
                (localeCompare (title (task a)) (title (task b))) 0)
      as [L|L].
    + left. right. split; [exact H|]. right. split; assumption.
    + right. right. split; [congruence|]. right. split; [congruence|].
      apply localeCompare_antisym. lia.
  - left. right. split; [exact H|]. left. exact W.
Qed.

Lemma before_trans a b c :
  valid a -> valid b -> valid c ->
  before localeCompare a b -> before localeCompare b c ->
  before localeCompare a c.
Proof.
  intros Va Vb Vc.
  rewrite (before_beforeK a b Va Vb), (before_beforeK b c Vb Vc),
          (before_beforeK a c Va Vc).
  unfold beforeK.
  intros [H1|[E1 H1]] [H2|[E2 H2]].
  - left. eapply lexlt_trans; eassumption.
  - left. rewrite <- E2. exact H1.
  - left. rewrite E1. exact H2.
  - right. split; [congruence|].
    destruct H1 as [H1|[W1 L1]], H2 as [H2|[W2 L2]].
    + left. lia.
    + left. lia.
    + left. lia.
    + right. split; [lia|].
      eapply localeCompare_trans; eassumption.
Qed.

Lemma forallb_valid l : forallb validROI l = true -> Forall valid l.
Proof. rewrite forallb_forall, Forall_forall. auto. Qed.

(** [sortTasks] returns its input in the specified order. *)
Lemma sortTasks_sorted l :
  forallb validROI l = true ->
  StronglySorted (before localeCompare) (sortTasks localeCompare l).
Proof.
  intros V. unfold sortTasks.
  apply (Array_sort_sorted _ valid (before localeCompare)).
  - exact compareTasks_before.
  - exact before_total.
  - exact before_trans.
  - now apply forallb_valid.
Qed.

Lemma sortTasks_idempotent l :
  forallb validROI l = true ->
  sortTasks localeCompare (sortTasks localeCompare l)
  = sortTasks localeCompare l.
Proof.
  intros V. unfold sortTasks.
  apply (Array_sort_idempotent _ valid (before localeCompare)).
  - exact compareTasks_before.
  - exact before_total.
  - exact before_trans.
  - now apply forallb_valid.
Qed.

Lemma sortTasks_fixed l :
  forallb validROI l = true ->
  StronglySorted (before localeCompare) l ->
  sortTasks localeCompare l = l.
Proof.
  intros V S. unfold sortTasks.
  apply (Array_sort_fixed _ valid (before localeCompare)).
  - exact compareTasks_before.
  - now apply forallb_valid.
  - exact S.
Qed.

End SortTasksFacts.

(** [codeUnitCompare] is a comparator of the kind [sortTasks] needs. *)
Lemma codeUnitCompare_antisym a b :
  0 < codeUnitCompare a b -> codeUnitCompare b a <= 0.
Proof.
  unfold codeUnitCompare. rewrite (String.compare_antisym a b).
  destruct (String.compare b a); simpl; lia.
Qed.

Lemma String_compare_trans (a b c : string) :
  String.compare a b <> Gt -> String.compare b c <> Gt ->
  String.compare a c <> Gt.
Proof.
  revert b c. induction a as [|x a IH]; intros [|y b] [|z c]; simpl;
    try congruence.
  unfold Ascii.compare.
  destruct (N.compare_spec (N_of_ascii x) (N_of_ascii y)) as [E1|L1|G1];
    destruct (N.compare_spec (N_of_ascii y) (N_of_ascii z)) as [E2|L2|G2];
    destruct (N.compare_spec (N_of_ascii x) (N_of_ascii z)) as [E3|L3|G3];
    try congruence; try lia.
  apply IH.
Qed.

Lemma codeUnitCompare_trans a b c :
  codeUnitCompare a b <= 0 -> codeUnitCompare b c <= 0 ->
  codeUnitCompare a c <= 0.
Proof.
  unfold codeUnitCompare. intros H1 H2.
  pose proof (String_compare_trans a b c) as T.
  destruct (String.compare a b); try lia;
    destruct (String.compare b c); try lia;
    destruct (String.compare a c); try lia;
    exfalso; apply T; congruence.
Qed.

(** The ranked view of the store, [sortTasks(tasks.map(withDerived))],
    needs no assumption on the tasks: it is in the specified order. *)
Lemma derivedSorted_sorted
    (localeCompare : string -> string -> Z)
    (localeCompare_antisym :
       forall a b, 0 < localeCompare a b -> localeCompare b a <= 0)
    (localeCompare_trans :
       forall a b c, localeCompare a b <= 0 -> localeCompare b c <= 0 ->
                     localeCompare a c <= 0)
    (l : list Task) :
  StronglySorted (before localeCompare)
    (sortTasks localeCompare (map withDerived l)).
Proof.
  apply sortTasks_sorted; auto.
  apply forallb_forall. intros d Hd. apply in_map_iff in Hd.
  destruct Hd as (t & <- & _). apply withDerived_valid.
Qed.

(** [[...tasks].sort(...)] works on a copy. *)
Lemma write_last {A} (h : @Heap.heap A) (v w : list A) :
  Heap.write (h ++ [v]) (List.length h) w = h ++ [w].
Proof. induction h as [|x h IH]; simpl; [reflexivity | now rewrite IH]. Qed.

Lemma sortTasks_heap_copy localeCompare (h : Heap.heap) (r : nat) :
  (r < List.length h)%nat ->
  let h' := fst (sortTasks_heap localeCompare h r) in
  let r' := snd (sortTasks_heap localeCompare h r) in
  r' <> r
  /\ Heap.read h' r' = sortTasks localeCompare (Heap.read h r)
  /\ (forall q, (q < List.length h)%nat -> Heap.read h' q = Heap.read h q).
Proof.
  intros Hr. unfold sortTasks_heap, Heap.alloc. cbn [fst snd].
  assert (E : Heap.read (h ++ [Heap.read h r]) (List.length h)
              = Heap.read h r).
  { unfold Heap.read at 1. apply nth_middle. }
  rewrite E, write_last.
  split; [lia|]. split.
  - unfold Heap.read at 1. now rewrite nth_middle.
  - intros q Hq. unfold Heap.read. now apply app_nth1.
Qed.

(** C2: for every list of derived tasks (their ROI null or a number
    other than NaN, as [withDerived] computes it), [sortTasks] returns a
    permutation of the input, of the same length,
    in the specified order: descending by [roi] with null as -1, then
    descending by [priorityWeight], then ascending by title; sorting a
    list that is already in that order returns it as it is, so sorting
    twice is sorting once; and the input array is left as it was, the
    result being a fresh array. *)
Theorem sortTasks_correct
    (localeCompare : string -> string -> Z)
    (localeCompare_antisym :
       forall a b, 0 < localeCompare a b -> localeCompare b a <= 0)
    (localeCompare_trans :
       forall a b c, localeCompare a b <= 0 -> localeCompare b c <= 0 ->
                     localeCompare a c <= 0)
    (l : list DerivedTask) :
  forallb validROI l = true ->
  Permutation l (sortTasks localeCompare l)
  /\ List.length (sortTasks localeCompare l) = List.length l
  /\ StronglySorted (before localeCompare) (sortTasks localeCompare l)
  /\ (StronglySorted (before localeCompare) l ->
      sortTasks localeCompare l = l)
  /\ sortTasks localeCompare (sortTasks localeCompare l)
     = sortTasks localeCompare l
  /\ (forall (h : Heap.heap) (r : nat),
        (r < List.length h)%nat -> Heap.read h r = l ->
        let h' := fst (sortTasks_heap localeCompare h r) in
        let r' := snd (sortTasks_heap localeCompare h r) in
        Heap.read h' r = l /\ r' <> r
        /\ Heap.read h' r' = sortTasks localeCompare l).
Proof.
  intros V.
  split; [apply Array_sort_perm|].
  split; [apply Array_sort_length|].
  split; [now apply sortTasks_sorted|].
  split; [now apply sortTasks_fixed|].
  split; [now apply sortTasks_idempotent|].
  intros h r Hr Hl.
  destruct (sortTasks_heap_copy localeCompare h r Hr) as (Fresh & Res & Old).
  rewrite <- Hl. repeat split.
  - now apply Old.
  - exact Fresh.
  - exact Res.
Qed.

Lemma sortTasks_correct_witness :
  StronglySorted (before codeUnitCompare)
    (sortTasks codeUnitCompare SampleSort.derived)
  /\ map (fun d => title (task d))
       (sortTasks codeUnitCompare SampleSort.derived)
     = ["Gamma"; "Alpha"; "Beta"; "Delta"].
Proof.
  split.
  - apply (sortTasks_correct codeUnitCompare codeUnitCompare_antisym
             codeUnitCompare_trans SampleSort.derived).
    vm_compute. reflexivity.
  - vm_compute. reflexivity.
Defined.

(** ** Funnel *)

Lemma ratio_nonneg (a b : nat) : (0 <= ratio a b)%Q.
Proof.
  unfold ratio. destruct b as [|b].
  - simpl. unfold Qdiv, Qinv; simpl. rewrite Qmult_0_r. apply Qle_refl.
  - apply Qle_shift_div_l.
    + unfold Qlt; simpl. lia.
    + rewrite Qmult_0_l. unfold Qle; simpl. lia.
Qed.

Lemma ratio_le_1 (a b : nat) : (a <= b)%nat -> (ratio a b <= 1)%Q.
Proof.
  intros H. unfold ratio. destruct b as [|b].
  - assert (a = 0%nat) as -> by lia. unfold Qle; simpl. lia.
  - apply Qle_shift_div_r.
    + unfold Qlt; simpl. lia.
    + rewrite Qmult_1_l. rewrite <- Zle_Qle. lia.
Qed.

Lemma ratio_gt_1 (a b : nat) : (0 < b < a)%nat -> (1 < ratio a b)%Q.
Proof.
  intros H. unfold ratio.
  apply Qlt_shift_div_l.
  - unfold Qlt; simpl. lia.
  - rewrite Qmult_1_l. rewrite <- Zlt_Qlt. lia.
Qed.

(** The three counts cover the list: [base] is the number of tasks. *)
Lemma countStatus_total (l : list Task) :
  (countStatus Todo l + countStatus InProgress l + countStatus Done l)%nat
  = List.length l.
Proof.
  unfold countStatus. induction l as [|t l IH]; simpl; [reflexivity|].
  destruct (status t); simpl; lia.
Qed.

(** C3 (as amended): the first ratio, (In Progress + Done) / total, lies
    within [0, 1]; the second, Done / In Progress, is never negative, and
    is at most 1 exactly when there are no more Done tasks than tasks In
    Progress or none In Progress; each ratio is 0 when its denominator
    is 0. *)
Theorem computeFunnel_ratios (l : list Task) :
  let f := computeFunnel l in
  (todo f + inProgress f + done f)%nat = List.length l
  /\ (0 <= conversionTodoToInProgress f <= 1)%Q
  /\ (0 <= conversionInProgressToDone f)%Q
  /\ ((conversionInProgressToDone f <= 1)%Q <->
      inProgress f = 0%nat \/ (done f <= inProgress f)%nat)
  /\ (List.length l = 0%nat -> conversionTodoToInProgress f = 0%Q)
  /\ (inProgress f = 0%nat -> conversionInProgressToDone f = 0%Q).
Proof.
  unfold computeFunnel; simpl.
  set (a := countStatus Todo l).
  set (b := countStatus InProgress l).
  set (c := countStatus Done l).
  assert (Htot : (a + b + c)%nat = List.length l)
    by apply countStatus_total.
  split; [exact Htot|].
  split.
  { destruct (a + b + c =? 0)%nat.
    - split; unfold Qle; simpl; lia.
    - split; [apply ratio_nonneg | apply ratio_le_1; lia]. }
  split.
  { destruct (b =? 0)%nat; [apply Qle_refl | apply ratio_nonneg]. }
  split.
  { destruct (Nat.eqb_spec b 0) as [E|E].
    - split; [auto | intros _; unfold Qle; simpl; lia].
    - split.
      + intros H. right.
        destruct (Nat.le_gt_cases c b) as [Hle|Hgt]; [exact Hle|].
        exfalso. apply (Qlt_not_le 1 (ratio c b)); [|exact H].
        apply ratio_gt_1. lia.
      + intros [H|H]; [contradiction | now apply ratio_le_1]. }
  split.
  - intros H. rewrite Htot, H. reflexivity.
  - intros ->. reflexivity.
Qed.

Lemma computeFunnel_ratios_witness :
  conversionInProgressToDone (computeFunnel [Sample.A]) = 0%Q.
Proof.
  apply (proj2 (proj2 (proj2 (proj2 (proj2
           (computeFunnel_ratios [Sample.A])))))).
  reflexivity.
Defined.

(** C3 (the claim as stated fails): with one task In Progress and two
    Done, Done / In Progress is 2, outside [0, 1]. *)
Lemma computeFunnel_ratio_above_one :
  let f := computeFunnel SampleFunnel.board in
  inProgress f = 1%nat /\ done f = 2%nat
  /\ (conversionInProgressToDone f == 2)%Q
  /\ ~ (conversionInProgressToDone f <= 1)%Q.
Proof.
  vm_compute. repeat split; try discriminate.
  intros H. apply H. reflexivity.
Qed.

(** ** Velocity by priority *)

Section VelocityFacts.
Variable Date_parse : string -> option Z.

Let days (t : Task) : option Z :=
  match completedAt t with
  | Some c => Num.toZ (daysBetween Date_parse (createdAt t) c)
  | None => None
  end.

(** The [forEach] with [push] collects, for each priority, the day
    counts of its completed tasks, in the order of the list. *)
Lemma groupTasks_fold (l : list Task) (g : Groups) (p : Priority) :
  fold_left
    (fun g t =>
       match completedAt t with
       | Some c =>
           if truthy (completedAt t)
           then push g (priority t)
                  (Num.toZ (daysBetween Date_parse (createdAt t) c))
           else g
       | None => g
       end) l g p
  = g p ++ map days (filter (completedIn p) l).
Proof.
  revert g. induction l as [|t l IH]; intros g; simpl.
  - now rewrite app_nil_r.
  - rewrite IH. unfold completedIn, days.
    destruct (completedAt t) as [c|] eqn:C; simpl.
    + destruct (negb (c =? "")%string); simpl.
      * unfold push.
        destruct (Priority_eqb (priority t) p) eqn:E.
        -- assert (E' : Priority_eqb p (priority t) = true)
             by (destruct p, (priority t); auto).
           rewrite E'. simpl. rewrite C. now rewrite <- app_assoc.
        -- assert (E' : Priority_eqb p (priority t) = false)
             by (destruct p, (priority t); auto).
           now rewrite E'.
      * reflexivity.
    + reflexivity.
Qed.

Lemma groupTasks_filter (l : list Task) (p : Priority) :
  groupTasks Date_parse l p = map days (filter (completedIn p) l).
Proof. unfold groupTasks. now rewrite groupTasks_fold. Qed.

Lemma days_of_daysOf (l : list Task) (ds : list Z) (p : Priority) :
  Forall2 (daysOf Date_parse) (filter (completedIn p) l) ds ->
  map days (filter (completedIn p) l) = map Some ds.
Proof.
  generalize (filter (completedIn p) l). intros ts H.
  induction H as [|t d ts ds (c & C & D) _ IH]; simpl; [reflexivity|].
  rewrite IH. f_equal. unfold days. now rewrite C, D.
Qed.

(** A task of the group whose day count is NaN leaves a NaN in the
    array. *)
Lemma days_NaN (l : list Task) (p : Priority) (t : Task) :
  In t (filter (completedIn p) l) ->
  (forall d, ~ daysOf Date_parse t d) ->
  In None (map days (filter (completedIn p) l)).
Proof.
  intros Ht N. apply in_map_iff. exists t. split; [|exact Ht].
  unfold days. destruct (completedAt t) as [c|] eqn:C; [|reflexivity].
  destruct (Num.toZ (daysBetween Date_parse (createdAt t) c)) as [d|] eqn:D;
    [|reflexivity].
  exfalso. apply (N d). exists c. now split.
Qed.

End VelocityFacts.

(** Sorting numbers none of which is NaN. *)
Lemma insert_map_Some (x : Z) (l : list Z) :
  insert compareNumbers (Some x) (map Some l)
  = map Some (insert (fun a b => Z.sgn (a - b)) x l).
Proof.
  induction l as [|y l IH]; simpl; [reflexivity|].
  destruct (0 <? Z.sgn (x - y)); simpl; [now rewrite IH | reflexivity].
Qed.

Lemma Array_sort_map_Some (l : list Z) :
  Array_sort compareNumbers (map Some l)
  = map Some (Array_sort (fun a b => Z.sgn (a - b)) l).
Proof.
  induction l as [|x l IH]; simpl; [reflexivity|].
  now rewrite IH, insert_map_Some.
Qed.

Lemma Array_sort_ascending (l : list Z) :
  StronglySorted Z.le (Array_sort (fun a b => Z.sgn (a - b)) l).
Proof.
  apply (Array_sort_sorted _ (fun _ => True) Z.le).
  - intros a b _ _. lia.
  - intros a b _ _. lia.
  - intros a b c _ _ _. lia.
  - rewrite Forall_forall. auto.
Qed.

Lemma sumNumbers_fold (l : list Z) (acc : Z) :
  fold_left
    (fun s v =>
       match s, v with
       | Some x, Some y => Some (x + y)
       | _, _ => None
       end) (map Some l) (Some acc)
  = Some (acc + sumZ l).
Proof.
  revert acc. induction l as [|x l IH]; intros acc; simpl.
  - f_equal. lia.
  - rewrite IH. f_equal. lia.
Qed.

Lemma sumNumbers_map_Some (l : list Z) :
  sumNumbers (map Some l) = Some (sumZ l).
Proof. unfold sumNumbers. now rewrite sumNumbers_fold. Qed.

Lemma sumZ_perm (l l' : list Z) : Permutation l l' -> sumZ l = sumZ l'.
Proof. induction 1; simpl; lia. Qed.

(** The element at index [floor(n / 2)] of an ascending list splits it
    in halves. *)
Lemma sorted_around (l1 l2 : list Z) (m : Z) :
  StronglySorted Z.le (l1 ++ m :: l2) ->
  Forall (fun x => x <= m) l1 /\ Forall (fun x => m <= x) l2.
Proof.
  induction l1 as [|a l1 IH]; simpl; intros S.
  - split; [constructor|]. now inversion S.
  - inversion S as [|? ? S' F]; subst. destruct (IH S') as [F1 F2].
    split; [|exact F2]. constructor; [|exact F1].
    rewrite Forall_forall in F. apply F. apply in_or_app. right. now left.
Qed.

Lemma filter_all {A} (f : A -> bool) (l : list A) :
  Forall (fun x => f x = true) l -> filter f l = l.
Proof.
  induction 1 as [|a l Ha _ IH]; simpl; [reflexivity|].
  now rewrite Ha, IH.
Qed.

Lemma upperMedian_splits (s : list Z) :
  StronglySorted Z.le s -> s <> [] -> splitsInHalves (upperMedian s) s.
Proof.
  intros Hs NE. unfold upperMedian.
  set (n := List.length s).
  assert (Hn : (0 < n)%nat).
  { unfold n. destruct s; [contradiction | simpl; lia]. }
  assert (Hi : (Nat.div n 2 < n)%nat) by (apply Nat.div_lt; lia).
  destruct (nth_split s 0 Hi) as (l1 & l2 & E & L1).
  set (m := nth (Nat.div n 2) s 0) in *.
  assert (Hlen : n = (List.length l1 + S (List.length l2))%nat).
  { unfold n. rewrite E at 1. rewrite length_app. reflexivity. }
  rewrite E in Hs. destruct (sorted_around _ _ _ Hs) as [F1 F2].
  pose proof (Nat.div_mod_eq n 2) as D.
  pose proof (Nat.mod_upper_bound n 2 ltac:(lia)) as B.
  unfold splitsInHalves, countLe, countGe. rewrite E.
  rewrite !filter_app, !length_app. cbn [filter].
  rewrite Z.leb_refl. cbn [List.length]. split.
  - rewrite (filter_all (fun x => x <=? m) l1).
    + lia.
    + eapply Forall_impl; [|exact F1]. intros a Ha. now apply Z.leb_le.
  - rewrite (filter_all (fun x => m <=? x) l2).
    + lia.
    + eapply Forall_impl; [|exact F2]. intros a Ha. now apply Z.leb_le.
Qed.

Lemma filter_length_perm {A} (f : A -> bool) (l l' : list A) :
  Permutation l l' ->
  List.length (filter f l) = List.length (filter f l').
Proof.
  induction 1 as [|x l l' _ IH|x y l|l l' l'' _ IH1 _ IH2]; simpl.
  - reflexivity.
  - destruct (f x); simpl; now rewrite IH.
  - destruct (f x), (f y); reflexivity.
  - now rewrite IH1.
Qed.

Lemma splitsInHalves_perm (m : Z) (l l' : list Z) :
  Permutation l l' -> splitsInHalves m l' -> splitsInHalves m l.
Proof.
  intros P [H1 H2]. unfold splitsInHalves, countLe, countGe in *.
  rewrite (Permutation_length P).
  rewrite (filter_length_perm (fun x => x <=? m) _ _ P).
  rewrite (filter_length_perm (fun x => m <=? x) _ _ P).
  auto.
Qed.

(** The day count is the quotient rounded to the nearest integer, and
    never negative. *)
Lemma wholeDays_rounds (a b : Z) :
  0 <= wholeDays a b
  /\ (a <= b ->
      2 * 86400000 * wholeDays a b - 86400000 <= 2 * (b - a)
      < 2 * 86400000 * wholeDays a b + 86400000).
Proof.
  unfold wholeDays, JSDate.round_div. split; [lia|]. intros H.
  Z.div_mod_to_equations. lia.
Qed.

(** ** Dates *)

Section DateFacts.
Import JSDate.

Lemma Day_midnight x : Day (x * msPerDay) = x.
Proof. unfold Day, msPerDay. now rewrite Z.div_mul. Qed.

Lemma TimeWithinDay_midnight x : TimeWithinDay (x * msPerDay) = 0.
Proof. unfold TimeWithinDay, msPerDay. now rewrite Z.mod_mul. Qed.

Lemma MonthFromTime_range t : 0 <= MonthFromTime t <= 11.
Proof.
  unfold MonthFromTime.
  repeat match goal with |- context [if ?b then _ else _] => destruct b end;
    lia.
Qed.

Lemma MakeDay_fields t dt :
  MakeDay (YearFromTime t) (MonthFromTime t) dt
  = Day t - DateFromTime t + dt.
Proof.
  pose proof (MonthFromTime_range t) as R.
  unfold MakeDay, DateFromTime, DayWithinYear, InLeapYear.
  rewrite (Z.div_small (MonthFromTime t) 12) by lia.
  rewrite (Z.mod_small (MonthFromTime t) 12) by lia.
  rewrite Z.add_0_r. lia.
Qed.

Lemma YearFromDay_lower d : -3 <= d -> 1968 <= YearFromDay d.
Proof.
  intros H. unfold YearFromDay.
  assert (-1 <= 400 * d / 146097) by (apply Z.div_le_lower_bound; lia).
  repeat match goal with |- context [if ?b then _ else _] => destruct b end;
    lia.
Qed.

Lemma TimeClip_valid t : Z.abs t <= maxTime -> TimeClip (Some t) = Some t.
Proof.
  intros H. unfold TimeClip.
  destruct (Z.leb_spec (Z.abs t) maxTime); [reflexivity | lia].
Qed.

Lemma UTC_modern y m dt :
  100 <= y ->
  UTC (Some y) (Some m) (Some dt) = TimeClip (Some (MakeDay y m dt * msPerDay)).
Proof.
  intros H. unfold UTC, MakeDate, MakeTime.
  destruct (Z.leb_spec y 99); [lia|]. rewrite andb_false_r.
  do 2 f_equal. lia.
Qed.

Lemma round_div_weeks k :
  round_div ((k - 3) * msPerDay) (7 * 24 * 3600 * 1000) = k / 7.
Proof.
  unfold round_div, msPerDay.
  replace (2 * ((k - 3) * 86400000) + 7 * 24 * 3600 * 1000)
    with ((2 * k + 1) * 86400000) by lia.
  replace (2 * (7 * 24 * 3600 * 1000)) with (14 * 86400000) by lia.
  rewrite Z.div_mul_cancel_r by lia.
  Z.div_mod_to_equations. lia.
Qed.

Lemma setUTCDate_midnight x dt :
  setUTCDate (Some (x * msPerDay)) (Some dt)
  = TimeClip (Some ((x - DateFromTime (x * msPerDay) + dt) * msPerDay)).
Proof.
  unfold setUTCDate.
  rewrite MakeDay_fields, Day_midnight, TimeWithinDay_midnight.
  unfold MakeDate. do 2 f_equal. lia.
Qed.

Lemma WeekDay_midnight t : WeekDay (Day t * msPerDay) = WeekDay t.
Proof. unfold WeekDay. now rewrite Day_midnight. Qed.

Lemma UTC_Jan4 y :
  100 <= y ->
  UTC (Some y) (Some 0) (Some 4)
  = TimeClip (Some ((DayFromYear y + 3) * msPerDay)).
Proof.
  intros H. rewrite (UTC_modern _ _ _ H). unfold MakeDay.
  change (0 / 12) with 0. change (0 mod 12) with 0. cbn [monthStart].
  rewrite !Z.add_0_r. do 2 f_equal. lia.
Qed.

Lemma YearFromDay_spec d :
  DayFromYear (YearFromDay d) <= d < DayFromYear (YearFromDay d + 1).
Proof.
  unfold YearFromDay.
  set (y := 1970 + 400 * d / 146097).
  destruct (Z.leb_spec (DayFromYear (y + 1)) d) as [H1|H1].
  - split; [exact H1|].
    unfold DayFromYear in *. unfold y in *.
    Z.div_mod_to_equations. lia.
  - destruct (Z.ltb_spec d (DayFromYear y)) as [H2|H2].
    + replace (y - 1 + 1) with y by lia. split; [|exact H2].
      unfold DayFromYear in *. unfold y in *.
      Z.div_mod_to_equations. lia.
    + split; assumption.
Qed.

Lemma thursdayOf_spec d :
  WeekDay (thursdayOf d) = 4
  /\ Day d - 3 <= Day (thursdayOf d) <= Day d + 3
  /\ (Day (thursdayOf d) + 3) / 7 = (Day d + 3) / 7.
Proof.
  unfold thursdayOf, WeekDay. rewrite Day_midnight.
  Z.div_mod_to_equations. lia.
Qed.

(** The first day of the year that holds day [d], for the days of valid
    dates from 1970 on: the last such year, 275760, starts on day
    99999744. *)
Lemma DayFromYear_of_valid_day d :
  0 <= d <= 100000000 -> 0 <= DayFromYear (YearFromDay d) <= 99999744.
Proof.
  intros H. pose proof (YearFromDay_spec d) as [L U].
  set (y := YearFromDay d) in *.
  unfold DayFromYear in *. Z.div_mod_to_equations. lia.
Qed.

Lemma getWeekNumber_iso d :
  0 <= d <= maxTime -> getWeekNumber (Some d) = Some (isoWeekNumber d).
Proof.
  intros Hd. unfold getWeekNumber, isoWeekNumber.
  cbn [getUTCFullYear getUTCMonth getUTCDate option_map].
  assert (HD : 0 <= Day d <= 100000000).
  { unfold Day, msPerDay, maxTime in *. Z.div_mod_to_equations. lia. }
  assert (HY : 100 <= YearFromTime d).
  { unfold YearFromTime. pose proof (YearFromDay_lower (Day d)). lia. }
  rewrite (UTC_modern _ _ _ HY), MakeDay_fields.
  replace (Day d - DateFromTime d + DateFromTime d) with (Day d) by lia.
  rewrite !TimeClip_valid
    by (unfold Day, msPerDay, maxTime in *; Z.div_mod_to_equations; lia).
  cbn [getUTCDay getUTCDate option_map lift2].
  rewrite WeekDay_midnight, setUTCDate_midnight.
  set (dayNr := (WeekDay d + 6) mod 7).
  assert (HN : 0 <= dayNr < 7) by (apply Z.mod_pos_bound; lia).
  replace (Day d - DateFromTime (Day d * msPerDay)
           + (DateFromTime (Day d * msPerDay) - dayNr + 3))
    with (Day d - dayNr + 3) by lia.
  unfold thursdayOf. fold dayNr.
  assert (HT : 0 <= Day d - dayNr + 3 <= 100000000).
  { unfold dayNr, WeekDay. Z.div_mod_to_equations. lia. }
  set (th := (Day d - dayNr + 3) * msPerDay).
  assert (Hth : Z.abs th <= maxTime)
    by (unfold th, msPerDay, maxTime; lia).
  rewrite (TimeClip_valid _ Hth).
  cbn [getUTCFullYear option_map].
  assert (HY1 : 100 <= YearFromTime th).
  { unfold YearFromTime, th. rewrite Day_midnight.
    pose proof (YearFromDay_lower (Day d - dayNr + 3)). lia. }
  rewrite (UTC_Jan4 _ HY1).
  assert (HJ : 0 <= DayFromYear (YearFromTime th) <= 99999744).
  { unfold YearFromTime, th. rewrite Day_midnight.
    now apply DayFromYear_of_valid_day. }
  rewrite !TimeClip_valid by (unfold msPerDay, maxTime; lia).
  cbn [lift2 option_map]. f_equal.
  replace (th - (DayFromYear (YearFromTime th) + 3) * msPerDay)
    with ((DayWithinYear th - 3) * msPerDay).
  - rewrite round_div_weeks. lia.
  - unfold DayWithinYear, th. rewrite Day_midnight. lia.
Qed.

Lemma DayWithinYear_range t :
  0 <= DayWithinYear t < DaysInYear (YearFromTime t).
Proof.
  unfold DayWithinYear, YearFromTime.
  pose proof (YearFromDay_spec (Day t)) as [L U].
  set (y := YearFromDay (Day t)) in *.
  assert (E : DayFromYear (y + 1) = DayFromYear y + DaysInYear y).
  { unfold DayFromYear, DaysInYear.
    repeat match goal with
           | |- context [if ?b then _ else _] => destruct b eqn:?
           end;
      rewrite ?negb_true_iff, ?negb_false_iff in *;
      rewrite ?Z.eqb_eq, ?Z.eqb_neq in *;
      Z.div_mod_to_equations; lia. }
  lia.
Qed.

End DateFacts.

(** ** Throughput by week *)

Section MapFacts.
Context {V : Type}.
Implicit Types (m : MapOf V) (k : string) (v : V).

Lemma Map_get_set k k' v m :
  Map_get k (Map_set k' v m) = if (k' =? k)%string then Some v else Map_get k m.
Proof.
  induction m as [|[k0 v0] m IH]; simpl.
  - reflexivity.
  - destruct (String.eqb_spec k0 k') as [E|E]; simpl.
    + subst k0. destruct (k' =? k)%string; reflexivity.
    + rewrite IH. destruct (String.eqb_spec k0 k) as [E2|E2];
        [|reflexivity].
      subst k0. destruct (String.eqb_spec k' k); [congruence|reflexivity].
Qed.

Lemma Map_get_In k m :
  In k (map fst m) <-> Map_get k m <> None.
Proof.
  induction m as [|[k0 v0] m IH]; simpl.
  - split; [intros [] | congruence].
  - destruct (String.eqb_spec k0 k) as [E|E].
    + split; [discriminate | auto].
    + rewrite <- IH. split; [intros [H|H]; [contradiction|exact H] | auto].
Qed.

Lemma Map_set_keys k' v m :
  map fst (Map_set k' v m)
  = if in_dec string_dec k' (map fst m) then map fst m else map fst m ++ [k'].
Proof.
  induction m as [|[k0 v0] m IH]; simpl; [reflexivity|].
  destruct (String.eqb_spec k0 k') as [E|E]; simpl.
  - subst k0. destruct (string_dec k' k'); [reflexivity|contradiction].
  - rewrite IH. destruct (string_dec k0 k'); [contradiction|].
    destruct (in_dec string_dec k' (map fst m)); reflexivity.
Qed.

Lemma Map_set_NoDup k' v m :
  NoDup (map fst m) -> NoDup (map fst (Map_set k' v m)).
Proof.
  intros H. rewrite Map_set_keys.
  destruct (in_dec string_dec k' (map fst m)) as [I|I]; [exact H|].
  apply NoDup_app; [exact H | repeat constructor; intros [] | ].
  intros a Ha [<-|[]]. contradiction.
Qed.

Lemma Map_get_entry k v m :
  NoDup (map fst m) -> In (k, v) m -> Map_get k m = Some v.
Proof.
  induction m as [|[k0 v0] m IH]; simpl; intros N H; [contradiction|].
  inversion N as [|? ? Nk Nm]; subst.
  destruct H as [H|H].
  - injection H as -> ->. now rewrite String.eqb_refl.
  - destruct (String.eqb_spec k0 k) as [E|E]; [|now apply IH].
    subst k0. exfalso. apply Nk. apply (in_map fst) in H. exact H.
Qed.

End MapFacts.

Section ThroughputFacts.
Variable localeCompare : string -> string -> Z.
Variable Date_parse : string -> option Z.
Hypothesis localeCompare_antisym :
  forall a b, 0 < localeCompare a b -> localeCompare b a <= 0.
Hypothesis localeCompare_trans :
  forall a b c,
    localeCompare a b <= 0 -> localeCompare b c <= 0 ->
    localeCompare a c <= 0.

Lemma addToWeek_get k m t :
  Map_get k (addToWeek Date_parse m t)
  = if inWeek Date_parse k t then bump (Map_get k m) t else Map_get k m.
Proof.
  unfold addToWeek, inWeek, weekOf.
  destruct (completedAt t) as [c|]; [|reflexivity].
  destruct (truthy (Some c)); [|reflexivity].
  rewrite Map_get_set. cbn [andb].
  destruct (String.eqb_spec (weekKey (JSDate.newDate Date_parse c)) k)
    as [E|E];
    [|reflexivity].
  rewrite E. reflexivity.
Qed.

Lemma addToWeek_NoDup m t :
  NoDup (map fst m) -> NoDup (map fst (addToWeek Date_parse m t)).
Proof.
  intros H. unfold addToWeek.
  destruct (completedAt t) as [c|]; [|exact H].
  destruct (truthy (Some c)); [|exact H].
  now apply Map_set_NoDup.
Qed.

Lemma fold_addToWeek_get k l m :
  Map_get k (fold_left (addToWeek Date_parse) l m)
  = fold_left bump (filter (inWeek Date_parse k) l) (Map_get k m).
Proof.
  revert m. induction l as [|t l IH]; intros m; simpl; [reflexivity|].
  rewrite IH, addToWeek_get.
  destruct (inWeek Date_parse k t); reflexivity.
Qed.

Lemma fold_addToWeek_NoDup l m :
  NoDup (map fst m) ->
  NoDup (map fst (fold_left (addToWeek Date_parse) l m)).
Proof.
  revert m. induction l as [|t l IH]; intros m H; simpl; [exact H|].
  apply IH. now apply addToWeek_NoDup.
Qed.

Lemma fold_bump_Some ts c r :
  fold_left bump ts (Some (c, r))
  = Some ((c + List.length ts)%nat,
          fold_left (fun s t => (s + revenue t)%float) ts r).
Proof.
  revert c r. induction ts as [|t ts IH]; intros c r; simpl.
  - now rewrite Nat.add_0_r.
  - unfold bump at 2. simpl. rewrite IH. f_equal. f_equal. lia.
Qed.

Lemma fold_bump_None ts :
  fold_left bump ts None
  = match ts with
    | [] => None
    | _ :: _ => Some (List.length ts, sumRevenue ts)
    end.
Proof.
  destruct ts as [|t ts]; [reflexivity|].
  simpl. unfold bump at 2. simpl. rewrite fold_bump_Some. reflexivity.
Qed.

Lemma filter_nonempty {A} (f : A -> bool) (l : list A) :
  filter f l <> [] <-> exists x, In x l /\ f x = true.
Proof.
  split.
  - destruct (filter f l) as [|x r] eqn:E; [congruence|]. intros _.
    exists x. apply filter_In. rewrite E. now left.
  - intros (x & Hx & Hf) E.
    assert (H : In x (filter f l)) by (apply filter_In; auto).
    rewrite E in H. contradiction.
Qed.

Lemma StronglySorted_map {A B} (f : A -> B) (R : B -> B -> Prop) l :
  StronglySorted (fun a b => R (f a) (f b)) l ->
  StronglySorted R (map f l).
Proof.
  induction 1 as [|a l S IH F]; simpl; constructor; [exact IH|].
  rewrite Forall_forall in *. intros b Hb. apply in_map_iff in Hb.
  destruct Hb as (x & <- & Hx). now apply F.
Qed.

Lemma computeThroughputByWeek_buckets l :
  let out := computeThroughputByWeek localeCompare Date_parse l in
  StronglySorted (fun a b => localeCompare (week a) (week b) <= 0) out
  /\ NoDup (map week out)
  /\ (forall k, In k (map week out) <->
                exists t, In t l /\ inWeek Date_parse k t = true)
  /\ (forall e, In e out ->
        count e = List.length (filter (inWeek Date_parse (week e)) l)
        /\ week_revenue e = sumRevenue (filter (inWeek Date_parse (week e)) l)).
Proof.
  cbv zeta. unfold computeThroughputByWeek.
  set (mp := fold_left (addToWeek Date_parse) l []).
  set (cmpK := fun a b : string * (nat * float) =>
                 localeCompare (fst a) (fst b)).
  set (mk := fun e : string * (nat * float) =>
               {| week := fst e; count := fst (snd e);
                  week_revenue := snd (snd e) |}).
  assert (HP : Permutation mp (Array_sort cmpK mp)) by apply Array_sort_perm.
  assert (HN : NoDup (map fst mp)).
  { apply fold_addToWeek_NoDup. constructor. }
  assert (HW : map week (map mk (Array_sort cmpK mp))
               = map fst (Array_sort cmpK mp)).
  { rewrite map_map. reflexivity. }
  assert (HG : forall k, Map_get k mp
                 = match filter (inWeek Date_parse k) l with
                   | [] => None
                   | ts => Some (List.length ts, sumRevenue ts)
                   end).
  { intros k. unfold mp. rewrite fold_addToWeek_get. simpl.
    rewrite fold_bump_None. destruct (filter _ l); reflexivity. }
  split; [|split; [|split]].
  - apply (StronglySorted_map mk
             (fun a b => localeCompare (week a) (week b) <= 0)).
    apply (Array_sort_sorted cmpK (fun _ => True)
             (fun a b => localeCompare (fst a) (fst b) <= 0)).
    + intros a b _ _. unfold cmpK. reflexivity.
    + intros a b _ _.
      destruct (Z.le_gt_cases (localeCompare (fst a) (fst b)) 0);
        [left; assumption | right; apply localeCompare_antisym; lia].
    + intros a b c _ _ _. apply localeCompare_trans.
    + rewrite Forall_forall. auto.
  - rewrite HW. eapply Permutation_NoDup; [|exact HN].
    now apply Permutation_map.
  - intros k. rewrite HW.
    rewrite <- filter_nonempty.
    assert (HI : In k (map fst (Array_sort cmpK mp)) <-> In k (map fst mp)).
    { split; apply Permutation_in; [symmetry|]; now apply Permutation_map. }
    rewrite HI, Map_get_In, HG.
    destruct (filter (inWeek Date_parse k) l); split; congruence.
  - intros e He. apply in_map_iff in He. destruct He as ([k [c r]] & <- & He).
    apply (Permutation_in _ (Permutation_sym HP)) in He.
    apply (Map_get_entry _ _ _ HN) in He. rewrite HG in He.
    unfold mk. cbn [week count week_revenue fst snd].
    destruct (filter (inWeek Date_parse k) l) as [|t ts]; [discriminate|].
    injection He as <- <-. split; reflexivity.
Qed.

End ThroughputFacts.

(** What the buckets are: the tasks with a [completedAt], one bucket per
    label, with the number of its tasks and the sum of their revenues, in
    ascending order of the labels under [localeCompare].  For a date from
    1970 on the label is the UTC calendar year and the ISO-8601 week
    number (the week of the date's Thursday). *)
Lemma computeThroughputByWeek_labels
    (localeCompare : string -> string -> Z)
    (Date_parse : string -> option Z)
    (localeCompare_antisym :
       forall a b, 0 < localeCompare a b -> localeCompare b a <= 0)
    (localeCompare_trans :
       forall a b c, localeCompare a b <= 0 -> localeCompare b c <= 0 ->
                     localeCompare a c <= 0)
    (l : list Task) :
  let out := computeThroughputByWeek localeCompare Date_parse l in
  StronglySorted (fun a b => localeCompare (week a) (week b) <= 0) out
  /\ NoDup (map week out)
  /\ (forall k, In k (map week out) <->
                exists t, In t l /\ inWeek Date_parse k t = true)
  /\ (forall e, In e out ->
        count e = List.length (filter (inWeek Date_parse (week e)) l)
        /\ week_revenue e
           = sumRevenue (filter (inWeek Date_parse (week e)) l))
  /\ (forall t c d,
        completedAt t = Some c -> Date_parse c = Some d ->
        0 <= d <= JSDate.maxTime ->
        weekOf Date_parse t
        = (JSDate.show (JSDate.YearFromTime d) ++ "-W"
             ++ JSDate.show (isoWeekNumber d))%string).
Proof.
  cbv zeta.
  destruct (computeThroughputByWeek_buckets localeCompare Date_parse
              localeCompare_antisym localeCompare_trans l)
    as (S & N & M & A).
  repeat split; try assumption; try (now apply M); try (now apply A).
  intros t c d C P D. unfold weekOf, weekKey, JSDate.newDate.
  rewrite C, P, TimeClip_valid by lia.
  now rewrite (getWeekNumber_iso d D).
Qed.

(** C7 (the code departs from the claim): one task completed on 10
    January 2024 and one on 6 March 2024.  The buckets come out as
    2024-W10, then 2024-W2: ascending as strings, but March before
    January, where the claim says the order is chronological.  The week
    number is printed without padding. *)
Lemma computeThroughputByWeek_not_chronological :
  let out :=
    computeThroughputByWeek codeUnitCompare JSDate.parseISO
      SampleWeeks.board in
  map week out = ["2024-W10"; "2024-W2"]
  /\ weekOf JSDate.parseISO SampleWeeks.march = "2024-W10"
  /\ weekOf JSDate.parseISO SampleWeeks.january = "2024-W2"
  /\ JSDate.parseISO "2024-01-10T09:30:00.000Z" = Some 1704879000000
  /\ JSDate.parseISO "2024-03-06T09:30:00.000Z" = Some 1709717400000
  /\ 1704879000000 < 1709717400000.
Proof. vm_compute. repeat split. Qed.

(** The label carries the calendar year, not the year the ISO week
    belongs to: Monday 30 December 2019 and Thursday 2 January 2020 are
    days of one ISO week, and land in two buckets. *)
Example computeThroughputByWeek_new_year :
  isoWeekNumber 1577698200000 = 1 /\ isoWeekNumber 1577957400000 = 1
  /\ thursdayOf 1577698200000 = thursdayOf 1577957400000
  /\ map week
       (computeThroughputByWeek codeUnitCompare JSDate.parseISO
          [SampleWeeks.monday; SampleWeeks.thursday])
     = ["2019-W1"; "2020-W1"].
Proof. vm_compute. repeat split. Qed.

(** Outside the dates from 1970 on.  The week of 1 January 100 has its
    Thursday in the year 99, which [Date.UTC] reads as 1999: the label is
    100-W-99085.  At the first time value there is, in the year -271821,
    the Thursday of the week is no date: the label is -271821-WNaN.  A
    [completedAt] that is no date gives NaN-WNaN. *)
Example weekKey_outside :
  weekKey (JSDate.newDate JSDate.parseISO "0100-01-01T00:00:00.000Z")
  = "100-W-99085"
  /\ weekKey (Some (- JSDate.maxTime)) = "-271821-WNaN"
  /\ weekKey (JSDate.newDate JSDate.parseISO "2024-13-45") = "NaN-WNaN".
Proof. vm_compute. repeat split. Qed.

(** ** The task store *)

Section Store.

Implicit Types (s : State) (t u : Task) (i now uuid : string).

Lemma filter_other_ids i (l : list Task) :
  (forall u, In u l -> id u <> i) ->
  filter (fun t => negb (id t =? i)%string) l = l.
Proof.
  induction l as [|a l IH]; simpl; intros H; [reflexivity|].
  destruct (String.eqb_spec (id a) i) as [E|_]; simpl.
  - exfalso. apply (H a); auto.
  - f_equal. apply IH. intros u Hu. apply H. auto.
Qed.

Lemma find_skip_other_ids i (l l' : list Task) :
  (forall u, In u l -> id u <> i) ->
  find (fun t => (id t =? i)%string) (l ++ l') =
  find (fun t => (id t =? i)%string) l'.
Proof.
  induction l as [|a l IH]; simpl; intros H; [reflexivity|].
  destruct (String.eqb_spec (id a) i) as [E|_].
  - exfalso. apply (H a); auto.
  - apply IH. intros u Hu. apply H. auto.
Qed.

Lemma find_other_ids i (l : list Task) :
  (forall u, In u l -> id u <> i) ->
  find (fun t => (id t =? i)%string) l = None.
Proof.
  intros H. rewrite <- (app_nil_r l). now rewrite find_skip_other_ids.
Qed.

(** Deleting the only task with id [i]: it leaves the list and fills
    the slot, whatever the slot held. *)
Lemma deleteTask_present s i l1 t l2 :
  tasks s = l1 ++ t :: l2 -> id t = i ->
  (forall u, In u l1 -> id u <> i) -> (forall u, In u l2 -> id u <> i) ->
  deleteTask i s = {| tasks := l1 ++ l2; lastDeleted := Some t |}.
Proof.
  intros Hs Ht H1 H2. unfold deleteTask. rewrite Hs. f_equal.
  - rewrite filter_app. simpl. rewrite Ht, String.eqb_refl. simpl.
    now rewrite !filter_other_ids.
  - rewrite (find_skip_other_ids i l1 _ H1). simpl.
    now rewrite Ht, String.eqb_refl.
Qed.

Lemma deleteTask_absent s i :
  (forall u, In u (tasks s) -> id u <> i) ->
  deleteTask i s = {| tasks := tasks s; lastDeleted := None |}.
Proof.
  intros H. unfold deleteTask.
  now rewrite filter_other_ids, find_other_ids.
Qed.

End Store.

(** C4 (as amended): deleting an id that no task has leaves the task list
    unchanged and resets the last-deleted slot to null, dropping a pending
    value; deleting the id of a task (ids being unique) removes that task
    and captures it into the slot, overwriting any prior pending value. *)
Theorem deleteTask_effect (s : State) (i : string) :
  ((forall u, In u (tasks s) -> id u <> i) ->
   tasks (deleteTask i s) = tasks s /\ lastDeleted (deleteTask i s) = None)
  /\
  (forall l1 t l2,
     tasks s = l1 ++ t :: l2 -> id t = i ->
     (forall u, In u l1 -> id u <> i) -> (forall u, In u l2 -> id u <> i) ->
     tasks (deleteTask i s) = l1 ++ l2
     /\ lastDeleted (deleteTask i s) = Some t).
Proof.
  split.
  - intros H. now rewrite (deleteTask_absent s i H).
  - intros l1 t l2 Hs Ht H1 H2.
    now rewrite (deleteTask_present s i l1 t l2 Hs Ht H1 H2).
Qed.

(** C4 (the claim as stated fails): no task of [Sample.pending] has the
    id ["ghost"], a deletion is pending, and [deleteTask "ghost"] changes
    the last-deleted slot: it is not a no-op. *)
Lemma deleteTask_unknown_id_drops_pending :
  (forall u, In u (tasks Sample.pending) -> id u <> "ghost")
  /\ lastDeleted Sample.pending = Some Sample.B
  /\ lastDeleted (deleteTask "ghost" Sample.pending) = None
  /\ deleteTask "ghost" Sample.pending <> Sample.pending.
Proof.
  repeat split; try reflexivity.
  - intros u [<- | []]. discriminate.
  - discriminate.
Qed.

Lemma deleteTask_effect_witness :
  (tasks (deleteTask "ghost" Sample.pending) = tasks Sample.pending
   /\ lastDeleted (deleteTask "ghost" Sample.pending) = None)
  /\ (tasks (deleteTask "a" Sample.pending) = []
      /\ lastDeleted (deleteTask "a" Sample.pending) = Some Sample.A).
Proof.
  split.
  - apply (proj1 (deleteTask_effect Sample.pending "ghost")).
    intros u [<- | []]. discriminate.
  - apply (proj2 (deleteTask_effect Sample.pending "a") [] Sample.A []).
    + reflexivity.
    + reflexivity.
    + intros u [].
    + intros u [].
Defined.

(** ** [timeTaken] *)

(** [addTask] keeps every stored [timeTaken] positive: a supplied value
    that is not positive (zero, negative or NaN) is stored as 1. *)
Lemma addTask_timeTaken_positive now uuid payload s :
  forallb positiveTime (tasks s) = true ->
  forallb positiveTime (tasks (addTask now uuid payload s)) = true.
Proof.
  intros H. unfold addTask. simpl. rewrite forallb_app, H. simpl.
  unfold positiveTime. simpl.
  destruct (0 <? payload_timeTaken payload)%float eqn:E.
  - now rewrite E.
  - reflexivity.
Qed.

Lemma addTask_clamps now uuid payload s :
  (0 <? payload_timeTaken payload)%float = false ->
  exists t, tasks (addTask now uuid payload s) = tasks s ++ [t]
            /\ timeTaken t = 1%float.
Proof.
  intros E. unfold addTask. simpl. rewrite E. eexists. split; reflexivity.
Qed.

(** C5 (the code departs from the claim): [updateTask] stores the
    [timeTaken] of the patch as it is.  In a store that holds task A with
    [timeTaken = 2], the patch [{ timeTaken: 0 }] leaves a task with
    [timeTaken = 0], where [addTask] would have stored 1. *)
Theorem updateTask_stores_nonpositive_timeTaken :
  let s := mkState [Sample.A] None in
  let s' := updateTask Sample.t1 "a" (Sample.setTimeTaken 0) s in
  forallb positiveTime (tasks s) = true
  /\ map timeTaken (tasks s') = [0%float]
  /\ forallb positiveTime (tasks s') = false.
Proof. vm_compute. repeat split. Qed.

(** ** [completedAt] *)

Lemma isDone_true st : isDone st = true <-> st = Done.
Proof. destruct st; simpl; split; intros H; try discriminate; reflexivity. Qed.

Lemma isDone_false st : isDone st = false <-> st <> Done.
Proof.
  destruct st; simpl; split; intros H; try discriminate; try reflexivity;
    try (intros E; discriminate); exfalso; now apply H.
Qed.

(** What [{ ...t, ...patch, completedAt: ... }] does to [completedAt]. *)
Lemma applyPatch_completedAt now patch t :
  let t' := applyPatch now patch t in
  (status t <> Done -> status t' = Done -> completedAt t' = Some now)
  /\ (~ (status t <> Done /\ status t' = Done) ->
      completedAt t' = completedAt t)
  /\ (status t = Done -> completedAt t' = completedAt t)
  /\ (completedAt t <> None -> completedAt t' <> None).
Proof.
  unfold applyPatch; simpl.
  destruct (isDone (status t)) eqn:Eold; simpl.
  - apply isDone_true in Eold. repeat split; auto. intros H; now destruct H.
  - apply isDone_false in Eold.
    destruct (patch_status patch) as [st|]; simpl.
    + destruct (isDone st) eqn:Enew.
      * apply isDone_true in Enew. subst st.
        repeat split; auto; try discriminate.
        -- intros H. exfalso. apply H. auto.
        -- intros H. contradiction.
      * apply isDone_false in Enew.
        repeat split; auto; try contradiction.
    + repeat split; auto; try contradiction.
Qed.

(** C6 (as amended): [completedAt] is set to the current time at creation
    when the initial status is Done, and by every update that takes the
    task from a status other than Done to Done; every other update
    preserves it: it is not overwritten while the task is already Done,
    and it is never cleared once set. *)
Theorem completedAt_lifecycle (now : string) :
  (forall uuid payload s,
     exists t, tasks (addTask now uuid payload s) = tasks s ++ [t]
       /\ completedAt t =
          if isDone (payload_status payload) then Some now else None)
  /\
  (forall i patch s k t,
     nth_error (tasks s) k = Some t ->
     exists t',
       nth_error (tasks (updateTask now i patch s)) k = Some t'
       /\ (status t <> Done -> status t' = Done -> completedAt t' = Some now)
       /\ (~ (status t <> Done /\ status t' = Done) ->
           completedAt t' = completedAt t)
       /\ (status t = Done -> completedAt t' = completedAt t)
       /\ (completedAt t <> None -> completedAt t' <> None)).
Proof.
  split.
  - intros uuid payload s. unfold addTask; simpl.
    eexists. split; reflexivity.
  - intros i patch s k t Hk. unfold updateTask; simpl.
    rewrite nth_error_map, Hk. simpl.
    destruct (id t =? i)%string.
    + eexists. split; [reflexivity|]. apply applyPatch_completedAt.
    + exists t. split; [reflexivity|].
      repeat split; auto. intros H1 H2. contradiction.
Qed.

Lemma completedAt_lifecycle_witness :
  exists t',
    nth_error (tasks (updateTask Sample.t1 "a" (Sample.setStatus Done)
                        Sample.pending)) 0 = Some t'
    /\ completedAt t' = Some Sample.t1.
Proof.
  destruct (proj2 (completedAt_lifecycle Sample.t1) "a"
              (Sample.setStatus Done) Sample.pending 0%nat Sample.A
              eq_refl) as (t' & Hk & Hset & _).
  exists t'. split; [exact Hk|].
  apply Hset.
  - discriminate.
  - injection Hk as <-. reflexivity.
Defined.

(** C6 (the claim as stated fails): a task created Done at [t0], moved
    back to Todo at [t1] and to Done again at [t2] has its [completedAt]
    overwritten: it was [t0], it is [t2]. *)
Lemma completedAt_overwritten_on_reentry :
  let s0 := addTask Sample.t0 "u" Sample.payloadDone Sample.empty in
  let s1 := updateTask Sample.t1 "d" (Sample.setStatus Todo) s0 in
  let s2 := updateTask Sample.t2 "d" (Sample.setStatus Done) s1 in
  map completedAt (tasks s0) = [Some Sample.t0]
  /\ map completedAt (tasks s1) = [Some Sample.t0]
  /\ map completedAt (tasks s2) = [Some Sample.t2]
  /\ Sample.t2 <> Sample.t0.
Proof. vm_compute. repeat split. discriminate. Qed.

(** ** Delete and undo *)

Lemma undoDelete_nothing_pending (s : State) :
  lastDeleted s = None -> undoDelete s = s.
Proof. unfold undoDelete. now intros ->. Qed.

(** Deleting the only task with a given id and undoing moves that task
    to the end of the list and empties the slot. *)
Lemma undoDelete_after_deleteTask s l1 t l2 :
  tasks s = l1 ++ t :: l2 ->
  (forall u, In u l1 -> id u <> id t) -> (forall u, In u l2 -> id u <> id t) ->
  undoDelete (deleteTask (id t) s) =
  {| tasks := (l1 ++ l2) ++ [t]; lastDeleted := None |}.
Proof.
  intros Hs H1 H2.
  now rewrite (deleteTask_present s (id t) l1 t l2 Hs eq_refl H1 H2).
Qed.

(** C9: after [addTask] has appended a task [A] with a fresh id,
    [deleteTask (id A)] leaves the list without [A] and the slot holding
    [A]; [undoDelete] then appends [A] again, which restores the list, and
    empties the slot.  With nothing pending, [undoDelete] changes
    nothing. *)
Theorem delete_then_undo now uuid payload (s : State) :
  (forall u, In u (tasks s) -> id u <> orElse (payload_id payload) uuid) ->
  (exists A,
     let s1 := addTask now uuid payload s in
     let s2 := deleteTask (id A) s1 in
     tasks s1 = tasks s ++ [A]
     /\ tasks s2 = tasks s
     /\ lastDeleted s2 = Some A
     /\ tasks (undoDelete s2) = tasks s ++ [A]
     /\ tasks (undoDelete s2) = tasks s1
     /\ lastDeleted (undoDelete s2) = None)
  /\ (forall s', lastDeleted s' = None -> undoDelete s' = s').
Proof.
  intros Hfresh. split; [|exact undoDelete_nothing_pending].
  eexists. cbv zeta.
  split; [reflexivity|].
  match goal with
  | |- context [deleteTask (id ?A) ?s1] =>
      assert (Hd : deleteTask (id A) s1 =
                   {| tasks := tasks s ++ []; lastDeleted := Some A |})
  end.
  { apply deleteTask_present; simpl; auto. }
  rewrite Hd, app_nil_r. unfold undoDelete. simpl.
  repeat split.
Qed.

Lemma delete_then_undo_witness :
  exists A,
    tasks (addTask Sample.t0 "a" Sample.payloadA Sample.empty) = [A]
    /\ lastDeleted
         (deleteTask (id A)
            (addTask Sample.t0 "a" Sample.payloadA Sample.empty)) = Some A
    /\ tasks
         (undoDelete
            (deleteTask (id A)
               (addTask Sample.t0 "a" Sample.payloadA Sample.empty))) = [A]
    /\ roi (withDerived A) = Some 50%float.
Proof.
  destruct (proj1 (delete_then_undo Sample.t0 "a" Sample.payloadA
                     Sample.empty (fun u (H : In u []) => match H with end)))
    as (A & H1 & _ & H3 & H4 & _ & _).
  exists A. simpl in H1. repeat split; try assumption.
  injection H1 as <-. vm_compute. reflexivity.
Defined.

(** ** [updateTask] *)

(** C10: [updateTask] keeps the length of the list and every position;
    a task whose id differs from the given one stays as it was, the tasks
    with the given id are replaced by their patched versions, and the
    last-deleted slot is untouched. *)
Theorem updateTask_frame now i patch (s : State) :
  let s' := updateTask now i patch s in
  List.length (tasks s') = List.length (tasks s)
  /\ lastDeleted s' = lastDeleted s
  /\ (forall k t, nth_error (tasks s) k = Some t -> id t <> i ->
                  nth_error (tasks s') k = Some t)
  /\ (forall k t, nth_error (tasks s) k = Some t -> id t = i ->
                  nth_error (tasks s') k = Some (applyPatch now patch t))
  /\ ((forall t, In t (tasks s) -> id t <> i) -> s' = s).
Proof.
  unfold updateTask; simpl. repeat split.
  - apply length_map.
  - intros k t Hk Hne. rewrite nth_error_map, Hk. simpl.
    destruct (String.eqb_spec (id t) i); [contradiction | reflexivity].
  - intros k t Hk He. rewrite nth_error_map, Hk. simpl.
    now rewrite He, String.eqb_refl.
  - intros H. destruct s as [l d]. simpl in *. f_equal.
    induction l as [|a l IH]; simpl; [reflexivity|].
    destruct (String.eqb_spec (id a) i) as [E|_].
    + exfalso. apply (H a); simpl; auto.
    + f_equal. apply IH. intros t Ht. apply H. simpl; auto.
Qed.

Lemma updateTask_frame_witness :
  nth_error
    (tasks (updateTask Sample.t1 "b" (Sample.setStatus Done)
              (mkState [Sample.A; Sample.B] None))) 0 = Some Sample.A.
Proof.
  apply (proj1 (proj2 (proj2
           (updateTask_frame Sample.t1 "b" (Sample.setStatus Done)
              (mkState [Sample.A; Sample.B] None))))).
  - reflexivity.
  - discriminate.
Defined.

(** * Further properties *)

(** ** The store keeps ids unique *)

Lemma NoDup_app_swap {A} (l1 l2 : list A) :
  NoDup (l1 ++ l2) -> NoDup (l2 ++ l1).
Proof.
  intros H. eapply Permutation_NoDup; [|exact H]. apply Permutation_app_comm.
Qed.

Lemma In_map_filter {A B} (g : A -> B) (f : A -> bool) (l : list A) x :
  In x (map g (filter f l)) -> In x (map g l).
Proof.
  intros H. apply in_map_iff in H. destruct H as (u & Hu & Hin).
  apply filter_In in Hin. rewrite <- Hu. apply in_map. tauto.
Qed.

Lemma NoDup_map_filter {A B} (g : A -> B) (f : A -> bool) (l : list A) :
  NoDup (map g l) -> NoDup (map g (filter f l)).
Proof.
  induction l as [|a l IH]; simpl; intros N; [constructor|].
  apply NoDup_cons_iff in N. destruct N as [Na Nl].
  destruct (f a); simpl; [|now apply IH].
  constructor; [|now apply IH].
  intros H. apply Na. now apply In_map_filter in H.
Qed.

Lemma map_id_filter_other (i : string) (l : list Task) :
  NoDup (map id l) ->
  NoDup (map id (filter (fun t => negb (id t =? i)%string) l)
         ++ map id (match find (fun t => (id t =? i)%string) l with
                    | Some t => [t]
                    | None => []
                    end)).
Proof.
  induction l as [|a l IH]; simpl; intros N; [constructor|].
  apply NoDup_cons_iff in N. destruct N as [Na Nl].
  destruct (String.eqb_spec (id a) i) as [E|E]; simpl.
  - apply NoDup_app_swap. simpl. constructor.
    + intros H. apply Na. now apply In_map_filter in H.
    + now apply NoDup_map_filter.
  - constructor; [|now apply IH].
    intros H. apply in_app_or in H. destruct H as [H|H].
    + apply Na. now apply In_map_filter in H.
    + destruct (find (fun t => (id t =? i)%string) l) as [t|] eqn:F;
        [|contradiction].
      apply find_some in F. destruct F as [Hin _].
      destruct H as [H|[]]. apply Na. rewrite <- H. now apply in_map.
Qed.

(** X1: the mutations keep the ids of the tasks the store holds (in the
    list and in the last-deleted slot) distinct: [addTask] when the new
    id is not held yet, [updateTask] when the patch leaves the id alone,
    [deleteTask], [undoDelete] and [clearLastDeleted] always. *)
Theorem uniqueIds_preserved (s : State) :
  uniqueIds s ->
  (forall now uuid payload,
     ~ In (orElse (payload_id payload) uuid) (map id (heldTasks s)) ->
     uniqueIds (addTask now uuid payload s))
  /\ (forall now i patch,
        patch_id patch = None -> uniqueIds (updateTask now i patch s))
  /\ (forall i, uniqueIds (deleteTask i s))
  /\ uniqueIds (undoDelete s)
  /\ uniqueIds (clearLastDeleted s).
Proof.
  unfold uniqueIds, heldTasks. intros U. repeat split.
  - intros now uuid payload F. unfold addTask, pendingTasks in *. simpl.
    rewrite <- app_assoc. rewrite !map_app in *. simpl.
    apply (Permutation_NoDup
             (l := orElse (payload_id payload) uuid
                   :: (map id (tasks s)
                       ++ map id match lastDeleted s with
                                 | Some t => [t]
                                 | None => []
                                 end))).
    + apply Permutation_middle.
    + constructor; assumption.
  - intros now i patch P. unfold updateTask, pendingTasks in *. simpl.
    rewrite map_app in *. rewrite map_map.
    erewrite map_ext; [exact U|].
    intros t. destruct (id t =? i)%string; [|reflexivity].
    unfold applyPatch. simpl. now rewrite P.
  - intros i. unfold deleteTask, pendingTasks. simpl. rewrite map_app.
    apply map_id_filter_other.
    rewrite map_app in U. now apply NoDup_app_remove_r in U.
  - unfold undoDelete, pendingTasks in *.
    destruct (lastDeleted s) as [t|] eqn:L; simpl.
    + now rewrite app_nil_r.
    + now rewrite L.
  - unfold clearLastDeleted, pendingTasks in *. simpl.
    rewrite app_nil_r. rewrite map_app in U.
    now apply NoDup_app_remove_r in U.
Qed.

Lemma uniqueIds_preserved_witness :
  uniqueIds (deleteTask "a" Sample.pending)
  /\ uniqueIds (undoDelete Sample.pending).
Proof.
  assert (U : uniqueIds Sample.pending).
  { unfold uniqueIds. simpl. repeat constructor; simpl; intuition congruence. }
  split.
  - apply (proj1 (proj2 (proj2 (uniqueIds_preserved Sample.pending U)))).
  - apply (proj1 (proj2 (proj2 (proj2
             (uniqueIds_preserved Sample.pending U))))).
Defined.

(** ** The store keeps [timeTaken] positive, except through a patch *)

Lemma heldTasks_positive (s : State) :
  positiveTimes s = true <->
  (forall t, In t (tasks s) -> positiveTime t = true)
  /\ (forall t, lastDeleted s = Some t -> positiveTime t = true).
Proof.
  unfold positiveTimes, heldTasks, pendingTasks.
  rewrite forallb_app, andb_true_iff, forallb_forall.
  destruct (lastDeleted s) as [d|]; simpl.
  - rewrite andb_true_r. split; intros [H1 H2]; split; auto.
    + intros t [= <-]. exact H2.
  - split; intros [H1 H2]; split; auto. discriminate.
Qed.

(** X2: every task the store holds keeps a positive [timeTaken] through
    [addTask] (whatever the payload: a value that is zero, negative or
    NaN is replaced by 1), [deleteTask], [undoDelete] and
    [clearLastDeleted], and through [updateTask] when the patch has no
    [timeTaken] or a positive one. *)
Theorem positiveTimes_preserved (s : State) :
  positiveTimes s = true ->
  (forall now uuid payload,
     positiveTimes (addTask now uuid payload s) = true)
  /\ (forall now i patch,
        match patch_timeTaken patch with
        | Some x => (0 <? x)%float = true
        | None => True
        end ->
        positiveTimes (updateTask now i patch s) = true)
  /\ (forall i, positiveTimes (deleteTask i s) = true)
  /\ positiveTimes (undoDelete s) = true
  /\ positiveTimes (clearLastDeleted s) = true.
Proof.
  intros P. apply heldTasks_positive in P. destruct P as [PT PD].
  repeat split.
  - intros now uuid payload. apply heldTasks_positive. split.
    + assert (F : forallb positiveTime (tasks s) = true)
        by now apply forallb_forall.
      apply (addTask_timeTaken_positive now uuid payload) in F.
      now apply forallb_forall.
    + exact PD.
  - intros now i patch Hx. apply heldTasks_positive. split; [|exact PD].
    unfold updateTask. simpl. intros t Ht. apply in_map_iff in Ht.
    destruct Ht as (u & <- & Hu).
    destruct (id u =? i)%string; [|now apply PT].
    unfold positiveTime, applyPatch. simpl.
    destruct (patch_timeTaken patch) as [x|]; simpl; [exact Hx|].
    now apply PT.
  - intros i. apply heldTasks_positive. unfold deleteTask. simpl. split.
    + intros t Ht. apply filter_In in Ht. now apply PT.
    + intros t Ht. apply find_some in Ht. now apply PT.
  - apply heldTasks_positive. unfold undoDelete.
    destruct (lastDeleted s) as [d|] eqn:L; simpl.
    + split; [|discriminate]. intros t Ht. apply in_app_or in Ht.
      destruct Ht as [Ht|[<-|[]]]; [now apply PT | now apply PD].
    + split; [exact PT|]. now rewrite L.
  - apply heldTasks_positive. simpl. split; [exact PT|discriminate].
Qed.

Lemma positiveTimes_preserved_witness :
  positiveTimes
    (addTask Sample.t1 "z"
       (mkPayload None "Zeta" 10 (-3) Low Todo None) Sample.pending) = true.
Proof.
  apply (proj1 (positiveTimes_preserved Sample.pending eq_refl)).
Defined.

(** ** Undo restores one deletion, once *)

Lemma find_filter_other (i j : string) (l : list Task) :
  i <> j ->
  find (fun t => (id t =? j)%string)
       (filter (fun t => negb (id t =? i)%string) l)
  = find (fun t => (id t =? j)%string) l.
Proof.
  intros Hij. induction l as [|a l IH]; simpl; [reflexivity|].
  destruct (String.eqb_spec (id a) i) as [E|E]; simpl.
  - destruct (String.eqb_spec (id a) j) as [F|F]; [congruence|exact IH].
  - now rewrite IH.
Qed.

(** X3: the slot holds one deletion.  After [deleteTask i] and then
    [deleteTask j] of a task that is present, [undoDelete] brings back
    the task with id [j] only: no task with id [i] is in the list again,
    and a second [undoDelete] changes nothing. *)
Theorem undoDelete_restores_last_only (s : State) (i j : string) (t : Task) :
  i <> j ->
  find (fun u => (id u =? j)%string) (tasks s) = Some t ->
  let s' := undoDelete (deleteTask j (deleteTask i s)) in
  lastDeleted (deleteTask j (deleteTask i s)) = Some t
  /\ In t (tasks s')
  /\ (forall u, In u (tasks s') -> id u <> i)
  /\ lastDeleted s' = None
  /\ undoDelete s' = s'.
Proof.
  intros Hij F. cbv zeta.
  assert (L : lastDeleted (deleteTask j (deleteTask i s)) = Some t).
  { unfold deleteTask. simpl. now rewrite find_filter_other. }
  assert (Ht : id t = j).
  { apply find_some in F. destruct F as [_ E]. now apply String.eqb_eq. }
  split; [exact L|].
  assert (E : undoDelete (deleteTask j (deleteTask i s))
              = {| tasks := tasks (deleteTask j (deleteTask i s)) ++ [t];
                   lastDeleted := None |}).
  { unfold undoDelete. now rewrite L. }
  rewrite E. simpl.
  split; [apply in_or_app; right; now left|].
  split; [|split; reflexivity].
  intros u Hu. apply in_app_or in Hu. destruct Hu as [Hu|[<-|[]]].
  - apply filter_In in Hu. destruct Hu as [Hu _].
    apply filter_In in Hu. destruct Hu as [_ Hu].
    apply negb_true_iff in Hu. now apply String.eqb_neq.
  - congruence.
Qed.

Lemma undoDelete_restores_last_only_witness :
  tasks (undoDelete
           (deleteTask "b" (deleteTask "a"
              (mkState [Sample.A; Sample.B] None)))) = [Sample.B].
Proof.
  destruct (undoDelete_restores_last_only
              (mkState [Sample.A; Sample.B] None) "a" "b" Sample.B)
    as (_ & _ & _ & _ & _).
  - discriminate.
  - reflexivity.
  - reflexivity.
Defined.

(** X4: a deletion that was dismissed cannot be undone.  After
    [deleteTask i] and [clearLastDeleted], [undoDelete] leaves the state
    as it is, and no task with id [i] is in the list. *)
Theorem dismissed_deletion_stays (s : State) (i : string) :
  let s' := clearLastDeleted (deleteTask i s) in
  undoDelete s' = s'
  /\ (forall u, In u (tasks (undoDelete s')) -> id u <> i)
  /\ (List.length (tasks (undoDelete s')) <= List.length (tasks s))%nat.
Proof.
  cbv zeta. unfold undoDelete, clearLastDeleted, deleteTask. simpl.
  repeat split.
  - intros u Hu. apply filter_In in Hu. destruct Hu as [_ Hu].
    apply negb_true_iff in Hu. now apply String.eqb_neq.
  - apply filter_length_le.
Qed.

(** ** The ranked view *)

(** X5: the ranked view [derivedSorted] shows exactly the stored tasks,
    each with the ROI and the priority weight computed from it, in the
    order of [sortTasks], whatever the tasks are: descending by ROI, a
    null ROI counting as -1 (so after every ROI above -1 and before
    every ROI below -1), then descending by priority weight, then
    ascending by title under [localeCompare]. *)
Theorem derivedSorted_view
    (localeCompare : string -> string -> Z)
    (localeCompare_antisym :
       forall a b, 0 < localeCompare a b -> localeCompare b a <= 0)
    (localeCompare_trans :
       forall a b c, localeCompare a b <= 0 -> localeCompare b c <= 0 ->
                     localeCompare a c <= 0)
    (s : State) :
  let v := derivedSorted localeCompare s in
  Permutation (tasks s) (map task v)
  /\ List.length v = List.length (tasks s)
  /\ (forall d, In d v -> d = withDerived (task d))
  /\ StronglySorted (before localeCompare) v.
Proof.
  cbv zeta. unfold derivedSorted.
  assert (P : Permutation (map withDerived (tasks s))
                (sortTasks localeCompare (map withDerived (tasks s))))
    by apply Array_sort_perm.
  repeat split.
  - apply (Permutation_map task) in P. rewrite map_map in P.
    simpl in P. now rewrite map_id in P.
  - rewrite <- (Permutation_length P). apply length_map.
  - intros d Hd. apply (Permutation_in _ (Permutation_sym P)) in Hd.
    apply in_map_iff in Hd. destruct Hd as (t & <- & _). reflexivity.
  - now apply derivedSorted_sorted.
Qed.

Lemma derivedSorted_view_witness :
  List.length (derivedSorted codeUnitCompare Sample.pending) = 1%nat.
Proof.
  apply (derivedSorted_view codeUnitCompare codeUnitCompare_antisym
           codeUnitCompare_trans Sample.pending).
Defined.

(** Two lists in the same order with the same elements are equal, when
    the order does not tie distinct elements. *)
Lemma sorted_perm_unique {A} (R : A -> A -> Prop) (l l' : list A) :
  (forall a b, In a l -> In b l -> R a b -> R b a -> a = b) ->
  StronglySorted R l -> StronglySorted R l' -> Permutation l l' ->
  l = l'.
Proof.
  revert l'. induction l as [|a l IH]; intros l' Anti Sl Sl' P.
  - apply Permutation_nil in P. now subst.
  - destruct l' as [|b l'].
    + apply Permutation_sym, Permutation_nil in P. discriminate.
    + inversion Sl as [|? ? Sl1 Fa]; subst.
      inversion Sl' as [|? ? Sl1' Fb]; subst.
      rewrite Forall_forall in Fa, Fb.
      assert (Hb : In b (a :: l)).
      { apply (Permutation_in _ (Permutation_sym P)). now left. }
      assert (Ha : In a (b :: l')).
      { apply (Permutation_in _ P). now left. }
      assert (E : a = b).
      { destruct Hb as [Hb|Hb]; [exact Hb|].
        destruct Ha as [Ha|Ha]; [now symmetry|].
        apply Anti; [now left | now right | now apply Fa | now apply Fb]. }
      subst b. f_equal. apply IH; auto.
      * intros x y Hx Hy. apply Anti; now right.
      * now apply Permutation_cons_inv in P.
Qed.

(** X6: the ranking does not depend on the order the tasks come in.
    When no two distinct tasks of the list tie under the comparator,
    [sortTasks] returns the same list for every permutation of its
    input. *)
Theorem sortTasks_order_independent
    (localeCompare : string -> string -> Z)
    (localeCompare_antisym :
       forall a b, 0 < localeCompare a b -> localeCompare b a <= 0)
    (localeCompare_trans :
       forall a b c, localeCompare a b <= 0 -> localeCompare b c <= 0 ->
                     localeCompare a c <= 0)
    (l l' : list DerivedTask) :
  forallb validROI l = true ->
  (forall a b, In a l -> In b l ->
     compareTasks localeCompare a b <= 0 ->
     compareTasks localeCompare b a <= 0 -> a = b) ->
  Permutation l l' ->
  sortTasks localeCompare l = sortTasks localeCompare l'.
Proof.
  intros V Ties P.
  assert (V' : forallb validROI l' = true).
  { rewrite forallb_forall in *. intros d Hd. apply V.
    now apply (Permutation_in _ (Permutation_sym P)). }
  assert (Pl : Permutation l (sortTasks localeCompare l))
    by apply Array_sort_perm.
  assert (Pl' : Permutation l' (sortTasks localeCompare l'))
    by apply Array_sort_perm.
  apply (sorted_perm_unique (before localeCompare)).
  - intros a b Ha Hb Rab Rba.
    apply (Permutation_in _ (Permutation_sym Pl)) in Ha, Hb.
    rewrite forallb_forall in V.
    apply Ties; auto;
      apply (compareTasks_before localeCompare); auto.
  - now apply sortTasks_sorted.
  - now apply sortTasks_sorted.
  - eapply Permutation_trans; [apply Permutation_sym, Pl|].
    eapply Permutation_trans; [exact P | exact Pl'].
Qed.

Lemma sortTasks_order_independent_witness :
  sortTasks codeUnitCompare
    (map withDerived [SampleSort.beta; SampleSort.alpha])
  = sortTasks codeUnitCompare
      (map withDerived [SampleSort.alpha; SampleSort.beta]).
Proof.
  apply (sortTasks_order_independent codeUnitCompare
           codeUnitCompare_antisym codeUnitCompare_trans).
  - vm_compute. reflexivity.
  - intros a b [<-|[<-|[]]] [<-|[<-|[]]] H1 H2; try reflexivity;
      vm_compute in H1, H2; exfalso; (now apply H1) || (now apply H2).
  - apply perm_swap.
Defined.

(** ** Metrics *)

Lemma countStatus_le (st : Status) (l : list Task) :
  (countStatus st l <= List.length l)%nat.
Proof. unfold countStatus. apply filter_length_le. Qed.

Lemma countStatus_all (st : Status) (l : list Task) :
  countStatus st l = List.length l <-> Forall (fun t => status t = st) l.
Proof.
  unfold countStatus. induction l as [|t l IH]; simpl.
  - split; [constructor | reflexivity].
  - pose proof (filter_length_le (fun t => Status_eqb (status t) st) l) as B.
    destruct (Status_eqb (status t) st) eqn:E; simpl.
    + split.
      * intros H. constructor; [destruct (status t), st; auto; discriminate|].
        apply IH. lia.
      * intros H. inversion H; subst. f_equal. now apply IH.
    + split; [lia|]. intros H. inversion H as [|? ? Hs _]; subst.
      destruct (status t); discriminate.
Qed.

Lemma countStatus_none (st : Status) (l : list Task) :
  countStatus st l = 0%nat <-> Forall (fun t => status t <> st) l.
Proof.
  unfold countStatus. induction l as [|t l IH]; simpl.
  - split; [constructor | reflexivity].
  - destruct (Status_eqb (status t) st) eqn:E; simpl.
    + split; [discriminate|]. intros H. inversion H as [|? ? Hs _]; subst.
      exfalso. apply Hs. destruct (status t), st; auto; discriminate.
    + split.
      * intros H. constructor; [|now apply IH].
        intros Hs. rewrite Hs in E. destruct st; discriminate.
      * intros H. inversion H; subst. now apply IH.
Qed.




Lemma leb_ford x y :
  is_nan x = false -> is_nan y = false ->
  ((x <=? y)%float = true <-> lexlt (ford x) (ford y) \/ ford x = ford y).
Proof.
  intros Nx Ny. apply is_nan_false in Nx, Ny.
  rewrite leb_spec. unfold SFleb, ford.
  destruct (SFcompare_ord _ _ Nx Ny) as (L & E & G).
  rewrite <- L, <- E.
  destruct (SFcompare (Prim2SF x) (Prim2SF y)) as [[]|];
    split; intros H; try discriminate; try reflexivity; auto;
    destruct H; discriminate.
Qed.

(** X10: the performance grade never gets worse when the average ROI
    grows: for numbers [a <= b], the grade of [b] is at least the grade
    of [a]. *)
Theorem computePerformanceGrade_monotone (a b : float) :
  is_nan a = false -> is_nan b = false -> (a <=? b)%float = true ->
  gradeRank (computePerformanceGrade a)
  <= gradeRank (computePerformanceGrade b).
Proof.
  intros Na Nb Hab. apply (leb_ford a b Na Nb) in Hab.
  assert (N5 : is_nan 500 = false) by reflexivity.
  assert (N2 : is_nan 200 = false) by reflexivity.
  unfold computePerformanceGrade.
  pose proof (ltb_ford 500 a N5 Na) as A5.
  pose proof (ltb_ford 500 b N5 Nb) as B5.
  pose proof (leb_ford 200 a N2 Na) as A2.
  pose proof (leb_ford 200 b N2 Nb) as B2.
  destruct (500 <? a)%float eqn:Ea.
  - assert (Hb : lexlt (ford 500) (ford b)).
    { destruct Hab as [H|H]; [|rewrite <- H; now apply A5].
      eapply lexlt_trans; [now apply A5 | exact H]. }
    apply B5 in Hb. rewrite Hb. simpl. lia.
  - destruct (200 <=? a)%float eqn:Ea2.
    + assert (Hb : lexlt (ford 200) (ford b) \/ ford 200 = ford b).
      { destruct (proj1 A2 eq_refl) as [H|H], Hab as [H'|H'].
        - left. eapply lexlt_trans; eassumption.
        - left. now rewrite <- H'.
        - left. now rewrite H.
        - right. congruence. }
      apply B2 in Hb. rewrite Hb.
      destruct (500 <? b)%float; simpl; lia.
    + destruct (500 <? b)%float; [simpl; lia|].
      destruct (200 <=? b)%float; simpl; lia.
Qed.

Lemma computePerformanceGrade_monotone_witness :
  gradeRank (computePerformanceGrade 150)
  <= gradeRank (computePerformanceGrade 350).
Proof.
  apply computePerformanceGrade_monotone; reflexivity.
Defined.

Lemma computeTotalRevenue_none_done (l : list Task) :
  Forall (fun t => status t <> Done) l -> computeTotalRevenue l = 0%float.
Proof.
  intros H. unfold computeTotalRevenue.
  replace (filter (fun t => isDone (status t)) l) with (@nil Task);
    [reflexivity|].
  symmetry. induction H as [|t l Ht _ IH]; simpl; [reflexivity|].
  apply isDone_false in Ht. now rewrite Ht.
Qed.

(** What is positive is a positive finite number or +Infinity. *)
Lemma positive_spec (t : float) :
  is_nan t = false -> (t <=? 0)%float = false ->
  match Prim2SF t with
  | S754_finite false _ _ | S754_infinity false => True
  | _ => False
  end.
Proof.
  intros N P. apply is_nan_false in N. rewrite leb_spec in P.
  change (Prim2SF 0) with (S754_zero false) in P.
  destruct (Prim2SF t) as [s|[]| |[] m e]; try discriminate; exact I.
Qed.

(** X11: the revenue per hour is 0 when no task is Done and when the
    total time is not positive; no division by a time that is not
    positive takes place. *)
Theorem computeRevenuePerHour_zero (l : list Task) :
  is_nan (computeTotalTimeTaken l) = false ->
  ((computeTotalTimeTaken l <=? 0)%float = true ->
   computeRevenuePerHour l = 0%float)
  /\ (Forall (fun t => status t <> Done) l ->
      computeRevenuePerHour l = 0%float).
Proof.
  intros N. unfold computeRevenuePerHour. split.
  - intros ->. reflexivity.
  - intros H. rewrite (computeTotalRevenue_none_done l H).
    destruct (computeTotalTimeTaken l <=? 0)%float eqn:P; [reflexivity|].
    apply Prim2SF_inj. rewrite div_spec.
    change (Prim2SF 0) with (S754_zero false).
    pose proof (positive_spec _ N P) as T.
    destruct (Prim2SF (computeTotalTimeTaken l)) as [s|[]| |[] m e];
      try contradiction; reflexivity.
Qed.

Lemma computeRevenuePerHour_zero_witness :
  computeRevenuePerHour [Sample.A; Sample.B] = 0%float.
Proof.
  apply (computeRevenuePerHour_zero [Sample.A; Sample.B] eq_refl).
  repeat constructor; discriminate.
Defined.

(** X12: what [addTask] does to the totals.  The total revenue grows by
    the revenue of the new task when the task is created Done and stays
    as it is otherwise; the total time grows by the time stored for the
    task. *)
Theorem addTask_totals now uuid payload (s : State) :
  let s' := addTask now uuid payload s in
  computeTotalRevenue (tasks s')
  = (if isDone (payload_status payload)
     then (computeTotalRevenue (tasks s) + payload_revenue payload)%float
     else computeTotalRevenue (tasks s))
  /\ computeTotalTimeTaken (tasks s')
     = (computeTotalTimeTaken (tasks s)
        + (if (0 <? payload_timeTaken payload)%float
           then payload_timeTaken payload else 1))%float.
Proof.
  cbv zeta. unfold addTask, computeTotalRevenue, computeTotalTimeTaken.
  simpl. rewrite filter_app, !fold_left_app. simpl.
  destruct (isDone (payload_status payload)); split; reflexivity.
Qed.

(** ** The average ROI is a number *)

Lemma Zdigits2_le (m k : Z) : 0 < m -> m < 2 ^ k -> 0 <= k -> Zdigits2 m <= k.
Proof.
  intros Hm Hk K. destruct m as [|p|p]; try lia. cbn [Zdigits2].
  pose proof (digits2_bounds p) as [Lo _].
  destruct (Z.le_gt_cases (Z.pos (digits2_pos p)) k) as [H|H]; [exact H|].
  exfalso.
  assert (2 ^ k <= 2 ^ (Z.pos (digits2_pos p) - 1))
    by (apply Z.pow_le_mono_r; lia).
  lia.
Qed.

Lemma shr_fexp_bounds m e l :
  0 < m -> -1074 <= e ->
  0 < shr_m (fst (shr_fexp prec emax m e l)) <= m
  /\ e <= snd (shr_fexp prec emax m e l)
  /\ snd (shr_fexp prec emax m e l) <= Z.max e (Zdigits2 m + e - 53).
Proof.
  intros Hm He.
  pose proof (shr_fexp_pos m e l Hm He) as [P _].
  split; [split; [exact P|]|].
  - unfold shr_fexp, shr.
    destruct (fexp prec emax (Zdigits2 m + e) - e) as [|n|n]; cbn [fst];
      rewrite ?shr_m_of_loc; try lia.
    rewrite iter_shr_1_m by (rewrite shr_m_of_loc; lia).
    rewrite shr_m_of_loc.
    apply Z.div_le_upper_bound; [apply Z.pow_pos_nonneg; lia|].
    assert (0 < 2 ^ Z.pos n) by (apply Z.pow_pos_nonneg; lia). nia.
  - unfold shr_fexp, shr.
    destruct (fexp prec emax (Zdigits2 m + e) - e) as [|n|n] eqn:E;
      cbn [snd]; unfold fexp, SpecFloat.emin, prec, emax in E; lia.
Qed.

Lemma round_nearest_even_le m l : 0 < m -> round_nearest_even m l <= m + 1.
Proof.
  intros H. unfold round_nearest_even.
  destruct l as [|[]]; try lia. destruct (Z.even m); lia.
Qed.

Lemma binary_round_aux_finite s m e l :
  0 < m < 2 ^ 63 -> -1074 <= e <= 0 ->
  exists m' e', binary_round_aux prec emax s m e l = S754_finite s m' e'.
Proof.
  intros [Hm Hu] [He He0]. unfold binary_round_aux.
  pose proof (shr_fexp_bounds m e l Hm He) as ([P1 U1] & L1 & E1).
  pose proof (Zdigits2_le m 63 Hm Hu ltac:(lia)) as D.
  destruct (shr_fexp prec emax m e l) as [mrs' e']. cbn [fst snd] in *.
  pose proof (round_nearest_even_pos _ (loc_of_shr_record mrs') P1) as P2.
  pose proof (round_nearest_even_le _ (loc_of_shr_record mrs') P1) as U2.
  set (m1 := round_nearest_even (shr_m mrs') (loc_of_shr_record mrs')) in *.
  pose proof (shr_fexp_bounds m1 e' loc_Exact P2 ltac:(lia))
    as ([P3 U3] & L3 & E3).
  assert (D1 : Zdigits2 m1 <= 64).
  { apply Zdigits2_le; lia. }
  destruct (shr_fexp prec emax m1 e' loc_Exact) as [mrs'' e''].
  cbn [fst snd] in *.
  destruct (shr_m mrs'') as [|q|q]; try lia.
  destruct (Z.leb_spec e'' (emax - prec)) as [H|H].
  - eauto.
  - unfold emax, prec in H. lia.
Qed.

Lemma binary_round_finite s p :
  Zpos p < 2 ^ 63 ->
  exists m' e', binary_round prec emax s p 0 = S754_finite s m' e'.
Proof.
  intros Hp. unfold binary_round.
  pose proof (digits2_bounds p) as [Lo Up].
  set (d := Z.pos (digits2_pos p)) in *.
  assert (Hd : 0 < d) by (unfold d; lia).
  unfold shl_align.
  destruct (fexp prec emax (d + 0) - 0) as [|k|k] eqn:E.
  - apply binary_round_aux_finite; lia.
  - apply binary_round_aux_finite; lia.
  - unfold fexp, SpecFloat.emin, prec, emax in *.
    apply binary_round_aux_finite; [|lia].
    rewrite iter_xO. split; [lia|].
    assert (Hk : Z.pos k = 53 - d) by lia.
    assert (Z.pos p * 2 ^ Z.pos k < 2 ^ d * 2 ^ Z.pos k).
    { apply Z.mul_lt_mono_pos_r; [apply Z.pow_pos_nonneg; lia | exact Up]. }
    rewrite <- Z.pow_add_r in H by lia.
    replace (d + Z.pos k) with 53 in H by lia.
    assert (2 ^ 53 < 2 ^ 63) by (apply Z.pow_lt_mono_r; lia). lia.
Qed.

Lemma Number_ofNat_finite (n : nat) :
  (0 < n)%nat -> Z.of_nat n < 2 ^ 63 ->
  exists m e, Prim2SF (Number_ofNat n) = S754_finite false m e.
Proof.
  intros Hn Hu. unfold Number_ofNat. rewrite of_uint63_spec.
  rewrite Uint63.of_Z_spec.
  rewrite Z.mod_small by (change Uint63.wB with (2 ^ 63); lia).
  destruct (Z.of_nat n) as [|p|p] eqn:E; try lia.
  cbn [binary_normalize]. now apply binary_round_finite.
Qed.

Lemma add_not_nan x y :
  is_nan x = false -> Num.isFinite y = true -> is_nan (x + y) = false.
Proof.
  intros Nx Fy. apply is_nan_false in Nx. apply isFinite_spec in Fy.
  apply not_nan_is_nan. rewrite add_spec. unfold SF64add, SFadd.
  destruct (Prim2SF x) as [sx|sx| |sx mx ex]; try discriminate;
  destruct (Prim2SF y) as [sy|sy| |sy my ey]; try contradiction;
    try reflexivity.
  - destruct sx, sy; reflexivity.
  - apply binary_normalize_not_nan.
Qed.

Lemma div_finite_not_nan x d m e :
  is_nan x = false -> Prim2SF d = S754_finite false m e ->
  is_nan (x / d) = false.
Proof.
  intros Nx Hd. apply is_nan_false in Nx. apply not_nan_is_nan.
  rewrite div_spec, Hd.
  destruct (Prim2SF x) as [sx|sx| |sx mx ex]; try discriminate;
    try reflexivity.
  apply SFdiv_finite_not_nan.
Qed.

Lemma finiteNumbers_finite (l : list (option float)) :
  Forall (fun x => Num.isFinite x = true) (finiteNumbers l).
Proof.
  induction l as [|[x|] l IH]; simpl; auto.
  destruct (Num.isFinite x) eqn:F; auto.
Qed.

Lemma sum_not_nan (rs : list float) (acc : float) :
  is_nan acc = false -> Forall (fun x => Num.isFinite x = true) rs ->
  is_nan (fold_left (fun s r => (s + r)%float) rs acc) = false.
Proof.
  intros N F. revert acc N. induction F as [|r rs Hr _ IH]; intros acc N.
  - exact N.
  - simpl. apply IH. now apply add_not_nan.
Qed.

(** X13: the average ROI is never NaN, whatever the tasks are (for a
    list of fewer than 2^63 tasks; an array has fewer than 2^32). *)
Theorem computeAverageROI_not_nan (l : list Task) :
  Z.of_nat (List.length l) < 2 ^ 63 ->
  is_nan (computeAverageROI l) = false.
Proof.
  intros Hl. unfold computeAverageROI.
  set (rois := finiteNumbers (map taskROI l)).
  assert (Hr : (List.length rois <= List.length l)%nat).
  { unfold rois. rewrite <- (length_map taskROI l).
    generalize (map taskROI l). intros v.
    induction v as [|[x|] v IH]; simpl; try lia.
    destruct (Num.isFinite x); simpl; lia. }
  destruct (Nat.eqb_spec (List.length rois) 0) as [E|E]; [reflexivity|].
  destruct (Number_ofNat_finite (List.length rois)) as (m & e & Hd);
    [lia | lia |].
  eapply div_finite_not_nan; [|exact Hd].
  apply sum_not_nan; [reflexivity | apply finiteNumbers_finite].
Qed.

Lemma computeAverageROI_not_nan_witness :
  is_nan (computeAverageROI SampleFunnel.board) = false.
Proof.
  apply computeAverageROI_not_nan. vm_compute. reflexivity.
Defined.

(** ** Week numbers *)

Lemma thursdayOf_week (d : Z) :
  thursdayOf d = 7 * ((JSDate.Day d + 3) / 7) * JSDate.msPerDay.
Proof.
  unfold thursdayOf, JSDate.WeekDay. f_equal.
  Z.div_mod_to_equations. lia.
Qed.

(** X14: for a date from 1970 on (a time value from 0 to 8.64e15, the
    last one there is), [getWeekNumber] returns a number from 1 to 53,
    the same for all instants of one week, Monday to Sunday. *)
Theorem getWeekNumber_of_week (d d' : Z) :
  0 <= d <= JSDate.maxTime -> 0 <= d' <= JSDate.maxTime ->
  (exists w, getWeekNumber (Some d) = Some w /\ 1 <= w <= 53)
  /\ ((JSDate.Day d + 3) / 7 = (JSDate.Day d' + 3) / 7 ->
      getWeekNumber (Some d) = getWeekNumber (Some d')).
Proof.
  intros Hd Hd'. rewrite !getWeekNumber_iso by assumption.
  unfold isoWeekNumber. split.
  - eexists. split; [reflexivity|].
    pose proof (DayWithinYear_range (thursdayOf d)) as R.
    assert (Y : JSDate.DaysInYear (JSDate.YearFromTime (thursdayOf d)) <= 366).
    { unfold JSDate.DaysInYear.
      repeat match goal with
             | |- context [if ?b then _ else _] => destruct b
             end; lia. }
    Z.div_mod_to_equations. lia.
  - intros W. now rewrite !thursdayOf_week, W.
Qed.

Lemma getWeekNumber_of_week_witness :
  getWeekNumber (Some 1709717400000) = getWeekNumber (Some 1709510400000).
Proof.
  apply (getWeekNumber_of_week 1709717400000 1709510400000);
    try (unfold JSDate.maxTime; lia).
  reflexivity.
Defined.

(** ** Forecast *)

Lemma Math_max_0_nonneg (v : float) :
  is_nan (Math_max 0 v) = true \/ (0 <=? Math_max 0 v)%float = true.
Proof.
  unfold Math_max. change (is_nan 0) with false. cbn [orb].
  destruct (is_nan v) eqn:N; [left; reflexivity|]. right.
  destruct (0 <? v)%float eqn:P.
  - apply (leb_ford 0 v eq_refl N). left.
    now apply (ltb_ford 0 v eq_refl N).
  - destruct (v <? 0)%float; reflexivity.
Qed.

Example computeForecast_linear :
  map point_revenue (computeForecast SampleForecast.linear 2)
  = [500%float; 600%float].
Proof. vm_compute. reflexivity. Qed.

(** X15: [computeForecast] returns no point for a series of fewer than
    two weeks; otherwise it returns one point per week of the horizon,
    labelled [+1], [+2], ... in this order, and no projected revenue is
    negative. *)
Theorem computeForecast_points (weekly : list WeekPoint) (h : nat) :
  ((List.length weekly < 2)%nat -> computeForecast weekly h = [])
  /\ ((2 <= List.length weekly)%nat ->
      map point_week (computeForecast weekly h)
      = map (fun i => "+" ++ JSDate.show (Z.of_nat i))%string (seq 1 h)
      /\ List.length (computeForecast weekly h) = h)
  /\ (forall p, In p (computeForecast weekly h) ->
        is_nan (point_revenue p) = true
        \/ (0 <=? point_revenue p)%float = true).
Proof.
  unfold computeForecast.
  destruct (Nat.ltb_spec (List.length weekly) 2) as [L|L].
  - repeat split; try lia. intros p [].
  - split; [lia|]. split.
    + intros _. split.
      * rewrite map_map. reflexivity.
      * rewrite length_map. apply length_seq.
    + intros p Hp. apply in_map_iff in Hp. destruct Hp as (i & <- & _).
      cbn [point_revenue]. apply Math_max_0_nonneg.
Qed.

Lemma computeForecast_points_witness :
  List.length (computeForecast SampleForecast.linear 4) = 4%nat.
Proof.
  apply (proj1 (proj2 (computeForecast_points SampleForecast.linear 4))).
  simpl. lia.
Defined.

(** ** CSV export *)

Import Csv.

Lemma list_ascii_of_string_app (a b : string) :
  list_ascii_of_string (a ++ b)
  = list_ascii_of_string a ++ list_ascii_of_string b.
Proof. induction a as [|c a IH]; cbn; [reflexivity | now rewrite IH]. Qed.

Lemma special_false (c : ascii) :
  special c = false ->
  Ascii.eqb c quote = false /\ Ascii.eqb c comma = false
  /\ Ascii.eqb c newline = false.
Proof.
  unfold special. intros H.
  apply orb_false_iff in H as [H H3]. apply orb_false_iff in H as [H1 H2].
  auto.
Qed.

Lemma hasSpecial_doubleQuotes (v : string) :
  hasSpecial (doubleQuotes v) = hasSpecial v.
Proof.
  induction v as [|c v IH]; [reflexivity|].
  cbn [doubleQuotes]. destruct (Ascii.eqb c quote) eqn:E.
  - apply Ascii.eqb_eq in E. subst c. reflexivity.
  - cbn [hasSpecial]. now rewrite IH.
Qed.

Lemma doubleQuotes_plain (v : string) :
  hasSpecial v = false -> doubleQuotes v = v.
Proof.
  induction v as [|c v IH]; [reflexivity|].
  cbn [hasSpecial doubleQuotes]. intros H.
  apply orb_false_iff in H as [H1 H2].
  apply special_false in H1 as (-> & _ & _). now rewrite IH.
Qed.

Lemma parse_plain (s : string) :
  hasSpecial s = false ->
  forall rest field record records,
    parse (list_ascii_of_string s ++ rest) false field record records
    = parse rest false (rev (list_ascii_of_string s) ++ field) record records.
Proof.
  induction s as [|c s IH]; intros H rest field record records.
  - reflexivity.
  - cbn [hasSpecial] in H. apply orb_false_iff in H as [H1 H2].
    apply special_false in H1 as (E1 & E2 & E3).
    cbn [list_ascii_of_string app parse]. rewrite E1, E2, E3.
    rewrite (IH H2). cbn [rev]. now rewrite <- app_assoc.
Qed.

Lemma parse_quoted (v : string) :
  forall rest field record records,
    noQuoteAhead rest ->
    parse (list_ascii_of_string (doubleQuotes v) ++ quote :: rest)
      true field record records
    = parse rest false (rev (list_ascii_of_string v) ++ field) record records.
Proof.
  induction v as [|c v IH]; intros rest field record records Hr.
  - cbn [doubleQuotes list_ascii_of_string app parse rev].
    rewrite Ascii.eqb_refl. destruct rest as [|c' rest']; [reflexivity|].
    cbn in Hr. now rewrite Hr.
  - cbn [doubleQuotes]. destruct (Ascii.eqb c quote) eqn:E.
    + apply Ascii.eqb_eq in E. subst c.
      cbn [list_ascii_of_string app parse]. rewrite !Ascii.eqb_refl.
      rewrite (IH _ _ _ _ Hr). cbn [rev]. now rewrite <- app_assoc.
    + cbn [list_ascii_of_string app parse]. rewrite E.
      rewrite (IH _ _ _ _ Hr). cbn [rev]. now rewrite <- app_assoc.
Qed.

Lemma parse_field (f : string) rest field record records :
  noQuoteAhead rest ->
  parse (list_ascii_of_string (escapeCsv f) ++ rest) false field record records
  = parse rest false (rev (list_ascii_of_string f) ++ field) record records.
Proof.
  intros Hr. unfold escapeCsv. cbv zeta.
  destruct (hasSpecial (doubleQuotes f)) eqn:E.
  - cbn [list_ascii_of_string app parse]. rewrite Ascii.eqb_refl.
    rewrite list_ascii_of_string_app. cbn [list_ascii_of_string].
    rewrite <- app_assoc. cbn [app]. now apply parse_quoted.
  - rewrite hasSpecial_doubleQuotes in E.
    rewrite (doubleQuotes_plain _ E). now apply parse_plain.
Qed.

Lemma separatorAhead_noQuote rest : separatorAhead rest -> noQuoteAhead rest.
Proof. destruct rest as [|c r]; cbn; [auto|]. now intros ->. Qed.

Lemma last_cons_default {A} (d a : A) (l : list A) :
  last (a :: l) d = last l a.
Proof.
  revert d a. induction l as [|b l IH]; intros d a; [reflexivity|].
  change (last (a :: b :: l) d) with (last (b :: l) d).
  change (last (b :: l) a) with (last (b :: l) a).
  now rewrite (IH d b), (IH a b).
Qed.

Lemma parse_record (f : string) (fs : list string) :
  forall rest record records,
    separatorAhead rest ->
    parse (list_ascii_of_string (join "," (map escapeCsv (f :: fs))) ++ rest)
      false [] record records
    = parse rest false (rev (list_ascii_of_string (last fs f)))
        (rev (removelast (f :: fs)) ++ record) records.
Proof.
  revert f. induction fs as [|g fs IH]; intros f rest record records Hr.
  - cbn [map join last removelast rev app].
    rewrite parse_field by now apply separatorAhead_noQuote.
    now rewrite app_nil_r.
  - change (join "," (map escapeCsv (f :: g :: fs)))
      with (escapeCsv f ++ "," ++ join "," (map escapeCsv (g :: fs)))%string.
    rewrite !list_ascii_of_string_app, <- !app_assoc.
    rewrite parse_field by reflexivity.
    cbn [list_ascii_of_string app parse].
    change (Ascii.eqb ","%char quote) with false.
    change (Ascii.eqb ","%char comma) with true. cbv iota.
    rewrite (IH g rest _ records Hr).
    rewrite app_nil_r, rev_involutive, string_of_list_ascii_of_string.
    rewrite (last_cons_default f g fs).
    change (removelast (f :: g :: fs)) with (f :: removelast (g :: fs)).
    cbn [rev]. now rewrite <- app_assoc.
Qed.

Lemma parse_document (r : list string) (rs : list (list string)) :
  r <> [] -> Forall (fun r' => r' <> []) rs ->
  forall records,
    parse
      (list_ascii_of_string
         (join (String newline EmptyString) (map encode (r :: rs))))
      false [] [] records
    = rev records ++ r :: rs.
Proof.
  revert r. induction rs as [|r' rs IH]; intros r Hr Hrs records.
  - destruct r as [|f fs]; [congruence|].
    cbn [map join]. unfold encode.
    rewrite <- (app_nil_r (list_ascii_of_string _)).
    rewrite parse_record by exact I.
    cbn [parse]. rewrite app_nil_r.
    rewrite rev_involutive, string_of_list_ascii_of_string.
    cbn [rev]. rewrite rev_involutive.
    rewrite <- (last_cons_default f f fs).
    now rewrite <- app_removelast_last by discriminate.
  - destruct r as [|f fs]; [congruence|].
    inversion Hrs as [|? ? Hr' Hrs']; subst.
    change (join (String newline EmptyString) (map encode ((f :: fs) :: r' :: rs)))
      with (encode (f :: fs) ++ String newline EmptyString
              ++ join (String newline EmptyString) (map encode (r' :: rs)))%string.
    rewrite !list_ascii_of_string_app. unfold encode at 1.
    rewrite parse_record by reflexivity.
    cbn [list_ascii_of_string app parse].
    change (Ascii.eqb newline quote) with false.
    change (Ascii.eqb newline comma) with false.
    rewrite Ascii.eqb_refl. cbv iota.
    rewrite (IH r' Hr' Hrs').
    rewrite app_nil_r, rev_involutive, string_of_list_ascii_of_string.
    cbn [rev]. rewrite rev_involutive.
    rewrite <- (last_cons_default f f fs).
    rewrite <- app_removelast_last by discriminate.
    now rewrite <- app_assoc.
Qed.

Lemma escapeCsv_plain (v : string) :
  hasSpecial v = false -> escapeCsv v = v.
Proof.
  intros H. unfold escapeCsv. cbv zeta.
  now rewrite hasSpecial_doubleQuotes, H, doubleQuotes_plain.
Qed.

Lemma doubleQuotes_length (v : string) :
  (String.length v <= String.length (doubleQuotes v))%nat.
Proof.
  induction v as [|c v IH]; cbn [doubleQuotes]; [apply Nat.le_refl|].
  destruct (Ascii.eqb c quote); cbn [String.length]; lia.
Qed.

Lemma length_append (a b : string) :
  String.length (a ++ b) = (String.length a + String.length b)%nat.
Proof. induction a as [|c a IH]; cbn; [reflexivity | now rewrite IH]. Qed.

(** X16: a field written by [escapeCsv] reads back, for a reader that
    splits at commas and line feeds and unquotes as RFC 4180 says, as the
    field it was given, whatever characters it holds; and [escapeCsv]
    leaves a field as it is exactly when the field has no double quote,
    comma or line feed. *)
Theorem escapeCsv_round_trip (v : string) :
  parseCSV (escapeCsv v) = [[v]]
  /\ (escapeCsv v = v <-> hasSpecial v = false).
Proof.
  split.
  - unfold parseCSV.
    rewrite <- (app_nil_r (list_ascii_of_string (escapeCsv v))).
    rewrite parse_field by exact I. cbn [parse rev app].
    now rewrite app_nil_r, rev_involutive, string_of_list_ascii_of_string.
  - split; [|apply escapeCsv_plain].
    intros E. destruct (hasSpecial v) eqn:H; [exfalso | reflexivity].
    unfold escapeCsv in E. cbv zeta in E.
    rewrite hasSpecial_doubleQuotes, H in E.
    apply (f_equal String.length) in E.
    cbn [String.length] in E. rewrite length_append in E.
    pose proof (doubleQuotes_length v). cbn [String.length] in E. lia.
Qed.

(** X17: the document [toCSV] writes reads back, for the same reader, as
    the header record followed by one record of seven fields for each
    task, in the order of the tasks, with every title and note as it was
    stored.  The ids and the numbers are written without escaping, so they
    must be free of double quotes, commas and line feeds. *)
Theorem toCSV_round_trip (Number_toString : float -> string)
    (tasks : list Task) :
  (forall t, In t tasks ->
     hasSpecial (id t) = false
     /\ hasSpecial (Number_toString (revenue t)) = false
     /\ hasSpecial (Number_toString (timeTaken t)) = false) ->
  parseCSV (toCSV Number_toString tasks)
  = CSV_HEADERS :: map (fields Number_toString) tasks.
Proof.
  intros H. unfold parseCSV, toCSV.
  assert (E : map (fun r => join "," r) (map (row Number_toString) tasks)
              = map encode (map (fields Number_toString) tasks)).
  { rewrite !map_map. apply map_ext_in. intros t Ht.
    destruct (H t Ht) as (H1 & H2 & H3).
    unfold encode, row, fields. cbn [map].
    rewrite (escapeCsv_plain _ H1), (escapeCsv_plain _ H2),
      (escapeCsv_plain _ H3).
    rewrite (escapeCsv_plain (Priority_name (priority t)))
      by (destruct (priority t); reflexivity).
    rewrite (escapeCsv_plain (Status_name (status t)))
      by (destruct (status t); reflexivity).
    reflexivity. }
  rewrite E.
  change (join "," CSV_HEADERS) with (encode CSV_HEADERS).
  change (encode CSV_HEADERS :: map encode (map (fields Number_toString) tasks))
    with (map encode (CSV_HEADERS :: map (fields Number_toString) tasks)).
  rewrite parse_document; [reflexivity | discriminate |].
  apply Forall_forall. intros r Hr. apply in_map_iff in Hr as (t & <- & _).
  discriminate.
Qed.

Lemma toCSV_round_trip_witness :
  parseCSV (toCSV SampleCsv.showInteger SampleCsv.board)
  = CSV_HEADERS :: map (fields SampleCsv.showInteger) SampleCsv.board.
Proof.
  apply (toCSV_round_trip SampleCsv.showInteger SampleCsv.board).
  intros t [<- | [<- | []]]; vm_compute; auto.
Defined.

(** ** The task form *)

Lemma existsb_eqb_In (x : string) (l : list string) :
  existsb (fun t => (t =? x)%string) l = true <-> In x l.
Proof.
  rewrite existsb_exists. split.
  - intros (t & Ht & E). apply String.eqb_eq in E. now subst.
  - intros H. exists x. split; [exact H | apply String.eqb_refl].
Qed.

Lemma duplicateTitle_new (trim toLowerCase : string -> string)
    (f : FormState) (existingTitles : list string) :
  toLowerCase (trim (form_title f)) <> EmptyString ->
  In (toLowerCase (trim (form_title f))) (map toLowerCase existingTitles) ->
  duplicateTitle trim toLowerCase f existingTitles None = true.
Proof.
  intros E H. unfold duplicateTitle. cbv zeta.
  apply String.eqb_neq in E. rewrite E. now apply existsb_eqb_In.
Qed.

(** X18: when a task is added, the title is a duplicate exactly when,
    trimmed and in lower case, it is not empty and is the lower-case form
    of an existing title.  When a task is edited, the title, trimmed and
    in lower case, must also differ from the lower-case form of the
    title the task has in the store, which is not trimmed. *)
Theorem duplicateTitle_spec (trim toLowerCase : string -> string)
    (f : FormState) (existingTitles : list string) (initial : option Task) :
  let current := toLowerCase (trim (form_title f)) in
  duplicateTitle trim toLowerCase f existingTitles initial = true
  <-> current <> EmptyString
      /\ In current (map toLowerCase existingTitles)
      /\ match initial with
         | Some t0 => current <> toLowerCase (title t0)
         | None => True
         end.
Proof.
  cbv zeta. unfold duplicateTitle. cbv zeta.
  set (current := toLowerCase (trim (form_title f))).
  destruct (current =? EmptyString)%string eqn:E.
  - apply String.eqb_eq in E. split; [discriminate | tauto].
  - apply String.eqb_neq in E. rewrite existsb_eqb_In.
    destruct initial as [t0|].
    + rewrite !in_map_iff. split.
      * intros (t & Ht & Hin). apply filter_In in Hin as [Hin Hne].
        apply negb_true_iff, String.eqb_neq in Hne.
        repeat split; [exact E | now exists t | congruence].
      * intros (_ & (t & Ht & Hin) & Hne). exists t. split; [exact Ht|].
        apply filter_In. split; [exact Hin|].
        apply negb_true_iff, String.eqb_neq. congruence.
    + tauto.
Qed.

Lemma duplicateTitle_spec_witness :
  duplicateTitle SampleForm.trim SampleForm.toLowerCase
    (mkForm " ALPHA " 1 1 Low Todo EmptyString) ["Alpha"; "Beta"] None = true
  /\ duplicateTitle SampleForm.trim SampleForm.toLowerCase
       (mkForm " ALPHA " 1 1 Low Todo EmptyString) ["Alpha"; "Beta"]
       (Some Sample.A) = false.
Proof.
  split.
  - apply (duplicateTitle_spec SampleForm.trim SampleForm.toLowerCase
             (mkForm " ALPHA " 1 1 Low Todo EmptyString) ["Alpha"; "Beta"]
             None).
    vm_compute. repeat split; [discriminate | auto].
  - destruct (duplicateTitle SampleForm.trim SampleForm.toLowerCase
                (mkForm " ALPHA " 1 1 Low Todo EmptyString)
                ["Alpha"; "Beta"] (Some Sample.A)) eqn:E; [|reflexivity].
    apply (duplicateTitle_spec SampleForm.trim SampleForm.toLowerCase
             (mkForm " ALPHA " 1 1 Low Todo EmptyString) ["Alpha"; "Beta"]
             (Some Sample.A)) in E.
    destruct E as (_ & _ & E). exfalso. apply E. reflexivity.
Defined.

(** X19: a form that can be submitted for a new task gives a payload that
    [addTask] stores as it was entered: the title trimmed and not empty,
    the revenue at least 0, the time above 0 and not replaced by 1, no
    id of its own.  If the form was given the titles of the store and no
    two stored titles were equal in lower case, none are afterwards. *)
Theorem submitted_form_is_stored_as_entered
    (trim toLowerCase : string -> string)
    (f : FormState) (s : State) (now uuid : string) :
  (forall x, toLowerCase x = EmptyString -> x = EmptyString) ->
  canSubmit trim toLowerCase f (map title (tasks s)) None = true ->
  exists t,
    tasks (addTask now uuid (handleSubmit trim f None) s) = tasks s ++ [t]
    /\ id t = uuid
    /\ title t = trim (form_title f) /\ title t <> EmptyString
    /\ revenue t = form_revenue f /\ (0 <=? revenue t)%float = true
    /\ timeTaken t = form_timeTaken f /\ positiveTime t = true
    /\ (NoDup (titleKeys toLowerCase (tasks s)) ->
        NoDup (titleKeys toLowerCase (tasks s ++ [t]))).
Proof.
  intros Hlow H. unfold canSubmit in H.
  apply andb_true_iff in H as [H Ht]. apply andb_true_iff in H as [H Hr].
  apply andb_true_iff in H as [Hn Hd].
  apply negb_true_iff in Hn, Hd. apply String.eqb_neq in Hn.
  unfold addTask. cbn [handleSubmit payload_id payload_title payload_revenue
    payload_timeTaken payload_priority payload_status payload_notes
    option_map orElse tasks]. rewrite Ht.
  eexists. split; [reflexivity|].
  cbn [id title revenue timeTaken]. unfold positiveTime. cbn [timeTaken].
  repeat split; auto.
  intros ND. unfold titleKeys. rewrite map_app. cbn [map title].
  apply NoDup_app; [exact ND | repeat constructor; intros [] |].
  intros k Hk [<- | []].
  assert (D : duplicateTitle trim toLowerCase f (map title (tasks s)) None
              = true).
  { apply duplicateTitle_new.
    - intros E. apply Hn, Hlow, E.
    - unfold titleKeys in Hk. now rewrite map_map. }
  congruence.
Qed.

Lemma SampleForm_toLowerCase_empty (x : string) :
  SampleForm.toLowerCase x = EmptyString -> x = EmptyString.
Proof. destruct x; [reflexivity | discriminate]. Qed.

Lemma submitted_form_is_stored_as_entered_witness :
  exists t,
    tasks (addTask Sample.t1 "u"
             (handleSubmit SampleForm.trim SampleForm.entered None)
             Sample.pending)
    = tasks Sample.pending ++ [t]
    /\ id t = "u"
    /\ title t = SampleForm.trim (form_title SampleForm.entered)
    /\ title t <> EmptyString
    /\ revenue t = form_revenue SampleForm.entered
    /\ (0 <=? revenue t)%float = true
    /\ timeTaken t = form_timeTaken SampleForm.entered
    /\ positiveTime t = true
    /\ (NoDup (titleKeys SampleForm.toLowerCase (tasks Sample.pending)) ->
        NoDup (titleKeys SampleForm.toLowerCase
                 (tasks Sample.pending ++ [t]))).
Proof.
  apply (submitted_form_is_stored_as_entered SampleForm.trim
           SampleForm.toLowerCase SampleForm.entered Sample.pending
           Sample.t1 "u" SampleForm_toLowerCase_empty).
  vm_compute. reflexivity.
Defined.

Example handleSubmit_entered :
  handleSubmit SampleForm.trim SampleForm.entered (Some Sample.A)
  = mkPayload (Some "a") "Gamma" 90 3 Low Todo None.
Proof. vm_compute. reflexivity. Qed.

(** ** Cohort revenue *)

Lemma hasBar_app (a b : string) :
  hasBar (a ++ b) = hasBar a || hasBar b.
Proof.
  induction a as [|c a IH]; [reflexivity|].
  cbn [String.append hasBar]. now rewrite IH, orb_assoc.
Qed.

Lemma hasBar_uint (d : Decimal.uint) :
  hasBar (NilEmpty.string_of_uint d) = false.
Proof. induction d; cbn [NilEmpty.string_of_uint hasBar]; auto. Qed.

Lemma hasBar_show (z : Z) : hasBar (JSDate.show z) = false.
Proof.
  unfold JSDate.show, NilZero.string_of_int, NilZero.string_of_uint.
  destruct (Z.to_int z) as [d|d]; destruct d; try reflexivity;
    cbn [hasBar]; rewrite ?hasBar_uint; reflexivity.
Qed.

Lemma hasBar_showNumber (n : option Z) :
  hasBar (JSDate.showNumber n) = false.
Proof. destruct n; [apply hasBar_show | reflexivity]. Qed.

Lemma hasBar_weekKey (d : option Z) : hasBar (weekKey d) = false.
Proof.
  unfold weekKey. now rewrite !hasBar_app, !hasBar_showNumber.
Qed.

Lemma split_bar_plain (p : string) : hasBar p = false -> split_bar p = [p].
Proof.
  induction p as [|c p IH]; [reflexivity|].
  cbn [hasBar split_bar]. intros H. apply orb_false_iff in H as [-> H].
  now rewrite (IH H).
Qed.

Lemma split_bar_pair (w p : string) :
  hasBar w = false -> hasBar p = false ->
  split_bar (w ++ "|" ++ p) = [w; p].
Proof.
  intros Hw Hp. induction w as [|c w IH].
  - cbn. now rewrite (split_bar_plain p Hp).
  - cbn [hasBar] in Hw. apply orb_false_iff in Hw as [Hc Hw].
    cbn [String.append split_bar]. rewrite Hc.
    cbn [String.append] in IH. now rewrite (IH Hw).
Qed.

Lemma Priority_name_inj (p q : Priority) :
  Priority_name p = Priority_name q -> p = q.
Proof. destruct p, q; intros H; try reflexivity; discriminate. Qed.

Lemma Priority_eqb_eq (p q : Priority) : Priority_eqb p q = true <-> p = q.
Proof. destruct p, q; cbn; split; intros H; congruence. Qed.

Section CohortFacts.
Variable localeCompare : string -> string -> Z.
Variable Date_parse : string -> option Z.
Hypothesis localeCompare_antisym :
  forall a b, 0 < localeCompare a b -> localeCompare b a <= 0.
Hypothesis localeCompare_trans :
  forall a b c,
    localeCompare a b <= 0 -> localeCompare b c <= 0 ->
    localeCompare a c <= 0.

Lemma split_cohortKey (t : Task) :
  split_bar (cohortKey Date_parse t)
  = [weekKey (JSDate.newDate Date_parse (createdAt t)); Priority_name (priority t)].
Proof.
  apply split_bar_pair; [apply hasBar_weekKey|].
  destruct (priority t); reflexivity.
Qed.

Lemma cohortKey_eqb (t u : Task) :
  (cohortKey Date_parse t =? cohortKey Date_parse u)%string
  = inCohort Date_parse (weekKey (JSDate.newDate Date_parse (createdAt u))) (priority u) t.
Proof.
  unfold inCohort.
  destruct (String.eqb_spec (cohortKey Date_parse t) (cohortKey Date_parse u))
    as [E|E].
  - apply (f_equal split_bar) in E. rewrite !split_cohortKey in E.
    injection E as E1 E2. apply Priority_name_inj in E2.
    rewrite E1, E2, String.eqb_refl. symmetry.
    now apply Priority_eqb_eq.
  - destruct (String.eqb_spec (weekKey (JSDate.newDate Date_parse (createdAt t)))
                (weekKey (JSDate.newDate Date_parse (createdAt u)))) as [E1|E1];
      [|reflexivity].
    destruct (Priority_eqb (priority t) (priority u)) eqn:E2; [|reflexivity].
    apply Priority_eqb_eq in E2. exfalso. apply E.
    unfold cohortKey. now rewrite E1, E2.
Qed.

Lemma addToCohort_get k m t :
  Map_get k (addToCohort Date_parse m t)
  = if (cohortKey Date_parse t =? k)%string
    then credit (Map_get k m) t else Map_get k m.
Proof.
  unfold addToCohort. cbv zeta. rewrite Map_get_set.
  destruct (String.eqb_spec (cohortKey Date_parse t) k) as [E|E];
    [|reflexivity].
  now rewrite E.
Qed.

Lemma fold_addToCohort_get k l m :
  Map_get k (fold_left (addToCohort Date_parse) l m)
  = fold_left credit
      (filter (fun t => (cohortKey Date_parse t =? k)%string) l)
      (Map_get k m).
Proof.
  revert m. induction l as [|t l IH]; intros m; simpl; [reflexivity|].
  rewrite IH, addToCohort_get.
  destruct (cohortKey Date_parse t =? k)%string; reflexivity.
Qed.

Lemma fold_addToCohort_NoDup l m :
  NoDup (map fst m) ->
  NoDup (map fst (fold_left (addToCohort Date_parse) l m)).
Proof.
  revert m. induction l as [|t l IH]; intros m H; simpl; [exact H|].
  apply IH. now apply Map_set_NoDup.
Qed.

Lemma fold_credit_Some ts r :
  fold_left credit ts (Some r)
  = Some (fold_left (fun s t => (s + revenue t)%float) ts r).
Proof.
  revert r. induction ts as [|t ts IH]; intros r; simpl; [reflexivity|].
  unfold credit at 2. cbn [orElse]. now rewrite IH.
Qed.

Lemma fold_credit_None ts :
  fold_left credit ts None
  = match ts with
    | [] => None
    | _ :: _ => Some (sumRevenue ts)
    end.
Proof.
  destruct ts as [|t ts]; [reflexivity|].
  simpl. unfold credit at 2. cbn [orElse]. now rewrite fold_credit_Some.
Qed.

Lemma computeCohortRevenue_cohorts l :
  let out := computeCohortRevenue localeCompare Date_parse l in
  StronglySorted
    (fun a b => localeCompare (cohort_week a) (cohort_week b) <= 0) out
  /\ NoDup (map (fun e => (cohort_week e, cohort_priority e)) out)
  /\ (forall e, In e out ->
        exists t,
          In t l
          /\ cohort_week e = weekKey (JSDate.newDate Date_parse (createdAt t))
          /\ cohort_priority e = Some (Priority_name (priority t))
          /\ cohort_revenue e
             = sumRevenue
                 (filter (inCohort Date_parse (cohort_week e) (priority t)) l))
  /\ (forall t, In t l ->
        exists e,
          In e out
          /\ cohort_week e = weekKey (JSDate.newDate Date_parse (createdAt t))
          /\ cohort_priority e = Some (Priority_name (priority t))).
Proof.
  cbv zeta. unfold computeCohortRevenue.
  set (mp := fold_left (addToCohort Date_parse) l []).
  set (cmpW := fun a b : CohortEntry =>
                 localeCompare (cohort_week a) (cohort_week b)).
  set (mk := fun e : string * float =>
               let parts := split_bar (fst e) in
               {| cohort_week := nth 0 parts EmptyString;
                  cohort_priority := nth_error parts 1;
                  cohort_revenue := snd e |}).
  assert (HP : Permutation (map mk mp) (Array_sort cmpW (map mk mp)))
    by apply Array_sort_perm.
  assert (HN : NoDup (map fst mp)).
  { apply fold_addToCohort_NoDup. constructor. }
  assert (HG : forall k, Map_get k mp
                 = match filter
                           (fun t => (cohortKey Date_parse t =? k)%string) l
                   with
                   | [] => None
                   | ts => Some (sumRevenue ts)
                   end).
  { intros k. unfold mp. rewrite fold_addToCohort_get. simpl.
    rewrite fold_credit_None. destruct (filter _ l); reflexivity. }
  assert (HK : forall k, In k (map fst mp) <->
                 exists t, In t l /\ cohortKey Date_parse t = k).
  { intros k. rewrite Map_get_In, HG. split.
    - destruct (filter _ l) as [|t ts] eqn:E; [congruence|]. intros _.
      assert (Ht : In t (filter
                (fun t => (cohortKey Date_parse t =? k)%string) l))
        by (rewrite E; now left).
      apply filter_In in Ht as [Ht Hk]. apply String.eqb_eq in Hk.
      now exists t.
    - intros (t & Ht & Hk).
      assert (Hf : In t (filter
                (fun t => (cohortKey Date_parse t =? k)%string) l)).
      { apply filter_In. split; [exact Ht | now apply String.eqb_eq]. }
      destruct (filter _ l); [contradiction | discriminate]. }
  assert (HE : forall k r, In (k, r) mp ->
                 exists t, In t l /\ k = cohortKey Date_parse t
                   /\ mk (k, r)
                      = {| cohort_week := weekKey (JSDate.newDate Date_parse (createdAt t));
                           cohort_priority :=
                             Some (Priority_name (priority t));
                           cohort_revenue := r |}).
  { intros k r H. apply (in_map fst) in H. cbn [fst] in H.
    apply HK in H as (t & Ht & E). subst k. exists t. repeat split; [exact Ht|].
    unfold mk. cbn [fst snd]. cbv zeta. now rewrite split_cohortKey. }
  split; [|split; [|split]].
  - apply (Array_sort_sorted cmpW (fun _ => True)
             (fun a b => localeCompare (cohort_week a) (cohort_week b) <= 0)).
    + intros a b _ _. unfold cmpW. reflexivity.
    + intros a b _ _.
      destruct (Z.le_gt_cases
                  (localeCompare (cohort_week a) (cohort_week b)) 0);
        [left; assumption | right; apply localeCompare_antisym; lia].
    + intros a b c _ _ _. apply localeCompare_trans.
    + rewrite Forall_forall. auto.
  - eapply Permutation_NoDup; [apply Permutation_map; exact HP|].
    rewrite map_map. apply NoDup_map_NoDup_ForallPairs.
    + intros [k r] [k' r'] H H' E.
      assert (Ek : k = k').
      { destruct (HE k r H) as (t & _ & Kt & Mt).
        destruct (HE k' r' H') as (t' & _ & Kt' & Mt').
        rewrite Mt, Mt' in E. cbn [cohort_week cohort_priority] in E.
        injection E as E1 E2. subst k k'. unfold cohortKey.
        now rewrite E1, E2. }
      subst k'. f_equal.
      apply (Map_get_entry _ _ _ HN) in H, H'. congruence.
    + apply (NoDup_map_inv fst). exact HN.
  - intros e He. apply (Permutation_in _ (Permutation_sym HP)) in He.
    apply in_map_iff in He as ([k r] & <- & He).
    destruct (HE k r He) as (t & Ht & Kt & Mt).
    exists t. rewrite Mt. cbn [cohort_week cohort_priority cohort_revenue].
    repeat split; [exact Ht|].
    apply (Map_get_entry _ _ _ HN) in He. rewrite HG in He.
    rewrite (filter_ext _
               (inCohort Date_parse (weekKey (JSDate.newDate Date_parse (createdAt t)))
                  (priority t))) in He
      by (intros u; rewrite Kt; apply cohortKey_eqb).
    destruct (filter _ l); [discriminate|]. now injection He as <-.
  - intros t Ht.
    assert (Hk : In (cohortKey Date_parse t) (map fst mp))
      by (apply HK; now exists t).
    apply in_map_iff in Hk as ([k r] & Ek & Hin). cbn [fst] in Ek. subst k.
    exists (mk (cohortKey Date_parse t, r)). split.
    + apply (Permutation_in _ HP). now apply in_map.
    + unfold mk. cbn [fst snd]. cbv zeta. rewrite split_cohortKey.
      split; reflexivity.
Qed.

End CohortFacts.

(** X20: [computeCohortRevenue] returns one entry for each pair of a
    week label and a priority that some task has, and none for other
    pairs.  The label is the one the code makes of [createdAt], as in
    the throughput: the UTC year, -W and what [getWeekNumber] returns,
    each printed as a number, so NaN for a [createdAt] that is not a
    valid date.  The entry carries the priority by its name and the sum
    of the revenues of the tasks of that label and priority, added in
    the order of the tasks; the entries are in ascending order of their
    labels under [localeCompare]. *)
Theorem computeCohortRevenue_spec
    (localeCompare : string -> string -> Z)
    (Date_parse : string -> option Z)
    (localeCompare_antisym :
       forall a b, 0 < localeCompare a b -> localeCompare b a <= 0)
    (localeCompare_trans :
       forall a b c, localeCompare a b <= 0 -> localeCompare b c <= 0 ->
                     localeCompare a c <= 0)
    (l : list Task) :
  let out := computeCohortRevenue localeCompare Date_parse l in
  StronglySorted
    (fun a b => localeCompare (cohort_week a) (cohort_week b) <= 0) out
  /\ NoDup (map (fun e => (cohort_week e, cohort_priority e)) out)
  /\ (forall e, In e out ->
        exists t,
          In t l
          /\ cohort_week e = weekKey (JSDate.newDate Date_parse (createdAt t))
          /\ cohort_priority e = Some (Priority_name (priority t))
          /\ cohort_revenue e
             = sumRevenue
                 (filter (inCohort Date_parse (cohort_week e) (priority t)) l))
  /\ (forall t, In t l ->
        exists e,
          In e out
          /\ cohort_week e = weekKey (JSDate.newDate Date_parse (createdAt t))
          /\ cohort_priority e = Some (Priority_name (priority t))).
Proof.
  exact (computeCohortRevenue_cohorts localeCompare Date_parse
           localeCompare_antisym localeCompare_trans l).
Qed.

Example computeCohortRevenue_board :
  computeCohortRevenue codeUnitCompare JSDate.parseISO SampleCohort.board
  = [mkCohort "2024-W1" (Some "High") 30; mkCohort "2024-W10" (Some "High") 5].
Proof. vm_compute. reflexivity. Qed.

Lemma computeCohortRevenue_spec_witness :
  StronglySorted
    (fun a b => codeUnitCompare (cohort_week a) (cohort_week b) <= 0)
    (computeCohortRevenue codeUnitCompare JSDate.parseISO SampleCohort.board)
  /\ List.length
       (computeCohortRevenue codeUnitCompare JSDate.parseISO
          SampleCohort.board) = 2%nat.
Proof.
  split.
  - apply (computeCohortRevenue_spec codeUnitCompare JSDate.parseISO
             codeUnitCompare_antisym codeUnitCompare_trans
             SampleCohort.board).
  - reflexivity.
Defined.

(** ** The sign of the ROI *)

Lemma leb_0_signed x : (0 <=? x)%float = zero_or_signed false (Prim2SF x).
Proof.
  rewrite leb_spec. change (Prim2SF 0) with (S754_zero false).
  destruct (Prim2SF x) as [s|[]| |[] m e]; reflexivity.
Qed.

Lemma leb_signed_0 x : (x <=? 0)%float = zero_or_signed true (Prim2SF x).
Proof.
  rewrite leb_spec. change (Prim2SF 0) with (S754_zero false).
  destruct (Prim2SF x) as [s|[]| |[] m e]; reflexivity.
Qed.

Lemma binary_round_aux_sign_bit s m e l :
  0 <= m -> zero_or_signed s (binary_round_aux prec emax s m e l) = true.
Proof.
  intros Hm. unfold binary_round_aux.
  pose proof (shr_fexp_nonneg m e l Hm) as P1.
  destruct (shr_fexp prec emax m e l) as [mrs' e']. cbn [fst] in P1.
  pose proof (round_nearest_even_nonneg _ (loc_of_shr_record mrs') P1) as P2.
  pose proof (shr_fexp_nonneg _ e' loc_Exact P2) as P3.
  destruct (shr_fexp prec emax _ e' loc_Exact) as [mrs'' e''].
  cbn [fst] in P3.
  destruct (shr_m mrs'') as [|q|q]; try lia; try reflexivity.
  destruct (e'' <=? emax - prec); cbn [zero_or_signed]; apply Bool.eqb_reflx.
Qed.

Lemma binary_round_sign_bit s m e :
  zero_or_signed s (binary_round prec emax s m e) = true.
Proof.
  unfold binary_round. destruct (shl_align m e _) as [mz ez].
  apply binary_round_aux_sign_bit. lia.
Qed.

Lemma binary_normalize_sign_bit m e :
  0 <= m -> zero_or_signed false (binary_normalize prec emax m e false) = true.
Proof.
  intros H. destruct m; try lia; cbn [binary_normalize];
    [reflexivity | apply binary_round_sign_bit].
Qed.

Lemma SFdiv_finite_sign_bit sx mx ex sy my ey :
  zero_or_signed (xorb sx sy)
    (SF64div (S754_finite sx mx ex) (S754_finite sy my ey)) = true.
Proof.
  unfold SF64div, SFdiv.
  destruct (SFdiv_core_binary prec emax (Z.pos mx) ex (Z.pos my) ey)
    as [[mz ez] lz] eqn:E.
  apply binary_round_aux_sign_bit.
  unfold SFdiv_core_binary in E.
  set (m' := match _ - _ - _ with Z0 => _ | Zpos _ => _ | Zneg _ => _ end) in E.
  assert (Hm' : 0 <= m').
  { unfold m'. destruct (_ - _ - _); try lia.
    apply Z.shiftl_nonneg. lia. }
  pose proof (Z_div_mod m' (Zpos my) ltac:(lia)) as D.
  destruct (Z.div_eucl m' (Z.pos my)) as [q r].
  injection E as <- _ _. nia.
Qed.

Lemma opp_sign_bit s x :
  zero_or_signed s (Prim2SF x) = true -> zero_or_signed (negb s) (Prim2SF (- x)) = true.
Proof.
  rewrite opp_spec.
  destruct (Prim2SF x) as [s'|s'| |s' m e]; cbn [SFopp zero_or_signed]; auto;
    destruct s', s; auto.
Qed.

Lemma SF2Prim_sign_bit s v :
  zero_or_signed s v = true -> zero_or_signed s (Prim2SF (SF2Prim v)) = true.
Proof.
  destruct v as [[]|[]| |s' m e]; try discriminate;
    try (intros H; exact H).
  cbn [zero_or_signed]. intros H. apply Bool.eqb_prop in H. subst s'.
  unfold SF2Prim.
  assert (N : zero_or_signed false
                (Prim2SF (Z.ldexp (of_uint63 (Uint63.of_Z (Z.pos m))) e))
              = true).
  { rewrite Z_ldexp_spec, of_uint63_spec.
    pose proof (binary_normalize_sign_bit
                  (Uint63.to_Z (Uint63.of_Z (Z.pos m))) 0
                  ltac:(apply Uint63.to_Z_bounded)) as H.
    destruct (binary_normalize prec emax _ 0 false) eqn:B;
      try exact H.
    cbn [SFldexp]. cbn [zero_or_signed] in H. apply Bool.eqb_prop in H. subst.
    apply binary_round_sign_bit. }
  destruct s; [exact (opp_sign_bit false _ N) | exact N].
Qed.

Lemma hundredths_sign_bit n : zero_or_signed false (Prim2SF (Num.hundredths n)) = true.
Proof.
  destruct n; try reflexivity.
  apply SF2Prim_sign_bit. apply (SFdiv_finite_sign_bit false p 0 false 100 0).
Qed.

Lemma toFixed2_sign_bit s x :
  zero_or_signed s (Prim2SF x) = true -> zero_or_signed s (Prim2SF (Num.toFixed2 x)) = true.
Proof.
  intros H. unfold Num.toFixed2.
  destruct (Prim2SF x) as [s'|s'| |s' m e] eqn:E; try discriminate.
  - reflexivity.
  - now rewrite E.
  - destruct (1e21 <=? abs x)%float; [now rewrite E|].
    cbn [zero_or_signed] in H. apply Bool.eqb_prop in H. subst s'.
    destruct s; [apply (opp_sign_bit false)|]; apply hundredths_sign_bit.
Qed.

Lemma div_sign_bit s r t :
  Num.isFinite r = true -> Num.isFinite t = true ->
  (t <=? 0)%float = false ->
  zero_or_signed s (Prim2SF r) = true -> zero_or_signed s (Prim2SF (r / t)) = true.
Proof.
  intros Fr Ft Pt H. apply isFinite_spec in Fr, Ft.
  rewrite leb_spec in Pt. change (Prim2SF 0) with (S754_zero false) in Pt.
  rewrite div_spec.
  destruct (Prim2SF t) as [| | |st mt et]; try contradiction;
    try discriminate.
  destruct st; [discriminate|].
  destruct (Prim2SF r) as [| | |sr mr er]; try contradiction.
  - reflexivity.
  - cbn [zero_or_signed] in H. apply Bool.eqb_prop in H. subst sr.
    pose proof (SFdiv_finite_sign_bit s mr er false mt et) as D.
    now rewrite xorb_false_r in D.
Qed.

(** X21: an ROI that is not null is a number, never NaN, and it has the
    sign of the revenue: it is at least 0 when the revenue is, and at
    most 0 when the revenue is. *)
Theorem computeROI_sign (r t x : float) :
  computeROI r t = Some x ->
  is_nan x = false
  /\ ((0 <=? r)%float = true -> (0 <=? x)%float = true)
  /\ ((r <=? 0)%float = true -> (x <=? 0)%float = true).
Proof.
  intros H. split; [exact (computeROI_not_nan _ _ _ H)|].
  unfold computeROI in H.
  destruct (Num.isFinite r) eqn:Fr; [|discriminate].
  destruct (Num.isFinite t) eqn:Ft; [|discriminate].
  destruct (t <=? 0)%float eqn:Pt; [discriminate|].
  cbn [negb orb] in H. injection H as <-.
  rewrite !leb_0_signed, !leb_signed_0.
  split; intros S; now apply toFixed2_sign_bit, div_sign_bit.
Qed.

Lemma computeROI_sign_witness :
  is_nan 50 = false
  /\ ((0 <=? 100)%float = true -> (0 <=? 50)%float = true)
  /\ ((100 <=? 0)%float = true -> (50 <=? 0)%float = true).
Proof.
  apply (computeROI_sign 100 2 50). vm_compute. reflexivity.
Defined.

Example computeROI_negative : computeROI (-100) 3 = Some (-33.33)%float.
Proof. vm_compute. reflexivity. Qed.

(** ** Weighted pipeline *)

Lemma digits2_unique (p : positive) (k : Z) :
  2 ^ (k - 1) <= Zpos p < 2 ^ k -> Zpos (digits2_pos p) = k.
Proof.
  intros [Lo Hi]. pose proof (digits2_bounds p) as [Lo' Hi'].
  set (d := Zpos (digits2_pos p)) in *.
  assert (Hd : 0 < d) by (unfold d; lia).
  assert (Hk : 0 < k).
  { destruct (Z.lt_ge_cases 0 k) as [H|H]; [exact H|].
    destruct (Z.eq_dec k 0) as [->|N]; [simpl in Hi; lia|].
    rewrite (Z.pow_neg_r 2 k) in Hi by lia. lia. }
  destruct (Z.lt_trichotomy d k) as [H|[H|H]]; [|exact H|].
  - assert (2 ^ d <= 2 ^ (k - 1)) by (apply Z.pow_le_mono_r; lia). lia.
  - assert (2 ^ k <= 2 ^ (d - 1)) by (apply Z.pow_le_mono_r; lia). lia.
Qed.

Lemma shr_1_exact (m : Z) :
  0 <= m ->
  shr_1 {| shr_m := 2 * m; shr_r := false; shr_s := false |}
  = {| shr_m := m; shr_r := false; shr_s := false |}.
Proof. destruct m as [|p|p]; intros H; [reflexivity | reflexivity | lia]. Qed.

Lemma iter_shr_1_exact (n : positive) :
  forall m, 0 <= m ->
    SpecFloat.iter_pos shr_1 n
      {| shr_m := m * 2 ^ Zpos n; shr_r := false; shr_s := false |}
    = {| shr_m := m; shr_r := false; shr_s := false |}.
Proof.
  induction n as [n IH|n IH|]; intros m Hm.
  - assert (P : 0 < 2 ^ Zpos n) by (apply Z.pow_pos_nonneg; lia).
    rewrite pow2_xI.
    replace (m * (2 * (2 ^ Zpos n * 2 ^ Zpos n)))
      with (2 * (m * 2 ^ Zpos n * 2 ^ Zpos n)) by lia.
    cbn [SpecFloat.iter_pos]. rewrite shr_1_exact by nia.
    rewrite (IH (m * 2 ^ Zpos n)) by nia. now apply IH.
  - assert (P : 0 < 2 ^ Zpos n) by (apply Z.pow_pos_nonneg; lia).
    rewrite pow2_xO, Z.mul_assoc. cbn [SpecFloat.iter_pos].
    rewrite (IH (m * 2 ^ Zpos n)) by nia. now apply IH.
  - change (2 ^ 1) with 2. rewrite Z.mul_comm. now apply shr_1_exact.
Qed.

Lemma SFmul_1_r (x : spec_float) :
  valid_binary x = true ->
  SF64mul x (S754_finite false 4503599627370496 (-52)) = x.
Proof.
  intros V. unfold SF64mul, SFmul.
  destruct x as [s|s| |s m e]; try (now rewrite xorb_false_r);
    [reflexivity|].
  rewrite xorb_false_r. cbn [valid_binary] in V.
  unfold bounded, canonical_mantissa in V.
  apply andb_prop in V as [C B]. apply Z.eqb_eq in C.
  unfold binary_round_aux, shr_fexp.
  rewrite Pos2Z.inj_mul. change (Z.pos 4503599627370496) with (2 ^ 52).
  assert (D : Zdigits2 (Z.pos m * 2 ^ 52) = Z.pos (digits2_pos m) + 52).
  { pose proof (digits2_bounds m) as [Lo Hi].
    change (2 ^ 52) with (Zpos 4503599627370496).
    rewrite <- Pos2Z.inj_mul. cbn [Zdigits2].
    apply digits2_unique. rewrite Pos2Z.inj_mul.
    change (Zpos 4503599627370496) with (2 ^ 52).
    replace (Z.pos (digits2_pos m) + 52 - 1)
      with (Z.pos (digits2_pos m) - 1 + 52) by lia.
    rewrite !Z.pow_add_r by lia. lia. }
  rewrite D.
  replace (Z.pos (digits2_pos m) + 52 + (e + -52))
    with (Z.pos (digits2_pos m) + e) by lia.
  rewrite C. replace (e - (e + -52)) with 52 by lia.
  cbn [shr shr_record_of_loc].
  change (2 ^ 52) with (2 ^ Zpos 52).
  rewrite (iter_shr_1_exact 52 (Z.pos m)) by lia.
  cbn [shr_m loc_of_shr_record round_nearest_even Zdigits2].
  replace (e + -52 + 52) with e by lia.
  rewrite C, Z.sub_diag. cbn [shr shr_record_of_loc shr_m].
  now rewrite B.
Qed.

Lemma mul_1_r (x : float) : (x * 1)%float = x.
Proof.
  apply Prim2SF_inj. rewrite mul_spec.
  change (Prim2SF 1) with (S754_finite false 4503599627370496 (-52)).
  apply SFmul_1_r, Prim2SF_valid.
Qed.

(** X22: on a board where every task is Done, the weighted pipeline is
    the total revenue, to the last bit. *)
Theorem computeWeightedPipeline_all_done (l : list Task) :
  Forall (fun t => status t = Done) l ->
  computeWeightedPipeline l = computeTotalRevenue l.
Proof.
  intros H. unfold computeWeightedPipeline, computeTotalRevenue.
  generalize 0%float as acc.
  induction H as [|t l Ht _ IH]; intros acc; [reflexivity|].
  cbn [fold_left filter]. rewrite Ht. cbn [isDone Status_eqb weights].
  cbn [fold_left]. rewrite mul_1_r. apply IH.
Qed.

Lemma computeWeightedPipeline_all_done_witness :
  computeWeightedPipeline [SampleFunnel.d1; SampleFunnel.d2]
  = computeTotalRevenue [SampleFunnel.d1; SampleFunnel.d2].
Proof.
  apply (computeWeightedPipeline_all_done [SampleFunnel.d1; SampleFunnel.d2]).
  repeat constructor.
Defined.

Example computeWeightedPipeline_board :
  computeWeightedPipeline SampleFunnel.board = 55%float.
Proof. vm_compute. reflexivity. Qed.

(** ** Editing through the form *)

(** X23: the dialog opened on a stored task can be saved as it stands
    when the task's title is trimmed and not empty, its revenue is at
    least 0 and its time is above 0, whatever the existing titles are;
    the payload then carries the task's id and its fields.  A task whose
    time is not above 0 cannot be saved from the dialog until the time is
    changed. *)
Theorem unchanged_edit_can_be_saved
    (trim toLowerCase : string -> string)
    (t0 : Task) (existingTitles : list string) :
  trim (title t0) = title t0 -> title t0 <> EmptyString ->
  (0 <=? revenue t0)%float = true ->
  (canSubmit trim toLowerCase (openForm (Some t0)) existingTitles (Some t0)
   = (0 <? timeTaken t0)%float)
  /\ (let p := handleSubmit trim (openForm (Some t0)) (Some t0) in
      payload_id p = Some (id t0)
      /\ payload_title p = title t0
      /\ payload_revenue p = revenue t0
      /\ payload_timeTaken p = timeTaken t0
      /\ payload_priority p = priority t0
      /\ payload_status p = status t0).
Proof.
  intros Ht Hn Hr. split.
  - unfold canSubmit, duplicateTitle, openForm.
    cbn [form_title form_revenue form_timeTaken]. cbv zeta.
    rewrite Ht, Hr. apply String.eqb_neq in Hn. rewrite Hn.
    cbn [negb andb].
    destruct (toLowerCase (title t0) =? EmptyString)%string;
      [reflexivity|].
    replace (existsb _ _) with false; [reflexivity|].
    symmetry. apply not_true_is_false. intros E.
    apply existsb_eqb_In, in_map_iff in E as (x & Ex & Hx).
    apply filter_In in Hx as [_ Hx].
    apply negb_true_iff, String.eqb_neq in Hx. contradiction.
  - cbv zeta. unfold handleSubmit, openForm.
    cbn [payload_id payload_title payload_revenue payload_timeTaken
         payload_priority payload_status option_map form_title form_revenue
         form_timeTaken form_priority form_status].
    rewrite Ht. repeat split; reflexivity.
Qed.

Lemma unchanged_edit_can_be_saved_witness :
  canSubmit SampleForm.trim SampleForm.toLowerCase
    (openForm (Some Sample.A)) ["Alpha"; "alpha"] (Some Sample.A)
  = (0 <? timeTaken Sample.A)%float.
Proof.
  apply (unchanged_edit_can_be_saved SampleForm.trim SampleForm.toLowerCase
           Sample.A ["Alpha"; "alpha"]).
  - reflexivity.
  - discriminate.
  - reflexivity.
Defined.

(** ** Integers as binary64 numbers *)

Lemma Zdigits2_bounds z :
  0 < z -> 2 ^ (Zdigits2 z - 1) <= z < 2 ^ Zdigits2 z.
Proof.
  destruct z as [|p|p]; try lia. intros _. apply digits2_bounds.
Qed.

Lemma Zdigits2_pos z : 0 < z -> 0 < Zdigits2 z.
Proof. destruct z; cbn; lia. Qed.

Lemma Zdigits2_unique z k :
  2 ^ (k - 1) <= z < 2 ^ k -> 0 < z -> Zdigits2 z = k.
Proof.
  intros H Hz. destruct z as [|p|p]; try lia. now apply digits2_unique.
Qed.

Lemma Zdigits2_mul_pow2 z k :
  0 < z -> 0 <= k -> Zdigits2 (z * 2 ^ k) = Zdigits2 z + k.
Proof.
  intros Hz Hk. pose proof (Zdigits2_bounds z Hz) as [Lo Hi].
  pose proof (Zdigits2_pos z Hz) as Hd.
  assert (P : 0 < 2 ^ k) by (apply Z.pow_pos_nonneg; lia).
  apply Zdigits2_unique; [|nia].
  replace (Zdigits2 z + k - 1) with (Zdigits2 z - 1 + k) by lia.
  rewrite !Z.pow_add_r by lia. nia.
Qed.

Lemma Zdigits2_le_53 z : 0 < z < 2 ^ 53 -> 0 < Zdigits2 z <= 53.
Proof.
  intros [Hz Hu]. split; [now apply Zdigits2_pos|].
  now apply Zdigits2_le.
Qed.

Lemma mant_bounds z :
  0 < z < 2 ^ 53 -> 2 ^ 52 <= mant z < 2 ^ 53 /\ Zdigits2 (mant z) = 53.
Proof.
  intros H. pose proof (Zdigits2_le_53 z H) as D.
  assert (E : Zdigits2 (mant z) = 53).
  { unfold mant. rewrite Zdigits2_mul_pow2 by lia. lia. }
  split; [|exact E].
  assert (Hm : 0 < mant z).
  { unfold mant. apply Z.mul_pos_pos; [lia|]. apply Z.pow_pos_nonneg; lia. }
  pose proof (Zdigits2_bounds _ Hm) as B. rewrite E in B. exact B.
Qed.

Lemma bounded_normal m e :
  Zdigits2 (Zpos m) = 53 -> -1074 <= e <= 971 ->
  bounded prec emax m e = true.
Proof.
  intros D He. cbn [Zdigits2] in D.
  unfold bounded, canonical_mantissa, fexp, SpecFloat.emin, prec, emax.
  rewrite D. apply andb_true_intro. split.
  - apply Z.eqb_eq. lia.
  - apply Z.leb_le. lia.
Qed.

(** A mantissa at its canonical exponent is left as it is. *)
Lemma binary_round_aux_canonical s m e :
  bounded prec emax m e = true ->
  binary_round_aux prec emax s (Zpos m) e loc_Exact = S754_finite s m e.
Proof.
  intros V. unfold bounded, canonical_mantissa in V.
  apply andb_prop in V as [C B]. apply Z.eqb_eq in C.
  unfold binary_round_aux, shr_fexp. cbn [Zdigits2].
  rewrite C, Z.sub_diag. cbn [shr shr_record_of_loc shr_m loc_of_shr_record
    round_nearest_even Zdigits2].
  rewrite C, Z.sub_diag. cbn [shr shr_record_of_loc shr_m].
  now rewrite B.
Qed.

(** Rounding a value that a number has exactly gives that number. *)
Lemma binary_round_exact s m e M E :
  bounded prec emax M E = true ->
  (E <= e -> Zpos M = Zpos m * 2 ^ (e - E)) ->
  (e < E -> Zpos m = Zpos M * 2 ^ (E - e)) ->
  binary_round prec emax s m e = S754_finite s M E.
Proof.
  intros V H1 H2.
  assert (C : fexp prec emax (Zpos (digits2_pos M) + E) = E).
  { unfold bounded, canonical_mantissa in V.
    apply andb_prop in V as [C _]. now apply Z.eqb_eq in C. }
  assert (D : Zpos (digits2_pos m) + e = Zpos (digits2_pos M) + E).
  { destruct (Z.le_gt_cases E e) as [L|L].
    - specialize (H1 L).
      change (Zpos (digits2_pos M)) with (Zdigits2 (Zpos M)).
      rewrite H1, Zdigits2_mul_pow2 by lia. cbn [Zdigits2]. lia.
    - specialize (H2 L).
      change (Zpos (digits2_pos m)) with (Zdigits2 (Zpos m)).
      rewrite H2, Zdigits2_mul_pow2 by lia. cbn [Zdigits2]. lia. }
  unfold binary_round. rewrite D, C.
  destruct (Z.le_gt_cases E e) as [L|L].
  - specialize (H1 L).
    pose proof (shl_align_fst m e E L) as F.
    assert (S : snd (shl_align m e E) = E).
    { unfold shl_align. destruct (E - e) eqn:X; cbn [snd]; lia. }
    destruct (shl_align m e E) as [mz ez]. cbn [fst snd] in F, S. subst ez.
    assert (mz = M) by lia. subst mz.
    now apply binary_round_aux_canonical.
  - specialize (H2 L).
    assert (S : shl_align m e E = (m, e)).
    { unfold shl_align. destruct (E - e) eqn:X; try reflexivity. lia. }
    rewrite S. unfold binary_round_aux, shr_fexp. cbn [Zdigits2].
    rewrite D, C.
    destruct (E - e) as [|n|n] eqn:X; try lia.
    cbn [shr shr_record_of_loc]. rewrite H2.
    rewrite (iter_shr_1_exact n (Zpos M)) by lia.
    cbn [shr_m loc_of_shr_record round_nearest_even Zdigits2].
    replace (e + Zpos n) with E by lia.
    rewrite C, Z.sub_diag. cbn [shr shr_record_of_loc shr_m].
    unfold bounded in V. apply andb_prop in V as [_ B]. now rewrite B.
Qed.

Lemma Prim2SF_ofZ_pos z :
  0 < z < 2 ^ 53 ->
  Prim2SF (Num.ofZ z) = S754_finite false (Z.to_pos (mant z)) (expo z).
Proof.
  intros H. pose proof (mant_bounds z H) as [[Lo Hi] D].
  pose proof (Zdigits2_le_53 z H) as Dz.
  unfold Num.ofZ. destruct (Z.ltb_spec z 0) as [N|N]; [lia|].
  rewrite of_uint63_spec, Uint63.of_Z_spec.
  rewrite Z.mod_small by (change Uint63.wB with (2 ^ 63);
    assert (2 ^ 53 < 2 ^ 63) by (apply Z.pow_lt_mono_r; lia); lia).
  destruct z as [|p|p]; try lia. cbn [binary_normalize].
  apply binary_round_exact.
  - apply bounded_normal.
    + rewrite Z2Pos.id by lia. exact D.
    + unfold expo. lia.
  - intros _. rewrite Z2Pos.id by lia. unfold mant, expo. f_equal. f_equal. lia.
  - unfold expo. lia.
Qed.

Lemma Prim2SF_ofZ_neg z :
  0 < z < 2 ^ 53 ->
  Prim2SF (Num.ofZ (- z)) = S754_finite true (Z.to_pos (mant z)) (expo z).
Proof.
  intros H. pose proof (Prim2SF_ofZ_pos z H) as P.
  unfold Num.ofZ in *. destruct (Z.ltb_spec (- z) 0) as [N|N]; [|lia].
  destruct (Z.ltb_spec z 0) as [N'|N']; [lia|].
  rewrite Z.opp_involutive, opp_spec, P. reflexivity.
Qed.

Lemma Prim2SF_ofZ_0 : Prim2SF (Num.ofZ 0) = S754_zero false.
Proof. reflexivity. Qed.

Lemma mant_expo z : 0 < z < 2 ^ 53 -> mant z = z * 2 ^ (- expo z) /\ expo z <= 0.
Proof.
  intros H. pose proof (Zdigits2_le_53 z H). unfold mant, expo.
  split; [f_equal; f_equal; lia | lia].
Qed.

(** The number an integer other than 0 is. *)
Lemma Prim2SF_ofZ z :
  z <> 0 -> Z.abs z < 2 ^ 53 ->
  Prim2SF (Num.ofZ z)
  = S754_finite (z <? 0) (Z.to_pos (mant (Z.abs z))) (expo (Z.abs z)).
Proof.
  intros N H. destruct (Z.ltb_spec z 0) as [L|L].
  - replace z with (- Z.abs z) at 1 by lia.
    apply Prim2SF_ofZ_neg. lia.
  - replace z with (Z.abs z) at 1 by lia.
    apply Prim2SF_ofZ_pos. lia.
Qed.

Lemma cond_Zopp_mant z K :
  z <> 0 -> Z.abs z < 2 ^ 53 ->
  cond_Zopp (z <? 0) (Z.abs z * K) = z * K.
Proof.
  intros N H. destruct (Z.ltb_spec z 0); cbn [cond_Zopp]; lia.
Qed.

(** Rounding the integer [x * 2 ^ k] at the exponent [- k] gives the
    number [x]. *)
Lemma binary_normalize_ofZ x k :
  Z.abs x < 2 ^ 53 -> 0 <= k ->
  binary_normalize prec emax (x * 2 ^ k) (- k) false = Prim2SF (Num.ofZ x).
Proof.
  intros H Hk.
  assert (P : 0 < 2 ^ k) by (apply Z.pow_pos_nonneg; lia).
  destruct (Z.eq_dec x 0) as [->|N]; [reflexivity|].
  rewrite (Prim2SF_ofZ x N H).
  assert (Ha : 0 < Z.abs x < 2 ^ 53) by lia.
  pose proof (mant_expo _ Ha) as [Em Ee].
  pose proof (mant_bounds _ Ha) as [[Lo Hi] D].
  assert (V : bounded prec emax (Z.to_pos (mant (Z.abs x))) (expo (Z.abs x))
              = true).
  { apply bounded_normal; [rewrite Z2Pos.id by lia; exact D|].
    pose proof (Zdigits2_le_53 _ Ha). unfold expo. lia. }
  assert (R : forall s p, Zpos p = Z.abs x * 2 ^ k ->
            binary_round prec emax s p (- k)
            = S754_finite s (Z.to_pos (mant (Z.abs x))) (expo (Z.abs x))).
  { intros s p Hp. apply binary_round_exact; [exact V| |].
    - intros L. rewrite Z2Pos.id, Hp, Em by lia.
      rewrite <- Z.mul_assoc, <- Z.pow_add_r by lia.
      f_equal. f_equal. lia.
    - intros L. rewrite Z2Pos.id, Hp, Em by lia.
      rewrite <- Z.mul_assoc, <- Z.pow_add_r by lia.
      f_equal. f_equal. lia. }
  destruct (x * 2 ^ k) as [|p|p] eqn:X; cbn [binary_normalize].
  - nia.
  - destruct (Z.ltb_spec x 0); [nia|]. apply R. nia.
  - destruct (Z.ltb_spec x 0); [|nia]. apply R. nia.
Qed.

(** Subtraction of integers is exact when the difference is below 2^53. *)
Lemma sub_ofZ a b :
  Z.abs a < 2 ^ 53 -> Z.abs b < 2 ^ 53 -> Z.abs (b - a) < 2 ^ 53 ->
  (Num.ofZ b - Num.ofZ a)%float = Num.ofZ (b - a).
Proof.
  intros Ha Hb Hx. apply Prim2SF_inj. rewrite sub_spec.
  destruct (Z.eq_dec a 0) as [->|Na]; destruct (Z.eq_dec b 0) as [->|Nb].
  - reflexivity.
  - rewrite Z.sub_0_r, Prim2SF_ofZ_0, (Prim2SF_ofZ b Nb Hb). reflexivity.
  - rewrite Prim2SF_ofZ_0, (Prim2SF_ofZ a Na Ha).
    rewrite (Prim2SF_ofZ (0 - a)) by lia.
    cbn [SF64sub SFsub].
    replace (Z.abs (0 - a)) with (Z.abs a) by lia.
    f_equal. destruct (Z.ltb_spec a 0), (Z.ltb_spec (0 - a) 0);
      try reflexivity; lia.
  - rewrite (Prim2SF_ofZ a Na Ha), (Prim2SF_ofZ b Nb Hb).
    cbn [SF64sub SFsub].
    assert (Aa : 0 < Z.abs a < 2 ^ 53) by lia.
    assert (Ab : 0 < Z.abs b < 2 ^ 53) by lia.
    pose proof (mant_expo _ Aa) as [Ma Ea].
    pose proof (mant_expo _ Ab) as [Mb Eb].
    pose proof (mant_bounds _ Aa) as [[La _] _].
    pose proof (mant_bounds _ Ab) as [[Lb _] _].
    set (ez := Z.min (expo (Z.abs b)) (expo (Z.abs a))).
    rewrite !shl_align_fst by (unfold ez; lia).
    rewrite !Z2Pos.id by lia. rewrite Ma, Mb.
    rewrite <- !Z.mul_assoc, <- !Z.pow_add_r by (unfold ez; lia).
    replace (- expo (Z.abs b) + (expo (Z.abs b) - ez)) with (- ez) by lia.
    replace (- expo (Z.abs a) + (expo (Z.abs a) - ez)) with (- ez) by lia.
    rewrite !cond_Zopp_mant by assumption.
    rewrite <- Z.mul_sub_distr_r.
    pose proof (binary_normalize_ofZ (b - a) (- ez) Hx
                  ltac:(unfold ez; lia)) as R.
    now rewrite Z.opp_involutive in R.
Qed.

(** ** Rounding to nearest *)

Lemma new_location_spec num den :
  0 < den -> new_location den (num mod den) = location_of num den.
Proof.
  intros H. pose proof (Z.mod_pos_bound num den H) as B.
  set (k := num mod den) in *.
  unfold new_location, location_of. fold k.
  destruct (Z.even den) eqn:E.
  - reflexivity.
  - unfold new_location_odd. destruct (k =? 0); [reflexivity|].
    f_equal.
    assert (O : Z.odd den = true) by (rewrite <- Z.negb_even, E; reflexivity).
    apply Z.odd_spec in O. destruct O as [c Hc].
    destruct (Z.compare_spec (2 * k + 1) den),
             (Z.compare_spec (2 * k) den); try reflexivity; lia.
Qed.

Lemma loc_of_shr_record_of_loc m l :
  loc_of_shr_record (shr_record_of_loc m l) = l.
Proof. destruct l as [|[]]; reflexivity. Qed.

Lemma located_start num den :
  0 < den -> 0 <= num ->
  located num den (shr_record_of_loc (num / den) (location_of num den)).
Proof.
  intros Hd Hn. unfold located.
  now rewrite shr_m_of_loc, loc_of_shr_record_of_loc.
Qed.

Lemma location_of_Exact num den :
  0 < den -> (location_of num den = loc_Exact <-> num mod den = 0).
Proof.
  intros H. unfold location_of.
  destruct (Z.eqb_spec (num mod den) 0); split; intros; congruence.
Qed.

Lemma shr_1_located num den mrs :
  located num den mrs -> located num (2 * den) (shr_1 mrs).
Proof.
  intros (Hd & Hn & Hm & Hl).
  pose proof (Z.div_mod num den ltac:(lia)) as DM.
  pose proof (Z.mod_pos_bound num den Hd) as B.
  pose proof (location_of_Exact num den Hd) as EX.
  set (r0 := num mod den) in *.
  assert (Hq : 0 <= num / den) by (apply Z.div_pos; lia).
  destruct mrs as [m r s]. cbn [shr_m] in Hm.
  assert (Q : forall b m', 0 <= b < 2 -> m = 2 * m' + b ->
              num / (2 * den) = m'
              /\ num mod (2 * den) = b * den + r0).
  { intros b m' Hb Em.
    assert (num = (2 * den) * m' + (b * den + r0)) by nia.
    split.
    - symmetry. apply (Z.div_unique_pos num (2 * den) m' (b * den + r0));
        [nia | assumption].
    - symmetry. apply (Z.mod_unique_pos num (2 * den) m' (b * den + r0));
        [nia | assumption]. }
  assert (S : (r || s)%bool = false <-> r0 = 0).
  { rewrite <- EX, <- Hl. destruct r, s; cbn; split; intros; congruence. }
  assert (L : forall b m', 0 <= b < 2 -> m = 2 * m' + b ->
              loc_of_shr_record
                {| shr_m := m'; shr_r := (b =? 1); shr_s := (r || s)%bool |}
              = location_of num (2 * den)).
  { intros b m' Hb Em. destruct (Q b m' Hb Em) as [_ Qm].
    unfold location_of. rewrite Qm.
    assert (b = 0 \/ b = 1) as [->| ->] by lia.
    - change (0 =? 1) with false. rewrite Z.mul_0_l, Z.add_0_l.
      destruct (Z.eqb_spec r0 0) as [Z0|Z0].
      + rewrite (proj2 S Z0). reflexivity.
      + destruct (r || s)%bool; [|exfalso; now apply Z0, S].
        cbn [loc_of_shr_record]. f_equal. symmetry.
        apply Z.compare_lt_iff. lia.
    - change (1 =? 1) with true. rewrite Z.mul_1_l.
      destruct (Z.eqb_spec (den + r0) 0) as [Z0|Z0]; [lia|].
      destruct (Z.eqb_spec r0 0) as [Z1|Z1].
      + rewrite (proj2 S Z1). cbn [loc_of_shr_record]. f_equal.
        symmetry. apply Z.compare_eq_iff. lia.
      + destruct (r || s)%bool; [|exfalso; now apply Z1, S].
        cbn [loc_of_shr_record]. f_equal. symmetry.
        apply Z.compare_gt_iff. lia. }
  unfold located. split; [lia|]. split; [exact Hn|].
  destruct m as [|p|p]; [| |lia].
  - destruct (Q 0 0 ltac:(lia) ltac:(lia)) as [Qd _].
    split; [unfold shr_1; cbn [shr_m]; lia|]. exact (L 0 0 ltac:(lia) ltac:(lia)).
  - destruct p as [p|p|].
    + destruct (Q 1 (Zpos p) ltac:(lia) ltac:(lia)) as [Qd _].
      split; [unfold shr_1; cbn [shr_m]; lia|]. exact (L 1 (Zpos p) ltac:(lia) ltac:(lia)).
    + destruct (Q 0 (Zpos p) ltac:(lia) ltac:(lia)) as [Qd _].
      split; [unfold shr_1; cbn [shr_m]; lia|]. exact (L 0 (Zpos p) ltac:(lia) ltac:(lia)).
    + destruct (Q 1 0 ltac:(lia) ltac:(lia)) as [Qd _].
      split; [unfold shr_1; cbn [shr_m]; lia|]. exact (L 1 0 ltac:(lia) ltac:(lia)).
Qed.

Lemma iter_shr_1_located (n : positive) :
  forall num den mrs,
    located num den mrs ->
    located num (den * 2 ^ Zpos n) (SpecFloat.iter_pos shr_1 n mrs).
Proof.
  induction n as [n IH|n IH|]; intros num den mrs H.
  - rewrite pow2_xI. cbn [SpecFloat.iter_pos].
    replace (den * (2 * (2 ^ Zpos n * 2 ^ Zpos n)))
      with (2 * den * 2 ^ Zpos n * 2 ^ Zpos n) by lia.
    apply IH, IH. now apply shr_1_located.
  - rewrite pow2_xO, Z.mul_assoc. cbn [SpecFloat.iter_pos].
    now apply IH, IH.
  - change (2 ^ 1) with 2. rewrite Z.mul_comm. now apply shr_1_located.
Qed.

(** The integer [round_nearest_even] picks is a nearest one. *)
Lemma round_nearest_even_located num den mrs :
  located num den mrs ->
  let N := round_nearest_even (shr_m mrs) (loc_of_shr_record mrs) in
  shr_m mrs <= N <= shr_m mrs + 1
  /\ 2 * Z.abs (N * den - num) <= den.
Proof.
  intros (Hd & Hn & Hm & Hl). cbv zeta.
  pose proof (Z.div_mod num den ltac:(lia)) as DM.
  pose proof (Z.mod_pos_bound num den Hd) as B.
  rewrite Hl, Hm. unfold location_of, round_nearest_even.
  set (m := num / den) in *. set (r0 := num mod den) in *.
  destruct (Z.eqb_spec r0 0) as [Z0|Z0].
  - split; [lia|nia].
  - destruct (Z.compare_spec (2 * r0) den) as [C|C|C].
    + destruct (Z.even m); split; try lia; nia.
    + split; [lia|nia].
    + split; [lia|nia].
Qed.

(** [binary_round_aux] on a mantissa of at least 53 digits, in the range
    of the normal numbers: the mantissa is cut to 53 digits, to a nearest
    integer [N]; if that is 2^53, the exponent goes up by one. *)
Lemma binary_round_aux_nearest s num den m e :
  0 < den -> 0 <= num -> m = num / den ->
  53 <= Zdigits2 m -> -1074 <= Zdigits2 m + e - 53 < 971 ->
  exists N,
    2 * Z.abs (N * (den * 2 ^ (Zdigits2 m - 53)) - num)
    <= den * 2 ^ (Zdigits2 m - 53)
    /\ 2 ^ 52 <= N <= 2 ^ 53
    /\ binary_round_aux prec emax s m e (location_of num den)
       = if N <? 2 ^ 53
         then S754_finite s (Z.to_pos N) (e + (Zdigits2 m - 53))
         else S754_finite s (Z.to_pos (2 ^ 52)) (e + (Zdigits2 m - 53) + 1).
Proof.
  intros Hd Hn Hm D R.
  assert (Pm : 0 < m).
  { assert (0 <= m) by (rewrite Hm; apply Z.div_pos; lia).
    destruct m; cbn in D; lia. }
  pose proof (Zdigits2_bounds m Pm) as [Lo Hi].
  set (n := Zdigits2 m - 53) in *.
  assert (Hn0 : 0 <= n) by (unfold n; lia).
  assert (P2 : 0 < 2 ^ n) by (apply Z.pow_pos_nonneg; lia).
  assert (F : fexp prec emax (Zdigits2 m + e) - e = n).
  { unfold fexp, SpecFloat.emin, prec, emax, n. lia. }
  (* the first shift *)
  assert (L1 : exists mrs',
             shr_fexp prec emax m e (location_of num den) = (mrs', e + n)
             /\ located num (den * 2 ^ n) mrs').
  { unfold shr_fexp. rewrite F.
    pose proof (located_start num den Hd Hn) as L0. rewrite <- Hm in L0.
    destruct n as [|p|p] eqn:En; [| |lia].
    - eexists. split; [cbn [shr]; now rewrite Z.add_0_r|].
      now rewrite Z.pow_0_r, Z.mul_1_r.
    - eexists. split; [reflexivity|]. now apply iter_shr_1_located. }
  destruct L1 as (mrs' & E1 & L1).
  pose proof (round_nearest_even_located _ _ _ L1) as [[N1 N2] N3].
  set (N := round_nearest_even (shr_m mrs') (loc_of_shr_record mrs')) in *.
  assert (M' : 2 ^ 52 <= shr_m mrs' < 2 ^ 53).
  { destruct L1 as (_ & _ & -> & _).
    rewrite <- Z.div_div, <- Hm by lia.
    replace (Zdigits2 m - 1) with (52 + n) in Lo by (unfold n; lia).
    replace (Zdigits2 m) with (53 + n) in Hi by (unfold n; lia).
    rewrite Z.pow_add_r in Lo, Hi by lia.
    split.
    - apply Z.div_le_lower_bound; lia.
    - apply Z.div_lt_upper_bound; lia. }
  exists N. split; [exact N3|]. split; [lia|].
  unfold binary_round_aux. rewrite E1. fold N.
  destruct (Z.ltb_spec N (2 ^ 53)) as [C|C].
  - assert (DN : Zdigits2 N = 53) by (apply Zdigits2_unique; lia).
    unfold shr_fexp. rewrite DN.
    replace (fexp prec emax (53 + (e + n)) - (e + n)) with 0
      by (unfold fexp, SpecFloat.emin, prec, emax; unfold n in *; lia).
    cbn [shr]. rewrite shr_m_of_loc.
    destruct N as [|p|p] eqn:EN; try lia.
    destruct (Z.leb_spec (e + n) (emax - prec)) as [B|B];
      [reflexivity | unfold emax, prec, n in *; lia].
  - assert (EN : N = 2 ^ 53) by lia. rewrite EN.
    unfold shr_fexp. change (Zdigits2 (2 ^ 53)) with 54.
    replace (fexp prec emax (54 + (e + n)) - (e + n)) with 1
      by (unfold fexp, SpecFloat.emin, prec, emax; unfold n in *; lia).
    cbn [shr shr_record_of_loc SpecFloat.iter_pos].
    change (shr_m (shr_1 {| shr_m := 2 ^ 53; shr_r := false; shr_s := false |}))
      with (2 ^ 52).
    change (2 ^ 52) with (Zpos 4503599627370496).
    destruct (Z.leb_spec (e + n + 1) (emax - prec)) as [B|B];
      [reflexivity | unfold emax, prec, n in *; lia].
Qed.

Lemma SFdiv_core_binary_normal mx ex md ed :
  Zdigits2 mx = 53 -> Zdigits2 md = 53 -> 0 < mx -> 0 < md ->
  -1000 <= ex - ed ->
  SFdiv_core_binary prec emax mx ex md ed
  = ((mx * 2 ^ 53) / md, ex - ed - 53, location_of (mx * 2 ^ 53) md).
Proof.
  intros Dx Dd Px Pd R. unfold SFdiv_core_binary. rewrite Dx, Dd.
  replace (Z.min (fexp prec emax (53 + ex - (53 + ed))) (ex - ed))
    with (ex - ed - 53)
    by (unfold fexp, SpecFloat.emin, prec, emax; lia).
  replace (ex - ed - (ex - ed - 53)) with 53 by lia.
  cbv iota. rewrite Z.shiftl_mul_pow2 by lia.
  rewrite <- (new_location_spec (mx * 2 ^ 53) md Pd).
  unfold Z.div, Z.modulo.
  destruct (Z.div_eucl (mx * 2 ^ 53) md) as [q r]. reflexivity.
Qed.

(** The quotient of two positive integers below 2^53, in binary64: a
    number [N * 2 ^ E'] (or [2 ^ 52 * 2 ^ (E' + 1)], the same value, when
    [N] is [2 ^ 53]) with [N] a nearest integer to [x / d / 2 ^ E']. *)
Lemma div_ofZ_nearest x d :
  0 < x < 2 ^ 53 -> 0 < d < 2 ^ 53 ->
  exists N E',
    E' <= 0
    /\ Zdigits2 x - Zdigits2 d - 53 <= E' <= Zdigits2 x - Zdigits2 d - 52
    /\ 2 * Z.abs (N * d - x * 2 ^ (- E')) <= d
    /\ 2 ^ 52 <= N <= 2 ^ 53
    /\ Prim2SF (Num.ofZ x / Num.ofZ d)
       = if N <? 2 ^ 53
         then S754_finite false (Z.to_pos N) E'
         else S754_finite false (Z.to_pos (2 ^ 52)) (E' + 1).
Proof.
  intros Hx Hd.
  pose proof (mant_bounds x Hx) as [[Lx Ux] Dx].
  pose proof (mant_bounds d Hd) as [[Ld Ud] Dd].
  pose proof (mant_expo x Hx) as [Mx Ex].
  pose proof (mant_expo d Hd) as [Md Ed].
  pose proof (Zdigits2_le_53 x Hx) as Gx.
  pose proof (Zdigits2_le_53 d Hd) as Gd.
  rewrite div_spec, (Prim2SF_ofZ_pos x Hx), (Prim2SF_ofZ_pos d Hd).
  unfold SF64div, SFdiv. rewrite !Z2Pos.id by lia.
  rewrite SFdiv_core_binary_normal by (try assumption; unfold expo; lia).
  cbn [xorb].
  set (q := mant x * 2 ^ 53 / mant d).
  assert (Q : 2 ^ 52 <= q < 2 ^ 54).
  { unfold q. split.
    - apply Z.div_le_lower_bound; lia.
    - apply Z.div_lt_upper_bound; lia. }
  assert (DQ : Zdigits2 q = 53 \/ Zdigits2 q = 54).
  { destruct (Z.lt_ge_cases q (2 ^ 53)).
    - left. apply Zdigits2_unique; lia.
    - right. apply Zdigits2_unique; lia. }
  destruct (binary_round_aux_nearest false (mant x * 2 ^ 53) (mant d) q
              (expo x - expo d - 53))
    as (N & N1 & N2 & N3);
    try lia; try reflexivity; try (unfold expo; lia).
  set (n := Zdigits2 q - 53) in *.
  assert (Hn : 0 <= n <= 1) by (unfold n; lia).
  exists N, (expo x - expo d - 53 + n).
  split; [unfold expo; lia|]. split; [unfold expo; lia|].
  split; [|split; [exact N2 | exact N3]].
  set (E' := expo x - expo d - 53 + n).
  set (K := 2 ^ (n - expo d)).
  assert (PK : 0 < K) by (apply Z.pow_pos_nonneg; unfold expo; lia).
  assert (E1 : mant d * 2 ^ n = d * K).
  { unfold K. rewrite Md, <- Z.mul_assoc, <- Z.pow_add_r by (unfold expo; lia).
    f_equal. f_equal. lia. }
  assert (E2 : mant x * 2 ^ 53 = x * 2 ^ (- E') * K).
  { unfold K, E'. rewrite Mx, <- !Z.mul_assoc, <- !Z.pow_add_r
      by (unfold expo; lia).
    f_equal. f_equal. unfold expo. lia. }
  rewrite E1, E2 in N1.
  replace (N * (d * K) - x * 2 ^ (- E') * K)
    with ((N * d - x * 2 ^ (- E')) * K) in N1 by lia.
  rewrite Z.abs_mul, (Z.abs_eq K) in N1 by lia.
  nia.
Qed.

(** ** [Math.round] and [Math.max] *)

Lemma toZ_ofZ z : Z.abs z < 2 ^ 53 -> Num.toZ (Num.ofZ z) = Some z.
Proof.
  intros H. unfold Num.toZ.
  destruct (Z.eq_dec z 0) as [->|N]; [reflexivity|].
  rewrite (Prim2SF_ofZ z N H).
  assert (Ha : 0 < Z.abs z < 2 ^ 53) by lia.
  pose proof (mant_expo _ Ha) as [Em Ee].
  pose proof (mant_bounds _ Ha) as [[Lo Hi] _].
  rewrite Z2Pos.id by lia.
  assert (P : 0 < 2 ^ (- expo (Z.abs z)))
    by (apply Z.pow_pos_nonneg; lia).
  destruct (Z.leb_spec 0 (expo (Z.abs z))) as [L|L].
  - replace (expo (Z.abs z)) with 0 in * by lia.
    rewrite Em. change (2 ^ (- 0)) with 1. change (2 ^ 0) with 1.
    f_equal. destruct (Z.ltb_spec z 0); cbn [cond_Zopp]; lia.
  - rewrite Em, Z.mod_mul, Z.div_mul by lia. cbn [Z.eqb].
    f_equal. destruct (Z.ltb_spec z 0); cbn [cond_Zopp]; lia.
Qed.

Lemma is_nan_spec y :
  is_nan y = match Prim2SF y with S754_nan => true | _ => false end.
Proof.
  unfold is_nan. rewrite eqb_spec. unfold SFeqb.
  destruct (Prim2SF y) as [s|s| |s m e] eqn:E; try reflexivity.
  - destruct s; reflexivity.
  - pose proof (SFcompare_refl (S754_finite s m e) eq_refl) as R.
    now rewrite R.
Qed.

(** [Math.max(0, y)]: [y] when it is above 0, NaN when it is NaN, and 0
    otherwise. *)
Lemma Math_max_0 y :
  Math_max 0 y
  = match Prim2SF y with
    | S754_nan => nan
    | S754_finite false _ _ | S754_infinity false => y
    | _ => 0%float
    end.
Proof.
  unfold Math_max. rewrite (is_nan_spec y).
  change (is_nan 0) with false. cbn [orb].
  rewrite !ltb_spec. change (Prim2SF 0) with (S754_zero false).
  change (get_sign 0) with false.
  destruct (Prim2SF y) as [s|[]| |[] m e]; reflexivity.
Qed.

Lemma round_div_days_nonneg x : 0 <= x -> 0 <= JSDate.round_div x 86400000.
Proof. intros H. unfold JSDate.round_div. apply Z.div_pos; lia. Qed.

(** The quotient by the milliseconds of a day, rounded by [Math.round]:
    the rounding of the division does not reach the next half. *)
Lemma Math_round_days x :
  0 < x < 2 ^ 53 ->
  let k := JSDate.round_div x 86400000 in
  Math_round (Num.ofZ x / Num.ofZ 86400000)
  = if k =? 0 then zero else Num.ofZ k.
Proof.
  intros Hx k.
  destruct (div_ofZ_nearest x 86400000 Hx ltac:(lia))
    as (N & E' & E0 & [_ EU] & NE & [NL NU] & R).
  change (Zdigits2 86400000) with 27 in EU.
  pose proof (Zdigits2_le_53 x Hx) as Dx.
  assert (EB : E' <= -26) by lia.
  set (P2 := 2 ^ (- E' - 1)).
  assert (HP2 : 2 ^ 25 <= P2) by (apply Z.pow_le_mono_r; lia).
  assert (EP : 2 ^ (- E') = 2 * P2).
  { unfold P2. rewrite <- Z.pow_succ_r by lia. f_equal. lia. }
  rewrite EP in NE.
  (* the day count and its products with the scale *)
  assert (Hk : 0 <= k) by (apply round_div_days_nonneg; lia).
  assert (K1 : 2 * 86400000 * k <= 2 * x + 86400000
               /\ 2 * x + 86400000 < 2 * 86400000 * k + 2 * 86400000).
  { unfold k, JSDate.round_div.
    pose proof (Z.div_mod (2 * x + 86400000) (2 * 86400000) ltac:(lia)).
    pose proof (Z.mod_pos_bound (2 * x + 86400000) (2 * 86400000)
                  ltac:(lia)). lia. }
  set (XP := x * P2) in *. set (KP := k * P2).
  assert (A1 : (2 * KP - P2) * 86400000 <= 2 * XP) by (unfold KP, XP; nia).
  assert (A2 : 2 * XP <= (2 * KP + P2) * 86400000 - 2 * P2)
    by (unfold KP, XP; nia).
  replace (x * (2 * P2)) with (2 * XP) in NE by (unfold XP; lia).
  assert (B1 : 2 * KP - P2 <= N) by lia.
  assert (B2 : N < 2 * KP + P2) by lia.
  unfold Math_round. rewrite R.
  destruct (Z.ltb_spec N (2 ^ 53)) as [C|C].
  - destruct (Z.leb_spec 0 E') as [L|L]; [lia|].
    rewrite Z2Pos.id by lia. cbn [cond_Zopp].
    replace (2 ^ (1 - E')) with (2 * (2 * P2))
      by (rewrite <- EP, <- Z.pow_succ_r by lia; f_equal; lia).
    rewrite EP.
    replace ((2 * N + 2 * P2) / (2 * (2 * P2))) with k; [reflexivity|].
    apply (Z.div_unique_pos _ _ _ (2 * N + 2 * P2 - 4 * KP));
      [lia | unfold KP; lia].
  - assert (EN : N = 2 ^ 53) by lia.
    destruct (Z.leb_spec 0 (E' + 1)) as [L|L]; [lia|].
    rewrite Z2Pos.id by lia. cbn [cond_Zopp].
    replace (2 ^ (1 - (E' + 1))) with (2 * P2)
      by (rewrite <- EP; f_equal; lia).
    replace (2 ^ (- (E' + 1))) with P2 by (unfold P2; f_equal; lia).
    replace ((2 * 2 ^ 52 + P2) / (2 * P2)) with k; [reflexivity|].
    apply (Z.div_unique_pos _ _ _ (2 * 2 ^ 52 + P2 - 2 * KP));
      [lia | unfold KP; lia].
Qed.

Lemma valid_mantissa y s m e :
  Prim2SF y = S754_finite s m e -> Zpos m < 2 ^ 53.
Proof.
  intros E. pose proof (Prim2SF_valid y) as V. rewrite E in V.
  cbn [SpecFloat.valid_binary] in V.
  destruct (bounded_facts _ _ V) as (_ & D & _).
  pose proof (digits2_bounds m) as [_ U].
  eapply Z.lt_le_trans; [exact U|]. apply Z.pow_le_mono_r; lia.
Qed.

(** A number that is not above 0 is rounded to one that is not, and
    [Math.max] then gives 0. *)
Lemma Math_max_round_nonpos y :
  zero_or_signed true (Prim2SF y) = true ->
  Math_max 0 (Math_round y) = 0%float.
Proof.
  intros H. unfold Math_round.
  destruct (Prim2SF y) as [s|s| |s m e] eqn:E; try discriminate.
  - rewrite Math_max_0, E. reflexivity.
  - cbn [zero_or_signed] in H. destruct s; [|discriminate].
    rewrite Math_max_0, E. reflexivity.
  - cbn [zero_or_signed] in H. destruct s; [|discriminate].
    destruct (Z.leb_spec 0 e) as [L|L].
    + rewrite Math_max_0, E. reflexivity.
    + cbn [cond_Zopp].
      pose proof (valid_mantissa _ _ _ _ E) as Vm.
      assert (P : 0 < 2 ^ (- e)) by (apply Z.pow_pos_nonneg; lia).
      assert (EP : 2 ^ (1 - e) = 2 * 2 ^ (- e)).
      { rewrite <- Z.pow_succ_r by lia. f_equal. lia. }
      set (n := (2 * - Zpos m + 2 ^ (- e)) / 2 ^ (1 - e)).
      assert (Hn : - Zpos m <= n <= 0).
      { unfold n. rewrite EP. split.
        - apply Z.div_le_lower_bound; nia.
        - assert ((2 * - Z.pos m + 2 ^ (- e)) / (2 * 2 ^ (- e)) < 1);
            [|lia].
          apply Z.div_lt_upper_bound; lia. }
      destruct (Z.eqb_spec n 0) as [Z0|Z0]; [reflexivity|].
      rewrite Math_max_0, (Prim2SF_ofZ n Z0) by lia.
      destruct (Z.ltb_spec n 0); [reflexivity | lia].
Qed.

Lemma Math_max_0_ofZ k : 0 <= k < 2 ^ 53 -> Math_max 0 (Num.ofZ k) = Num.ofZ k.
Proof.
  intros H. rewrite Math_max_0.
  destruct (Z.eq_dec k 0) as [->|N]; [reflexivity|].
  rewrite (Prim2SF_ofZ_pos k) by lia. reflexivity.
Qed.

Lemma round_div_days_bound x :
  0 <= x < 2 ^ 53 -> 0 <= JSDate.round_div x 86400000 < 2 ^ 53.
Proof.
  intros H. split; [apply round_div_days_nonneg; lia|].
  unfold JSDate.round_div. apply Z.div_lt_upper_bound; lia.
Qed.

(** The day count of two integers of milliseconds that are less than
    2^53 apart: the whole days from [a] to [b], rounded, and 0 when
    negative. *)
Lemma days_of_difference x :
  Z.abs x < 2 ^ 53 ->
  Math_max 0 (Math_round (Num.ofZ x / (24 * 3600 * 1000)))
  = Num.ofZ (Z.max 0 (JSDate.round_div x (24 * 3600 * 1000))).
Proof.
  intros H.
  change (24 * 3600 * 1000)%float with (Num.ofZ 86400000).
  change (24 * 3600 * 1000) with 86400000.
  destruct (Z.lt_trichotomy x 0) as [L|[->|L]].
  - rewrite Math_max_round_nonpos.
    + replace (Z.max 0 (JSDate.round_div x 86400000)) with 0; [reflexivity|].
      assert (JSDate.round_div x 86400000 <= 0); [|lia].
      unfold JSDate.round_div.
      assert ((2 * x + 86400000) / (2 * 86400000) < 1); [|lia].
      apply Z.div_lt_upper_bound; lia.
    + rewrite div_spec, (Prim2SF_ofZ x) by lia.
      rewrite (Prim2SF_ofZ_pos 86400000) by lia.
      destruct (Z.ltb_spec x 0); [|lia].
      apply (SFdiv_finite_sign_bit true _ _ false).
  - reflexivity.
  - rewrite (Math_round_days x) by lia. cbv zeta.
    pose proof (round_div_days_bound x ltac:(lia)) as B.
    rewrite Z.max_r by lia.
    destruct (Z.eqb_spec (JSDate.round_div x 86400000) 0) as [->|N];
      [reflexivity|].
    apply Math_max_0_ofZ. lia.
Qed.

Lemma sub_nan_l y : (nan - y)%float = nan.
Proof. apply Prim2SF_inj. rewrite sub_spec. reflexivity. Qed.

Lemma sub_nan_r x : (x - nan)%float = nan.
Proof.
  apply Prim2SF_inj. rewrite sub_spec.
  change (Prim2SF nan) with S754_nan.
  destruct (Prim2SF x) as [s|s| |s m e]; reflexivity.
Qed.

Lemma newDate_valid parse s t :
  JSDate.newDate parse s = Some t -> Z.abs t <= JSDate.maxTime.
Proof.
  unfold JSDate.newDate, JSDate.TimeClip.
  destruct (parse s) as [v|]; [|discriminate].
  destruct (Z.leb_spec (Z.abs v) JSDate.maxTime); [|discriminate].
  now intros [= <-].
Qed.

(** [daysBetween] on two valid dates less than 2^53 ms apart. *)
Lemma daysBetween_wholeDays parse aISO bISO a b :
  JSDate.newDate parse aISO = Some a ->
  JSDate.newDate parse bISO = Some b ->
  Z.abs (b - a) < 2 ^ 53 ->
  daysBetween parse aISO bISO = Num.ofZ (wholeDays a b)
  /\ Num.toZ (daysBetween parse aISO bISO) = Some (wholeDays a b).
Proof.
  intros Ha Hb Hx.
  pose proof (newDate_valid _ _ _ Ha) as Va.
  pose proof (newDate_valid _ _ _ Hb) as Vb.
  unfold JSDate.maxTime in *.
  assert (E : daysBetween parse aISO bISO = Num.ofZ (wholeDays a b)).
  { unfold daysBetween. cbv zeta. rewrite Ha, Hb. cbn [JSDate.getTime].
    rewrite sub_ofZ by lia. now apply days_of_difference. }
  split; [exact E|]. rewrite E. apply toZ_ofZ.
  unfold wholeDays.
  change (24 * 3600 * 1000) with 86400000.
  destruct (Z.le_gt_cases 0 (b - a)) as [L|L].
  - pose proof (round_div_days_bound (b - a) ltac:(lia)). lia.
  - assert (JSDate.round_div (b - a) 86400000 <= 0).
    { unfold JSDate.round_div.
      assert ((2 * (b - a) + 86400000) / (2 * 86400000) < 1); [|lia].
      apply Z.div_lt_upper_bound; lia. }
    lia.
Qed.

(** [daysBetween] is NaN when one of the dates is invalid. *)
Lemma daysBetween_invalid parse aISO bISO :
  JSDate.newDate parse aISO = None \/ JSDate.newDate parse bISO = None ->
  daysBetween parse aISO bISO = nan
  /\ Num.toZ (daysBetween parse aISO bISO) = None.
Proof.
  intros H.
  assert (E : daysBetween parse aISO bISO = nan).
  { unfold daysBetween. cbv zeta.
    assert (S : (JSDate.getTime (JSDate.newDate parse bISO)
                 - JSDate.getTime (JSDate.newDate parse aISO))%float = nan).
    { destruct H as [-> | ->]; [apply sub_nan_r | apply sub_nan_l]. }
    rewrite S. reflexivity. }
  split; [exact E | now rewrite E].
Qed.

(** ** Velocity by priority: the report *)

Lemma sumNumbers_NaN (arr : list (option Z)) :
  In None arr -> sumNumbers arr = None.
Proof.
  unfold sumNumbers. generalize (Some 0).
  induction arr as [|v arr IH]; intros acc H; [contradiction|].
  cbn [fold_left]. destruct H as [->|H].
  - assert (E : forall l : list (option Z),
              fold_left
                (fun s v => match s, v with
                            | Some x, Some y => Some (x + y)
                            | _, _ => None
                            end) l None = None).
    { induction l as [|w l IHl]; [reflexivity | exact IHl]. }
    destruct acc; apply E.
  - now apply IH.
Qed.

(** C8 (as amended): [computeVelocityByPriority] considers only the tasks
    with a [completedAt].  The day count of a task is what [daysBetween]
    computes in binary64: the whole days from [createdAt] to
    [completedAt], rounded, 0 when negative, when the two are valid dates
    less than 2^53 ms apart; NaN when one of them is not a valid date.
    For a priority whose day counts [ds] are all numbers, it reports
    their arithmetic mean and the element at index [floor(n / 2)] of the
    ascending counts, which is the median when [n] is odd and the upper
    of the two middle counts when [n] is even (at least half of the
    counts are at most it, at least half are at least it); both are 0
    for an empty group.  For a priority with a day count that is NaN the
    mean is NaN. *)
Theorem computeVelocityByPriority_spec
    (Date_parse : string -> option Z) (l : list Task) (p : Priority) :
  let v := computeVelocityByPriority Date_parse l p in
  let group := filter (completedIn p) l in
  (forall t c a b,
     completedAt t = Some c ->
     JSDate.newDate Date_parse (createdAt t) = Some a ->
     JSDate.newDate Date_parse c = Some b ->
     Z.abs (b - a) < 2 ^ 53 ->
     daysOf Date_parse t (wholeDays a b))
  /\ (forall t c,
        completedAt t = Some c ->
        JSDate.newDate Date_parse (createdAt t) = None
        \/ JSDate.newDate Date_parse c = None ->
        forall d, ~ daysOf Date_parse t d)
  /\ (forall ds,
        Forall2 (daysOf Date_parse) group ds ->
        exists sorted,
          Permutation ds sorted /\ StronglySorted Z.le sorted
          /\ avgDays v
             = Some (if (List.length ds =? 0)%nat then 0%Q else mean ds)
          /\ medianDays v
             = Some (if (List.length ds =? 0)%nat then 0
                     else upperMedian sorted)
          /\ (Nat.odd (List.length ds) = true ->
              (inject_Z (upperMedian sorted) == median sorted)%Q)
          /\ (ds <> [] -> splitsInHalves (upperMedian sorted) ds))
  /\ ((exists t, In t group /\ forall d, ~ daysOf Date_parse t d) ->
      avgDays v = None).
Proof.
  cbv zeta. split; [|split; [|split]].
  - intros t c a b C A B X. exists c. split; [exact C|].
    apply (daysBetween_wholeDays Date_parse _ _ a b A B X).
  - intros t c C H d (c' & C' & D). rewrite C in C'. injection C' as <-.
    destruct (daysBetween_invalid Date_parse (createdAt t) c H) as [_ N].
    congruence.
  - intros ds H.
    unfold computeVelocityByPriority, velocityOf.
    rewrite groupTasks_filter, (days_of_daysOf _ l ds p H).
    rewrite Array_sort_map_Some.
    set (sorted := Array_sort (fun a b => Z.sgn (a - b)) ds).
    assert (HP : Permutation ds sorted) by apply Array_sort_perm.
    assert (HL : List.length sorted = List.length ds)
      by apply Array_sort_length.
    exists sorted. split; [exact HP|].
    split; [apply Array_sort_ascending|].
    rewrite length_map, HL. cbn [avgDays medianDays].
    assert (HM : ds <> [] -> splitsInHalves (upperMedian sorted) ds).
    { intros NE. apply (splitsInHalves_perm _ _ _ HP).
      apply upperMedian_splits; [apply Array_sort_ascending|].
      intros E. apply NE. apply length_zero_iff_nil.
      rewrite <- HL, E. reflexivity. }
    destruct (Nat.eqb_spec (List.length ds) 0) as [E|E].
    + repeat split; try exact HM; try (now apply HM).
      intros O. rewrite E in O. discriminate.
    + repeat split; try (now apply HM).
      * rewrite sumNumbers_map_Some. cbn [option_map]. unfold mean.
        now rewrite (sumZ_perm _ _ HP).
      * unfold upperMedian. rewrite HL.
        rewrite (nth_indep _ None (Some 0)).
        -- now rewrite map_nth.
        -- rewrite length_map, HL. apply Nat.div_lt; lia.
      * intros O. unfold median. rewrite HL.
        destruct (Nat.eqb_spec (List.length ds) 0); [contradiction|].
        rewrite <- Nat.negb_odd, O. cbn [negb]. unfold upperMedian.
        rewrite HL. reflexivity.
  - intros (t & Ht & N).
    unfold computeVelocityByPriority, velocityOf.
    rewrite groupTasks_filter.
    pose proof (days_NaN Date_parse l p t Ht N) as I.
    set (arr := map _ (filter (completedIn p) l)) in *.
    pose proof (Array_sort_perm compareNumbers arr) as HP.
    assert (I' : In None (Array_sort compareNumbers arr))
      by (eapply Permutation_in; eassumption).
    cbn [avgDays].
    destruct (Nat.eqb_spec (List.length (Array_sort compareNumbers arr)) 0)
      as [E|E].
    + apply length_zero_iff_nil in E. rewrite E in I'. contradiction.
    + now rewrite (sumNumbers_NaN _ I').
Qed.

Lemma computeVelocityByPriority_spec_witness :
  exists sorted,
    Permutation [1; 3] sorted
    /\ medianDays
         (computeVelocityByPriority JSDate.parseISO SampleVelocity.board High)
       = Some (upperMedian sorted).
Proof.
  destruct (proj1 (proj2 (proj2
              (computeVelocityByPriority_spec JSDate.parseISO
                 SampleVelocity.board High))) [1; 3])
    as (s & P & _ & _ & M & _).
  - repeat constructor.
    + exists "2024-01-02T09:00:00.000Z". split; reflexivity.
    + exists "2024-01-04T08:00:00.000Z". split; reflexivity.
  - exists s. split; [exact P | exact M].
Defined.

(** C8 (the claim as stated fails): two High tasks completed after 1 and
    3 days.  The reported [medianDays] is 3; the median of 1 and 3
    is 2. *)
Lemma medianDays_of_even_group_is_upper :
  let v := computeVelocityByPriority JSDate.parseISO
             SampleVelocity.board High in
  groupTasks JSDate.parseISO SampleVelocity.board High = [Some 1; Some 3]
  /\ medianDays v = Some 3
  /\ (median [1; 3]%Z == 2)%Q
  /\ ~ (inject_Z 3 == median [1; 3]%Z)%Q.
Proof.
  vm_compute. repeat split; try discriminate.
Qed.

(** The day count is computed in binary64.  From 29 August -203374 to 6
    September 207313, two valid dates, 150000000 days and a millisecond
    less than twelve hours go by: the difference of the time values is
    not a binary64 number, the next one is the half day, and the count
    is 150000001. *)
Example daysBetween_far_apart :
  let parse (s : string) :=
    if (s =? "a")%string then Some (-6480000000000000)
    else Some 6480000043199999 in
  Num.toZ (daysBetween parse "a" "b") = Some 150000001
  /\ wholeDays (-6480000000000000) 6480000043199999 = 150000000.
Proof. vm_compute. split; reflexivity. Qed.

(** ** Time efficiency in binary64 *)

Lemma Number_ofNat_ofZ (n : nat) : Number_ofNat n = Num.ofZ (Z.of_nat n).
Proof.
  unfold Number_ofNat, Num.ofZ.
  destruct (Z.ltb_spec (Z.of_nat n) 0) as [N|N]; [lia | reflexivity].
Qed.

(** The quotient of two whole numbers, the first below the second, is a
    number below 1. *)
Lemma div_ofZ_below_1 a b :
  0 < a < b -> b < 2 ^ 53 ->
  exists M E,
    2 ^ 52 <= M < 2 ^ 53 /\ M < 2 ^ (- E) /\ -105 <= E <= -53
    /\ Prim2SF (Num.ofZ a / Num.ofZ b) = S754_finite false (Z.to_pos M) E.
Proof.
  intros Ha Hb.
  destruct (div_ofZ_nearest a b) as (N & E' & L0 & LE & Near & RN & P);
    [lia | lia |].
  pose proof (Zdigits2_le_53 a ltac:(lia)) as Da.
  pose proof (Zdigits2_le_53 b ltac:(lia)) as Db.
  assert (Dab : Zdigits2 a <= Zdigits2 b).
  { pose proof (Zdigits2_bounds a ltac:(lia)) as Ba.
    pose proof (Zdigits2_bounds b ltac:(lia)) as Bb.
    destruct (Z.le_gt_cases (Zdigits2 a) (Zdigits2 b)) as [|G]; [assumption|].
    assert (2 ^ Zdigits2 b <= 2 ^ (Zdigits2 a - 1))
      by (apply Z.pow_le_mono_r; lia).
    lia. }
  set (K := 2 ^ (- E')) in *.
  assert (HK : 2 ^ 52 <= K) by (apply Z.pow_le_mono_r; lia).
  assert (NK : N < K).
  { assert (b < 2 * K) by (change (2 ^ 53) with (2 * 2 ^ 52) in Hb; lia).
    assert (2 * (N * b) <= 2 * (a * K) + b) by lia.
    assert (a * K <= (b - 1) * K) by (apply Z.mul_le_mono_nonneg_r; lia).
    assert (2 * (N * b) < 2 * (K * b)) by lia.
    apply Z.mul_lt_mono_pos_r with b; lia. }
  destruct (Z.ltb_spec N (2 ^ 53)) as [L|L].
  - exists N, E'. repeat split; try lia; [|exact P].
    destruct (Z.le_gt_cases 53 (- E')) as [|G]; [lia|].
    assert (K <= 2 ^ 52) by (apply Z.pow_le_mono_r; lia). lia.
  - exists (2 ^ 52), (E' + 1).
    assert (E54 : 54 <= - E').
    { destruct (Z.le_gt_cases 54 (- E')) as [|G]; [lia|].
      assert (K <= 2 ^ 53) by (apply Z.pow_le_mono_r; lia). lia. }
    repeat split; try lia; [|exact P].
    apply Z.pow_lt_mono_r; lia.
Qed.


(** A number below 1 times 100 is a number below 100. *)
Lemma SFmul_100_below M E :
  2 ^ 52 <= M < 2 ^ 53 -> M < 2 ^ (- E) -> -105 <= E <= -53 ->
  exists Mr Er,
    (Er < -46 \/ Er = -46 /\ Zpos Mr < 7036874417766400)
    /\ SF64mul (S754_finite false (Z.to_pos M) E)
         (S754_finite false 7036874417766400 (-46))
       = S754_finite false Mr Er.
Proof.
  intros HM HK HE. unfold SF64mul, SFmul. cbn [xorb].
  rewrite Pos2Z.inj_mul, Z2Pos.id by lia.
  set (m := M * 7036874417766400).
  assert (Hm : 2 ^ 104 <= m < 2 ^ 106).
  { unfold m. change (2 ^ 104) with (2 ^ 52 * 2 ^ 52).
    change (2 ^ 106) with (2 ^ 53 * 2 ^ 53). nia. }
  pose proof (Zdigits2_bounds m ltac:(lia)) as B.
  assert (D : 105 <= Zdigits2 m <= 106).
  { split.
    - destruct (Z.le_gt_cases 105 (Zdigits2 m)) as [|G]; [assumption|].
      assert (2 ^ Zdigits2 m <= 2 ^ 104)
        by (apply Z.pow_le_mono_r; lia). lia.
    - destruct (Z.le_gt_cases (Zdigits2 m) 106) as [|G]; [assumption|].
      assert (2 ^ 106 <= 2 ^ (Zdigits2 m - 1))
        by (apply Z.pow_le_mono_r; lia). lia. }
  destruct (binary_round_aux_nearest false m 1 m (E + -46))
    as (N & Near & RN & R); try lia.
  { now rewrite Z.div_1_r. }
  replace (location_of m 1) with loc_Exact in R
    by (symmetry; apply location_of_Exact; [lia | apply Z.mod_1_r]).
  rewrite R. clear R.
  set (k := Zdigits2 m - 53) in *.
  set (K := 2 ^ (- E)) in *.
  assert (Hk : 2 ^ k <= 2 ^ 53) by (apply Z.pow_le_mono_r; lia).
  assert (Pk : 0 < 2 ^ k) by (apply Z.pow_pos_nonneg; lia).
  rewrite !Z.mul_1_l in Near.
  assert (Lt : N * 2 ^ k < 7036874417766400 * K).
  { assert (m <= (K - 1) * 7036874417766400)
      by (unfold m; apply Z.mul_le_mono_nonneg_r;  lia).
    change (2 ^ 53) with 9007199254740992 in Hk. lia. }
  destruct (Z.ltb_spec N (2 ^ 53)) as [L|L].
  - exists (Z.to_pos N), (E + -46 + k). split; [|reflexivity].
    rewrite Z2Pos.id by lia.
    destruct (Z.eq_dec (E + k) 0) as [Z0|NZ]; [right | left; lia].
    split; [lia|].
    assert (EK : K = 2 ^ k) by (unfold K; f_equal; lia).
    rewrite EK in Lt. apply Z.mul_lt_mono_pos_r with (2 ^ k); assumption.
  - assert (N = 2 ^ 53) by lia. subst N.
    exists (Z.to_pos (2 ^ 52)), (E + -46 + k + 1). split; [|reflexivity].
    assert (k < - E).
    { destruct (Z.lt_ge_cases k (- E)) as [|G]; [assumption|].
      assert (K <= 2 ^ k) by (apply Z.pow_le_mono_r; lia).
      assert (7036874417766400 * K <= 7036874417766400 * 2 ^ k)
        by (apply Z.mul_le_mono_nonneg_l;  lia).
      assert (7036874417766400 * 2 ^ k < 2 ^ 53 * 2 ^ k)
        by (apply Z.mul_lt_mono_pos_r; [lia | reflexivity]).
      lia. }
    destruct (Z.eq_dec (E + k + 1) 0) as [Z0|NZ]; [right | left; lia].
    split; [lia | reflexivity].
Qed.

Lemma SFleb_below m1 e1 m2 e2 :
  e1 < e2 \/ e1 = e2 /\ Zpos m1 < Zpos m2 ->
  SFleb (S754_finite false m1 e1) (S754_finite false m2 e2) = true.
Proof.
  intros H. unfold SFleb, SFcompare. destruct H as [H|[-> H]].
  - now rewrite (proj2 (Z.compare_lt_iff e1 e2) H).
  - rewrite Z.compare_refl.
    unfold Z.lt in H. cbn [Z.compare] in H. unfold Pos.compare in H.
    now rewrite H.
Qed.

Lemma Prim2SF_100 : Prim2SF 100 = S754_finite false 7036874417766400 (-46).
Proof. reflexivity. Qed.

Lemma below_100 x Mr Er :
  Prim2SF x = S754_finite false Mr Er ->
  Er < -46 \/ Er = -46 /\ Zpos Mr < 7036874417766400 ->
  (0 <=? x)%float = true /\ (x <=? 100)%float = true
  /\ x <> 100%float /\ x <> 0%float.
Proof.
  intros P H. split; [|split; [|split]].
  - rewrite leb_0_signed, P. reflexivity.
  - rewrite leb_spec, P, Prim2SF_100. apply SFleb_below. exact H.
  - intros ->. rewrite Prim2SF_100 in P. 
    destruct H as [H|[_ H]].
    + assert (Er = -46) by congruence. lia.
    + assert (Mr = 7036874417766400%positive) by congruence. subst Mr.
      exact (Z.lt_irrefl _ H).
  - intros ->. change (Prim2SF 0) with (S754_zero false) in P.
    discriminate P.
Qed.

Lemma div_ofZ_same b :
  0 < b < 2 ^ 53 -> (Num.ofZ b / Num.ofZ b)%float = 1%float.
Proof.
  intros Hb.
  destruct (div_ofZ_nearest b b) as (N & E' & L0 & LE & Near & RN & P);
    [lia | lia |].
  apply Prim2SF_inj. rewrite P.
  change (Prim2SF 1) with (S754_finite false 4503599627370496 (-52)).
  set (K := 2 ^ (- E')) in *.
  assert (NK : N = K).
  { assert (2 * Z.abs (N - K) * b <= b).
    { replace (N * b - b * K) with ((N - K) * b) in Near by ring.
      rewrite Z.abs_mul in Near. rewrite (Z.abs_eq b) in Near by lia. lia. }
    assert (Z.abs (N - K) < 1) by nia. lia. }
  assert (E' = -52 \/ E' = -53) as [->| ->] by lia.
  - subst N. reflexivity.
  - subst N. reflexivity.
Qed.

Lemma div_0_ofZ b :
  0 < b < 2 ^ 53 -> (Num.ofZ 0 / Num.ofZ b)%float = 0%float.
Proof.
  intros Hb. apply Prim2SF_inj.
  rewrite div_spec, (Prim2SF_ofZ_pos b), Prim2SF_ofZ_0 by lia.
  reflexivity.
Qed.

(** X8: the time efficiency, as the binary64 number that
    [(done / tasks.length) * 100] is after its two roundings, for a list
    of fewer than 2^53 tasks: it is a number from 0 to 100; on a list
    that is not empty it is 100 exactly when every task is Done and 0
    exactly when none is; on the empty list it is 0. *)
Theorem computeTimeEfficiency_percentage (l : list Task) :
  Z.of_nat (List.length l) < 2 ^ 53 ->
  let e := computeTimeEfficiency l in
  ((0 <=? e)%float = true /\ (e <=? 100)%float = true)
  /\ (l <> [] ->
      (e = 100%float <-> Forall (fun t => status t = Done) l)
      /\ (e = 0%float <-> Forall (fun t => status t <> Done) l))
  /\ (l = [] -> e = 0%float).
Proof.
  intros Hl. cbv zeta. unfold computeTimeEfficiency.
  destruct (Nat.eqb_spec (List.length l) 0) as [E|E].
  - apply length_zero_iff_nil in E. subst l.
    repeat split; intros; congruence.
  - rewrite !Number_ofNat_ofZ.
    pose proof (countStatus_le Done l) as Le.
    pose proof (countStatus_all Done l) as All.
    pose proof (countStatus_none Done l) as Non.
    set (a := countStatus Done l) in *.
    set (b := List.length l) in *.
    assert (C : a = 0%nat \/ a = b \/ (0 < a < b)%nat) by lia.
    destruct C as [Z0|[Eq|Lt]].
    + rewrite Z0. change (Z.of_nat 0) with 0.
      rewrite div_0_ofZ by lia.
      change (0 * 100)%float with 0%float.
      split; [split; reflexivity|]. split; [|intros ->; contradiction].
      intros _. split.
      * split; [discriminate|]. intros F. apply All in F. lia.
      * split; [intros _; now apply Non | reflexivity].
    + rewrite Eq, div_ofZ_same by lia.
      change (1 * 100)%float with 100%float.
      split; [split; reflexivity|]. split; [|intros ->; contradiction].
      intros _. split.
      * split; [intros _; now apply All | reflexivity].
      * split; [discriminate|]. intros F. apply Non in F. lia.
    + destruct (div_ofZ_below_1 (Z.of_nat a) (Z.of_nat b))
        as (M & Eq & HM & HK & HE & P); [lia | lia |].
      destruct (SFmul_100_below M Eq HM HK HE) as (Mr & Er & Hr & R).
      assert (P' : Prim2SF (Num.ofZ (Z.of_nat a) / Num.ofZ (Z.of_nat b) * 100)
                   = S754_finite false Mr Er).
      { rewrite mul_spec, P. exact R. }
      destruct (below_100 _ _ _ P' Hr) as (G0 & G100 & N100 & N0).
      split; [split; assumption|]. split; [|intros ->; contradiction].
      intros _. split.
      * split; [contradiction|]. intros F. apply All in F. lia.
      * split; [contradiction|]. intros F. apply Non in F. lia.
Qed.

Lemma computeTimeEfficiency_percentage_witness :
  Z.of_nat (List.length SampleFunnel.board) < 2 ^ 53
  /\ (computeTimeEfficiency SampleFunnel.board = 100%float <->
      Forall (fun t => status t = Done) SampleFunnel.board).
Proof.
  assert (H : Z.of_nat (List.length SampleFunnel.board) < 2 ^ 53)
    by reflexivity.
  split; [exact H|].
  apply (proj1 (proj2 (computeTimeEfficiency_percentage
                         SampleFunnel.board H))).
  discriminate.
Defined.

(** Two tasks of three are Done: the quotient is rounded, then the
    product, and the result is below the quotient of 200 by 3, which is
    rounded once. *)
Example computeTimeEfficiency_two_of_three :
  computeTimeEfficiency SampleFunnel.board = 66.66666666666666%float
  /\ (computeTimeEfficiency SampleFunnel.board <? 200 / 3)%float = true.
Proof. vm_compute. split; reflexivity. Qed.
